(** * Consensus engine of Sia: block acceptance, retargeting and reorganisation

    A shallow embedding of [consensus/blocks.go].  The Go code is a set of
    methods on a mutable [*State]; here every method is a function in a small
    state-and-panic monad over an explicit [State] record.  Block nodes are
    heap objects reached through pointers, as in the source: [blockMap] maps a
    block id to an address of the node heap and [Children] holds addresses.

    The transaction layer, the serialiser, the hash functions and the numeric
    constants live in other files of the repository; they are the fields of
    the classes [Types] and [Collaborators]. *)

From Stdlib Require Import ZArith QArith Qcanon String List Lia.
From stdpp Require Import base option numbers list gmap sorting.

Local Open Scope Z_scope.

(** ** Machine integers *)

(** Two's complement wrap-around of signed 64-bit arithmetic ([Timestamp]). *)
Definition int64 (z : Z) : Z := (z + 2 ^ 63) mod 2 ^ 64 - 2 ^ 63.

(** Wrap-around of unsigned 64-bit arithmetic ([BlockHeight]). *)
Definition uint64 (z : Z) : Z := z mod 2 ^ 64.

Definition in_int64 (z : Z) : Prop := - 2 ^ 63 <= z < 2 ^ 63.

(** ** Errors *)

(** The four exported error values, and the anonymous ones built with
    [errors.New]. *)
Inductive error : Type :=
  | BlockKnownErr
  | FutureBlockErr
  | KnownOrphanErr
  | UnknownOrphanErr
  | errors_New (msg : string).

(** ** Types owned by the collaborators *)

Class Types : Type := {
  Transaction : Type;
  Currency : Type;
  ContractState : Type;
  ContractDiff : Type;
  Pool : Type;
}.

Section DataModel.
Context {T : Types}.

(** Identifiers ([BlockID], [OutputID], [CoinAddress], [hash.Hash]) are
    256-bit hashes read as numbers; a [Target] is a 256-bit threshold;
    [Timestamp] is a signed and [BlockHeight] an unsigned 64-bit integer.
    All of them are carried by [Z]. *)

Record Block : Type := {
  ParentBlockID : Z;
  Timestamp : Z;
  Nonce : Z;
  MinerAddress : Z;
  MerkleRoot : Z;
  Transactions : list Transaction;
}.

Record Output : Type := {
  Value : Currency;
  SpendHash : Z;
}.

Record OutputDiff : Type := {
  New : bool;
  DiffID : Z;
  DiffOutput : Output;
}.

Record TransactionDiff : Type := {
  OutputDiffs : list OutputDiff;
  ContractDiffs : list ContractDiff;
}.

Record BlockDiff : Type := {
  CatalystBlock : Z;
  TransactionDiffs : list TransactionDiff;
  BlockChanges : TransactionDiff;
}.

Record ConsensusChange : Type := {
  InvertedBlocks : list BlockDiff;
  AppliedBlocks : list BlockDiff;
}.

(** A node of the block tree.  [Children] are addresses in the node heap. *)
Record BlockNode : Type := {
  NodeBlock : Block;
  Children : list nat;
  Height : Z;
  Depth : Z;
  Target : Z;
  RecentTimestamps : list Z;
  NodeBlockDiff : BlockDiff;
}.

(** The part of the state the transaction layer reads and writes. *)
Record Ledger : Type := {
  unspentOutputs : gmap Z Output;
  openContracts : ContractState;
}.

Record State : Type := {
  blockRoot : nat;
  heap : list BlockNode;
  badBlocks : gset Z;
  blockMap : gmap Z nat;
  missingParents : gmap Z (gmap Z Block);
  currentBlockID : Z;
  currentPath : gmap Z Z;
  ledger : Ledger;
  transactionPool : Pool;
  (** every [ConsensusChange] handed to the subscribers, oldest first *)
  notifications : list ConsensusChange;
  (** the re-submissions scheduled by [validateHeader]: delay and block *)
  futureBlocks : list (Z * Block);
}.

Definition zeroTransactionDiff : TransactionDiff :=
  {| OutputDiffs := []; ContractDiffs := [] |}.

Definition zeroBlockDiff : BlockDiff :=
  {| CatalystBlock := 0; TransactionDiffs := []; BlockChanges := zeroTransactionDiff |}.

Definition zeroConsensusChange : ConsensusChange :=
  {| InvertedBlocks := []; AppliedBlocks := [] |}.

End DataModel.

(** ** Collaborators

    Everything [blocks.go] calls but does not define: the constants, the
    methods of [Block], the conversion [RatToTarget], the currency
    arithmetic, and the callbacks of the transaction layer.

    Modelled from the spec: the callbacks [ValidTransaction],
    [applyTransaction], [invertTransaction], [applyContractMaintenance] and
    [invertContractMaintenance] are methods of [*State] whose bodies are in
    other files.  The spec gives their contracts: the check is pure, the
    others mutate the unspent outputs and the contract state and nothing
    else.  They are functions of the [Ledger] here, which return the new
    ledger with their Go result.  [StateHash] is the digest of the consensus
    state: the ledger, the current path and the current block id. *)
Class Collaborators {T : Types} : Type := {
  DEBUG : bool;
  FutureThreshold : Z;
  TargetWindow : Z;
  BlockFrequency : Z;
  MaxAdjustmentUp : Qc;
  MaxAdjustmentDown : Qc;
  BlockSizeLimit : Z;
  ID : Block -> Z;
  SubsidyID : Block -> Z;
  CheckTarget : Block -> Z -> bool;
  TransactionMerkleRoot : Block -> Z;
  Marshal : Block -> list Byte.byte;
  RatToTarget : Qc -> Z;
  MinerFees : Transaction -> list Currency;
  CurrencyZero : Currency;
  CurrencyAdd : Currency -> Currency -> Currency;
  CalculateCoinbase : Z -> Currency;
  ValidTransaction : Ledger -> Transaction -> option error;
  applyTransaction : Ledger -> Transaction -> Ledger * TransactionDiff;
  invertTransaction : Ledger -> Transaction -> Ledger * list OutputDiff;
  applyContractMaintenance :
    Ledger -> TransactionDiff -> Ledger * TransactionDiff * list OutputDiff;
  invertContractMaintenance : Ledger -> Ledger * list OutputDiff;
  cleanTransactionPool : Ledger -> Pool -> Pool;
  StateHash : Ledger -> gmap Z Z -> Z -> Z;
}.

(** ** The state-and-panic monad *)

Inductive result (A : Type) : Type :=
  | Ok (a : A)
  | Panic (msg : string)
  | OutOfFuel.
Arguments Ok {A} a.
Arguments Panic {A} msg.
Arguments OutOfFuel {A}.

Section Monad.
Context {T : Types}.

Definition M (A : Type) : Type := State -> result (A * State).

Definition ret {A} (a : A) : M A := fun s => Ok (a, s).

Definition bind {A B} (m : M A) (k : A -> M B) : M B :=
  fun s => match m s with
           | Ok (a, s') => k a s'
           | Panic msg => Panic msg
           | OutOfFuel => OutOfFuel
           end.

Definition panic {A} (msg : string) : M A := fun _ => Panic msg.
Definition get : M State := fun s => Ok (s, s).
Definition gets {A} (f : State -> A) : M A := fun s => Ok (f s, s).
Definition modify (f : State -> State) : M unit := fun s => Ok (tt, f s).

(** Dereference of a possibly nil pointer. *)
Definition deref {A} (o : option A) : M A :=
  match o with
  | Some a => ret a
  | None => panic "invalid memory address or nil pointer dereference"
  end.

(** Indexing of a slice. *)
Definition index {A} (o : option A) : M A :=
  match o with
  | Some a => ret a
  | None => panic "index out of range"
  end.

End Monad.

Notation "x <- m ;; k" := (bind m (fun x => k))
  (at level 100, m at next level, right associativity).
Notation "m ;;; k" := (bind m (fun _ => k))
  (at level 100, right associativity).

(** ** State updates *)

Section Updates.
Context {T : Types}.

Definition set_heap (h : list BlockNode) (s : State) : State :=
  {| blockRoot := blockRoot s; heap := h; badBlocks := badBlocks s;
     blockMap := blockMap s; missingParents := missingParents s;
     currentBlockID := currentBlockID s; currentPath := currentPath s;
     ledger := ledger s; transactionPool := transactionPool s;
     notifications := notifications s; futureBlocks := futureBlocks s |}.

Definition set_badBlocks (b : gset Z) (s : State) : State :=
  {| blockRoot := blockRoot s; heap := heap s; badBlocks := b;
     blockMap := blockMap s; missingParents := missingParents s;
     currentBlockID := currentBlockID s; currentPath := currentPath s;
     ledger := ledger s; transactionPool := transactionPool s;
     notifications := notifications s; futureBlocks := futureBlocks s |}.

Definition set_blockMap (m : gmap Z nat) (s : State) : State :=
  {| blockRoot := blockRoot s; heap := heap s; badBlocks := badBlocks s;
     blockMap := m; missingParents := missingParents s;
     currentBlockID := currentBlockID s; currentPath := currentPath s;
     ledger := ledger s; transactionPool := transactionPool s;
     notifications := notifications s; futureBlocks := futureBlocks s |}.

Definition set_missingParents (m : gmap Z (gmap Z Block)) (s : State) : State :=
  {| blockRoot := blockRoot s; heap := heap s; badBlocks := badBlocks s;
     blockMap := blockMap s; missingParents := m;
     currentBlockID := currentBlockID s; currentPath := currentPath s;
     ledger := ledger s; transactionPool := transactionPool s;
     notifications := notifications s; futureBlocks := futureBlocks s |}.

Definition set_currentBlockID (i : Z) (s : State) : State :=
  {| blockRoot := blockRoot s; heap := heap s; badBlocks := badBlocks s;
     blockMap := blockMap s; missingParents := missingParents s;
     currentBlockID := i; currentPath := currentPath s;
     ledger := ledger s; transactionPool := transactionPool s;
     notifications := notifications s; futureBlocks := futureBlocks s |}.

Definition set_currentPath (p : gmap Z Z) (s : State) : State :=
  {| blockRoot := blockRoot s; heap := heap s; badBlocks := badBlocks s;
     blockMap := blockMap s; missingParents := missingParents s;
     currentBlockID := currentBlockID s; currentPath := p;
     ledger := ledger s; transactionPool := transactionPool s;
     notifications := notifications s; futureBlocks := futureBlocks s |}.

Definition set_ledger (l : Ledger) (s : State) : State :=
  {| blockRoot := blockRoot s; heap := heap s; badBlocks := badBlocks s;
     blockMap := blockMap s; missingParents := missingParents s;
     currentBlockID := currentBlockID s; currentPath := currentPath s;
     ledger := l; transactionPool := transactionPool s;
     notifications := notifications s; futureBlocks := futureBlocks s |}.

Definition set_transactionPool (p : Pool) (s : State) : State :=
  {| blockRoot := blockRoot s; heap := heap s; badBlocks := badBlocks s;
     blockMap := blockMap s; missingParents := missingParents s;
     currentBlockID := currentBlockID s; currentPath := currentPath s;
     ledger := ledger s; transactionPool := p;
     notifications := notifications s; futureBlocks := futureBlocks s |}.

Definition set_notifications (n : list ConsensusChange) (s : State) : State :=
  {| blockRoot := blockRoot s; heap := heap s; badBlocks := badBlocks s;
     blockMap := blockMap s; missingParents := missingParents s;
     currentBlockID := currentBlockID s; currentPath := currentPath s;
     ledger := ledger s; transactionPool := transactionPool s;
     notifications := n; futureBlocks := futureBlocks s |}.

Definition set_futureBlocks (f : list (Z * Block)) (s : State) : State :=
  {| blockRoot := blockRoot s; heap := heap s; badBlocks := badBlocks s;
     blockMap := blockMap s; missingParents := missingParents s;
     currentBlockID := currentBlockID s; currentPath := currentPath s;
     ledger := ledger s; transactionPool := transactionPool s;
     notifications := notifications s; futureBlocks := f |}.

Definition set_unspentOutputs (u : gmap Z Output) (l : Ledger) : Ledger :=
  {| unspentOutputs := u; openContracts := openContracts l |}.

Definition set_NodeBlockDiff (bd : BlockDiff) (n : BlockNode) : BlockNode :=
  {| NodeBlock := NodeBlock n; Children := Children n; Height := Height n;
     Depth := Depth n; Target := Target n;
     RecentTimestamps := RecentTimestamps n; NodeBlockDiff := bd |}.

Definition set_Children (c : list nat) (n : BlockNode) : BlockNode :=
  {| NodeBlock := NodeBlock n; Children := c; Height := Height n;
     Depth := Depth n; Target := Target n;
     RecentTimestamps := RecentTimestamps n; NodeBlockDiff := NodeBlockDiff n |}.

End Updates.

Arguments set_heap {T} h s /.
Arguments set_badBlocks {T} b s /.
Arguments set_blockMap {T} m s /.
Arguments set_missingParents {T} m s /.
Arguments set_currentBlockID {T} i s /.
Arguments set_currentPath {T} p s /.
Arguments set_ledger {T} l s /.
Arguments set_transactionPool {T} p s /.
Arguments set_notifications {T} n s /.
Arguments set_futureBlocks {T} f s /.
Arguments set_unspentOutputs {T} u l /.
Arguments set_NodeBlockDiff {T} bd n /.
Arguments set_Children {T} c n /.

(** ** Constants and arithmetic helpers *)

(** var SurpassThreshold = big.NewRat(5, 100) *)
Definition SurpassThreshold : Qc := (Qc_of_Z 5 / Qc_of_Z 100)%Qc.

(** Modelled from the spec: the named constant [MedianTimestampWindow = 11];
    its declaration is outside [blocks.go], which writes index 10 of the
    window in [addBlockToTree]. *)
Definition MedianTimestampWindow : Z := 11.

(** Go's [copy(dst, src)]: the first [min (len dst) (len src)] elements of
    [dst] are overwritten. *)
Definition copy {A} (dst src : list A) : list A :=
  take (length dst) (src ++ drop (length src) dst).

(** big.Rat's [Cmp]: -1, 0 or +1. *)
Definition Rat_Cmp (x y : Qc) : Z :=
  match (x ?= y)%Qc with Lt => -1 | Eq => 0 | Gt => 1 end.

(** sort.Ints *)
Definition sort_Ints (l : list Z) : list Z := merge_sort Z.le l.

Section Engine.
Context {T : Types} {C : Collaborators}.

(** *** Pointers *)

Definition load (p : nat) : M BlockNode :=
  s <- get ;; deref (heap s !! p).

Definition store (p : nat) (n : BlockNode) : M unit :=
  modify (fun s => set_heap (<[p := n]> (heap s)) s).

(** [s.blockMap[id]] followed by a field access. *)
Definition blockMap_at (id : Z) : M nat :=
  s <- get ;; deref (blockMap s !! id).

(** *** big.Rat *)

(** big.NewRat(a, b); panics when [b] is zero. *)
Definition NewRat (a b : Z) : M Qc :=
  if decide (b = 0) then panic "division by zero"
  else ret (Qc_of_Z a / Qc_of_Z b)%Qc.

(** big.Rat's [Inv]; panics on zero. *)
Definition Rat_Inv (q : Qc) : M Qc :=
  if decide (q = 0%Qc) then panic "division by zero" else ret (/ q)%Qc.

(** Modelled from the spec: [Target.Rat()], the 256-bit threshold "viewed as
    a rational for arithmetic". *)
Definition Target_Rat (t : Z) : Qc := Qc_of_Z t.

(** Modelled from the spec: [Target.Inverse()], the work contribution
    [target⁻¹]. *)
Definition Target_Inverse (t : Z) : M Qc := Rat_Inv (Target_Rat t).

(** *** Accessors of the state *)

(** Modelled from the spec: the accessors [currentBlockNode], [CurrentBlock],
    [Height], [Depth], [CurrentBlockWeight], [Output] and [BlockAtHeight]
    are declared outside [blocks.go]; the tip is [blockMap[currentBlockID]]
    and [current_block_weight = current_tip.target⁻¹]. *)
Definition currentBlockNode : M nat :=
  s <- get ;; blockMap_at (currentBlockID s).

Definition CurrentBlock : M Block :=
  p <- currentBlockNode ;; n <- load p ;; ret (NodeBlock n).

Definition State_Height : M Z :=
  p <- currentBlockNode ;; n <- load p ;; ret (Height n).

Definition State_Depth : M Z :=
  p <- currentBlockNode ;; n <- load p ;; ret (Depth n).

Definition CurrentBlockWeight : M Qc :=
  p <- currentBlockNode ;; n <- load p ;; Target_Inverse (Target n).

Definition State_Output (id : Z) : M (option Output) :=
  s <- get ;; ret (unspentOutputs (ledger s) !! id).

Definition BlockAtHeight (height : Z) : M (option Block) :=
  s <- get ;;
  match blockMap s !! default 0 (currentPath s !! height) with
  | Some p => n <- load p ;; ret (Some (NodeBlock n))
  | None => ret None
  end.

(** Modelled from the spec: [notifySubscribers] publishes the change to all
    subscribers; the log [notifications] records what was published. *)
Definition notifySubscribers (cc : ConsensusChange) : M unit :=
  modify (fun s => set_notifications (notifications s ++ [cc]) s).

(** *** earliestChildTimestamp *)

(** The sorted copy is indexed at [MedianTimestampWindow/2]; an index out of
    range panics. *)
Definition earliestChildTimestamp (bn : BlockNode) : option Z :=
  let intTimestamps := sort_Ints (RecentTimestamps bn) in
  intTimestamps !! Z.to_nat (MedianTimestampWindow `quot` 2).

(** *** handleOrphanBlock *)

Definition handleOrphanBlock (b : Block) : M (option error) :=
  s <- get ;;
  if DEBUG && bool_decide (is_Some (blockMap s !! ParentBlockID b))
  then panic "Incorrect use of handleOrphanBlock"
  else
    match missingParents s !! ParentBlockID b with
    | None =>
        modify (set_missingParents
                  (<[ParentBlockID b := <[ID b := b]> ∅]> (missingParents s))) ;;;
        ret (Some UnknownOrphanErr)
    | Some missingParent =>
        match missingParent !! ID b with
        | Some _ => ret (Some KnownOrphanErr)
        | None =>
            modify (set_missingParents
                      (<[ParentBlockID b := <[ID b := b]> missingParent]>
                         (missingParents s))) ;;;
            ret (Some UnknownOrphanErr)
        end
    end.

(** *** checkDestiny *)

Definition checkDestiny (b : Block) : M (option error) :=
  s <- get ;;
  if decide (ID b ∈ badBlocks s)
  then ret (Some (errors_New "block is known to be invalid"))
  else
    match blockMap s !! ID b with
    | Some _ => ret (Some BlockKnownErr)
    | None =>
        match blockMap s !! ParentBlockID b with
        | None => handleOrphanBlock b
        | Some _ => ret None
        end
    end.

(** *** validateHeader *)

(** [now] is the value of [time.Now().Unix()].  The goroutine that sleeps
    and re-submits the block is recorded in [futureBlocks] with its
    [time.Duration]. *)
Definition validateHeader (now : Z) (parent : nat) (b : Block) : M (option error) :=
  parentNode <- load parent ;;
  if negb (CheckTarget b (Target parentNode))
  then ret (Some (errors_New "block does not meet target"))
  else
    let skew := int64 (Timestamp b - now) in
    if decide (skew > FutureThreshold)
    then
      modify (fun s =>
        set_futureBlocks
          (futureBlocks s ++
             [(int64 (int64 (skew - FutureThreshold) * 1000000000), b)]) s) ;;;
      ret (Some FutureBlockErr)
    else
      earliest <- index (earliestChildTimestamp parentNode) ;;
      if decide (earliest > Timestamp b)
      then
        modify (fun s => set_badBlocks ({[ID b]} ∪ badBlocks s) s) ;;;
        ret (Some (errors_New "timestamp invalid for being in the past"))
      else
        if decide (MerkleRoot b ≠ TransactionMerkleRoot b)
        then
          modify (fun s => set_badBlocks ({[ID b]} ∪ badBlocks s) s) ;;;
          ret (Some (errors_New "merkle root does not match transactions sent."))
        else ret None.

(** *** childTarget *)

Definition childTarget (parentNode newNode : BlockNode) : M Z :=
  s <- get ;;
  times <-
    (if decide (Height newNode < TargetWindow)
     then
       root <- load (blockRoot s) ;;
       ret (int64 (Timestamp (NodeBlock newNode) - Timestamp (NodeBlock root)),
            int64 (BlockFrequency * Height newNode))
     else
       adjustmentBlock <- BlockAtHeight (uint64 (Height newNode - TargetWindow)) ;;
       match adjustmentBlock with
       | None => panic "no block at height found."
       | Some ab =>
           ret (int64 (Timestamp (NodeBlock newNode) - Timestamp ab),
                int64 (BlockFrequency * TargetWindow))
       end) ;;
  let timePassed := times.1 in
  let expectedTimePassed := times.2 in
  targetAdjustment <- NewRat timePassed expectedTimePassed ;;
  let targetAdjustment :=
    if Rat_Cmp targetAdjustment MaxAdjustmentUp =? 1 then MaxAdjustmentUp
    else if Rat_Cmp targetAdjustment MaxAdjustmentDown =? -1 then MaxAdjustmentDown
    else targetAdjustment in
  let newTarget := (Target_Rat (Target parentNode) * targetAdjustment)%Qc in
  ret (RatToTarget newTarget).

(** *** childDepth *)

Definition childDepth (parentNode : BlockNode) : M Z :=
  ti <- Target_Inverse (Target parentNode) ;;
  di <- Target_Inverse (Depth parentNode) ;;
  let cumulativeDifficulty := (ti + di)%Qc in
  inv <- Rat_Inv cumulativeDifficulty ;;
  ret (RatToTarget inv).

(** *** addBlockToTree *)

Definition addBlockToTree (parent : nat) (b : Block) : M nat :=
  parentNode <- load parent ;;
  let newNode :=
    {| NodeBlock := b; Children := [];
       Height := uint64 (Height parentNode + 1);
       Depth := 0; Target := 0;
       RecentTimestamps :=
         <[10%nat := Timestamp b]>
           (copy (replicate 11 0) (drop 1 (RecentTimestamps parentNode)));
       NodeBlockDiff := zeroBlockDiff |} in
  target <- childTarget parentNode newNode ;;
  depth <- childDepth parentNode ;;
  let newNode :=
    {| NodeBlock := b; Children := []; Height := Height newNode;
       Depth := depth; Target := target;
       RecentTimestamps := RecentTimestamps newNode;
       NodeBlockDiff := zeroBlockDiff |} in
  s <- get ;;
  let p := length (heap s) in
  modify (set_heap (heap s ++ [newNode])) ;;;
  modify (fun s => set_blockMap (<[ID b := p]> (blockMap s)) s) ;;;
  parentNode <- load parent ;;
  store parent (set_Children (Children parentNode ++ [p]) parentNode) ;;;
  ret p.

(** *** heavierFork *)

Definition heavierFork (newNode : nat) : M bool :=
  weight <- CurrentBlockWeight ;;
  let threshold := (weight * SurpassThreshold)%Qc in
  depth <- State_Depth ;;
  currentCumDiff <- Target_Inverse depth ;;
  let requiredCumDiff := (currentCumDiff + threshold)%Qc in
  node <- load newNode ;;
  newNodeCumDiff <- Target_Inverse (Depth node) ;;
  ret (Rat_Cmp newNodeCumDiff requiredCumDiff =? 1).

(** *** invertRecentBlock *)

(** The transactions of the block are reversed last to first. *)
Fixpoint invertTransactions (txns : list Transaction) (l : Ledger)
    (diffs : list OutputDiff) : Ledger * list OutputDiff :=
  match txns with
  | [] => (l, diffs)
  | txn :: rest =>
      let r := invertTransaction l txn in
      invertTransactions rest r.1 (diffs ++ r.2)
  end.

Definition invertRecentBlock : M (list OutputDiff) :=
  cb <- CurrentBlock ;;
  let subsidyID := SubsidyID cb in
  out <- State_Output subsidyID ;;
  match out with
  | None => panic "output not in the unspent set"
  | Some subsidy =>
      let diff := {| New := false; DiffID := subsidyID; DiffOutput := subsidy |} in
      let diffs := [diff] in
      modify (fun s =>
        set_ledger (set_unspentOutputs
                      (delete subsidyID (unspentOutputs (ledger s))) (ledger s)) s) ;;;
      s <- get ;;
      let cm := invertContractMaintenance (ledger s) in
      let diffs := diffs ++ cm.2 in
      cb <- CurrentBlock ;;
      let r := invertTransactions (rev (Transactions cb)) cm.1 diffs in
      modify (set_ledger r.1) ;;;
      h <- State_Height ;;
      modify (fun s => set_currentPath (delete h (currentPath s)) s) ;;;
      cb <- CurrentBlock ;;
      modify (set_currentBlockID (ParentBlockID cb)) ;;;
      ret r.2
  end.

(** *** integrateBlock *)

(** The variables of the transaction loop of [integrateBlock]. *)
Record txnLoop : Type := {
  tl_ledger : Ledger;
  tl_applied : list Transaction;
  tl_diffs : list OutputDiff;
  tl_diff : BlockDiff;
  tl_subsidy : Currency;
  tl_err : option error;
}.

Definition push_TransactionDiff (td : TransactionDiff) (bd : BlockDiff) : BlockDiff :=
  {| CatalystBlock := CatalystBlock bd;
     TransactionDiffs := TransactionDiffs bd ++ [td];
     BlockChanges := BlockChanges bd |}.

Fixpoint applyTransactions (txns : list Transaction) (st : txnLoop) : txnLoop :=
  match txns with
  | [] => st
  | txn :: rest =>
      match ValidTransaction (tl_ledger st) txn with
      | Some e =>
          {| tl_ledger := tl_ledger st; tl_applied := tl_applied st;
             tl_diffs := tl_diffs st; tl_diff := tl_diff st;
             tl_subsidy := tl_subsidy st; tl_err := Some e |}
      | None =>
          let r := applyTransaction (tl_ledger st) txn in
          applyTransactions rest
            {| tl_ledger := r.1;
               tl_applied := tl_applied st ++ [txn];
               tl_diffs := tl_diffs st ++ OutputDiffs r.2;
               tl_diff := push_TransactionDiff r.2 (tl_diff st);
               tl_subsidy := fold_left CurrencyAdd (MinerFees txn) (tl_subsidy st);
               tl_err := None |}
      end
  end.

(** [bd] is the block diff behind the pointer argument; its final value is
    returned with the named results [diffs] and [err]. *)
Definition integrateBlock (b : Block) (bd : BlockDiff)
  : M (list OutputDiff * option error * BlockDiff) :=
  let bd := {| CatalystBlock := ID b; TransactionDiffs := TransactionDiffs bd;
               BlockChanges := BlockChanges bd |} in
  s <- get ;;
  let st := applyTransactions (Transactions b)
              {| tl_ledger := ledger s; tl_applied := []; tl_diffs := [];
                 tl_diff := bd; tl_subsidy := CurrencyZero; tl_err := None |} in
  modify (set_ledger (tl_ledger st)) ;;;
  match tl_err st with
  | Some e =>
      (* Rewind transactions added. *)
      modify (fun s =>
        set_ledger (invertTransactions (rev (tl_applied st)) (ledger s) []).1 s) ;;;
      ret (tl_diffs st, Some e, tl_diff st)
  | None =>
      s <- get ;;
      let cm := applyContractMaintenance (ledger s) (BlockChanges (tl_diff st)) in
      modify (set_ledger cm.1.1) ;;;
      let diffs := tl_diffs st ++ cm.2 in
      p <- blockMap_at (ID b) ;;
      n <- load p ;;
      let height := Height n in
      modify (set_currentBlockID (ID b)) ;;;
      modify (fun s => set_currentPath (<[height := ID b]> (currentPath s)) s) ;;;
      h <- State_Height ;;
      let minerSubsidy := CurrencyAdd (tl_subsidy st) (CalculateCoinbase h) in
      let minerSubsidyOutput :=
        {| Value := minerSubsidy; SpendHash := MinerAddress b |} in
      modify (fun s =>
        set_ledger (set_unspentOutputs
                      (<[SubsidyID b := minerSubsidyOutput]>
                         (unspentOutputs (ledger s))) (ledger s)) s) ;;;
      let diff := {| New := true; DiffID := SubsidyID b;
                     DiffOutput := minerSubsidyOutput |} in
      let diffs := diffs ++ [diff] in
      ret (diffs, None,
           {| CatalystBlock := CatalystBlock (tl_diff st);
              TransactionDiffs := TransactionDiffs (tl_diff st);
              BlockChanges :=
                {| OutputDiffs := OutputDiffs cm.1.2 ++ diffs;
                   ContractDiffs := ContractDiffs cm.1.2 |} |})
  end.

(** *** invalidateNode *)

Fixpoint forM_ {A} (l : list A) (f : A -> M unit) : M unit :=
  match l with
  | [] => ret tt
  | a :: l' => f a ;;; forM_ l' f
  end.

Fixpoint invalidateNode (fuel : nat) (node : nat) : M unit :=
  match fuel with
  | O => fun _ => OutOfFuel
  | S fuel' =>
      n <- load node ;;
      forM_ (Children n) (invalidateNode fuel') ;;;
      n <- load node ;;
      modify (fun s => set_blockMap (delete (ID (NodeBlock n)) (blockMap s)) s) ;;;
      modify (fun s => set_badBlocks ({[ID (NodeBlock n)]} ∪ badBlocks s) s)
  end.

(** *** forkBlockchain *)

(** The local variables of [forkBlockchain] that live across its loops. *)
Record forkVars : Type := {
  rewoundBlocks : list Block;
  appliedBlocks : list Block;
  outputDiffs : list OutputDiff;
  cc : ConsensusChange;
  validatedBlocks : nat;
}.

(** The walk to the common parent: [currentNode] ascends while it is not on
    the current path. *)
Fixpoint commonParent (fuel : nat) (currentNode : BlockNode)
    (parentHistory : list Z) : M (BlockNode * list Z) :=
  match fuel with
  | O => fun _ => OutOfFuel
  | S fuel' =>
      s <- get ;;
      let value := default 0 (currentPath s !! Height currentNode) in
      if decide (value ≠ ID (NodeBlock currentNode))
      then
        p <- blockMap_at (ParentBlockID (NodeBlock currentNode)) ;;
        parent <- load p ;;
        commonParent fuel' parent (parentHistory ++ [ID (NodeBlock currentNode)])
      else ret (currentNode, parentHistory)
  end.

(** Removal of blocks until the common parent is the current block. *)
Fixpoint rewind (fuel : nat) (parentID : Z) (v : forkVars) : M forkVars :=
  match fuel with
  | O => fun _ => OutOfFuel
  | S fuel' =>
      s <- get ;;
      if decide (currentBlockID s ≠ parentID)
      then
        cb <- CurrentBlock ;;
        p <- currentBlockNode ;;
        n <- load p ;;
        diffs <- invertRecentBlock ;;
        rewind fuel' parentID
          {| rewoundBlocks := rewoundBlocks v ++ [cb];
             appliedBlocks := appliedBlocks v;
             outputDiffs := outputDiffs v ++ diffs;
             cc := {| InvertedBlocks := InvertedBlocks (cc v) ++ [NodeBlockDiff n];
                      AppliedBlocks := AppliedBlocks (cc v) |};
             validatedBlocks := validatedBlocks v |}
      else ret v
  end.

Fixpoint repeatM (n : nat) (m : M (list OutputDiff)) : M unit :=
  match n with
  | O => ret tt
  | S n' => m ;;; repeatM n' m
  end.

(** Integration of the rewound blocks, last rewound first. *)
Fixpoint reintegrate (blocks : list Block) : M unit :=
  match blocks with
  | [] => ret tt
  | b :: rest =>
      r <- integrateBlock b zeroBlockDiff ;;
      match r.1.2 with
      | Some _ =>
          panic "Once-validated blocks are no longer validating - state logic has mistakes."
      | None => reintegrate rest
      end
  end.

Definition State_StateHash : M Z :=
  s <- get ;; ret (StateHash (ledger s) (currentPath s) (currentBlockID s)).

(** The validation loop over [parentHistory], taken from its last element to
    its first; [ids] is the part still to be visited.  The [err] of this loop
    is declared by [diffSet, err := s.integrateBlock(...)] inside the loop
    body: it is not the named result [err] of [forkBlockchain]. *)
Fixpoint validate (fuel : nat) (stateHash : Z) (ids : list Z) (v : forkVars)
  : M forkVars :=
  match ids with
  | [] => ret v
  | id :: rest =>
      p <- blockMap_at id ;;
      n <- load p ;;
      let appliedBlock := NodeBlock n in
      let applied := appliedBlocks v ++ [appliedBlock] in
      r <- integrateBlock appliedBlock zeroBlockDiff ;;
      let diffSet := r.1.1 in
      let bd := r.2 in
      match r.1.2 with
      | Some _ =>
          p <- blockMap_at id ;;
          invalidateNode fuel p ;;;
          repeatM (validatedBlocks v) invertRecentBlock ;;;
          reintegrate (rev (rewoundBlocks v)) ;;;
          (if DEBUG
           then
             h <- State_StateHash ;;
             if decide (stateHash ≠ h)
             then panic "state hash does not match after an unsuccessful fork attempt"
             else ret tt
           else ret tt) ;;;
          ret {| rewoundBlocks := []; appliedBlocks := []; outputDiffs := [];
                 cc := cc v; validatedBlocks := validatedBlocks v |}
      | None =>
          p <- blockMap_at id ;;
          n <- load p ;;
          store p (set_NodeBlockDiff bd n) ;;;
          validate fuel stateHash rest
            {| rewoundBlocks := rewoundBlocks v;
               appliedBlocks := applied;
               outputDiffs := outputDiffs v ++ diffSet;
               cc := {| InvertedBlocks := InvertedBlocks (cc v);
                        AppliedBlocks := AppliedBlocks (cc v) ++ [bd] |};
               validatedBlocks := S (validatedBlocks v) |}
      end
  end.

Definition forkBlockchain (fuel : nat) (newNode : nat)
  : M (list Block * list Block * list OutputDiff * option error) :=
  (* the named result err; no statement of the function assigns it *)
  let err : option error := None in
  node <- load newNode ;;
  cp <- commonParent fuel node [] ;;
  let currentNode := cp.1 in
  let parentHistory := cp.2 in
  stateHash <- (if DEBUG then State_StateHash else ret 0) ;;
  v <- rewind fuel (ID (NodeBlock currentNode))
         {| rewoundBlocks := []; appliedBlocks := []; outputDiffs := [];
            cc := zeroConsensusChange; validatedBlocks := O |} ;;
  v <- validate fuel stateHash (rev parentHistory) v ;;
  modify (fun s => set_transactionPool
                     (cleanTransactionPool (ledger s) (transactionPool s)) s) ;;;
  (if bool_decide (appliedBlocks v ≠ []) then notifySubscribers (cc v) else ret tt) ;;;
  ret (rewoundBlocks v, appliedBlocks v, outputDiffs v, err).

(** *** CurrentPathCheck *)

(** Modelled from the spec: the DEBUG check of [AcceptBlock], which verifies
    that [current_path] is connected by parent links from the tip to
    genesis. *)
Fixpoint pathCheck (n : nat) (i : Z) (currentNode : BlockNode) : M unit :=
  match n with
  | O => ret tt
  | S n' =>
      s <- get ;;
      match currentPath s !! i with
      | None => panic "current path is empty for a height with a known block."
      | Some id =>
          if decide (ID (NodeBlock currentNode) ≠ id)
          then panic "current path does not have correct id!"
          else
            match blockMap s !! ParentBlockID (NodeBlock currentNode) with
            | None => panic "block node has no parent!"
            | Some p => parent <- load p ;; pathCheck n' (i - 1) parent
            end
      end
  end.

Definition CurrentPathCheck : M unit :=
  p <- currentBlockNode ;;
  n <- load p ;;
  h <- State_Height ;;
  pathCheck (Z.to_nat h) h n.

(** *** AcceptBlock *)

Definition AcceptBlock (fuel : nat) (now : Z) (b : Block)
  : M (list Block * list Block * list OutputDiff * option error) :=
  err <- checkDestiny b ;;
  match err with
  | Some e => ret ([], [], [], Some e)
  | None =>
      parentNode <- blockMap_at (ParentBlockID b) ;;
      err <- validateHeader now parentNode b ;;
      match err with
      | Some e => ret ([], [], [], Some e)
      | None =>
          let encodedBlock := Marshal b in
          if decide (Z.of_nat (length encodedBlock) > BlockSizeLimit)
          then ret ([], [], [], Some (errors_New "Block is too large, will not be accepted."))
          else
            newBlockNode <- addBlockToTree parentNode b ;;
            heavier <- heavierFork newBlockNode ;;
            r <- (if heavier : bool then forkBlockchain fuel newBlockNode
                  else ret ([], [], [], None)) ;;
            match r.2 with
            | Some e => ret r
            | None =>
                notifySubscribers zeroConsensusChange ;;;
                (if DEBUG then CurrentPathCheck else ret tt) ;;;
                ret r
            end
      end
  end.

End Engine.

(** ** Specification-side definitions *)

Section Specification.
Context {T : Types} {C : Collaborators}.

(** The block is already recorded under its parent's [missingParents]
    entry. *)
Definition orphan_recorded (s : State) (b : Block) : Prop :=
  exists missingParent,
    missingParents s !! ParentBlockID b = Some missingParent /\
    is_Some (missingParent !! ID b).

(** The state after [b] has been staged under its parent. *)
Definition stage (s : State) (b : Block) : State :=
  set_missingParents
    (<[ParentBlockID b :=
         <[ID b := b]> (default ∅ (missingParents s !! ParentBlockID b))]>
       (missingParents s)) s.

(** The error of the past-timestamp check of [validateHeader]. *)
Definition timestampError : error :=
  errors_New "timestamp invalid for being in the past".

(** The timestamp rule of [validateHeader] read on its own: the header is
    rejected as too early, and the id recorded as bad, exactly when the
    timestamp is below the median [m] of the parent's window. *)
Definition median_rule (now : Z) (s : State) (parent : nat) (b : Block) (m : Z)
  : Prop :=
  validateHeader now parent b s =
    Ok (Some timestampError, set_badBlocks ({[ID b]} ∪ badBlocks s) s)
  <-> Timestamp b < m.

(** [m] is the element of index 5 of the ascending arrangement of [l]. *)
Definition median_of_11 (m : Z) (l : list Z) : Prop :=
  exists sorted,
    sorted ≡ₚ l /\ Sorted Z.le sorted /\ sorted !! 5%nat = Some m.

(** The decision rule of the spec:
    [candidate.depth⁻¹ > current_tip.depth⁻¹ + current_tip.target⁻¹ × 5/100]
    in exact rational arithmetic. *)
Definition heavier (candidate_depth tip_depth tip_target : Z) : Prop :=
  (/ Qc_of_Z tip_depth + / Qc_of_Z tip_target * (Qc_of_Z 5 / Qc_of_Z 100)
   < / Qc_of_Z candidate_depth)%Qc.

(** The anchor of the retargeting window of a child: genesis when the
    child's height is below [TargetWindow], else the block of the current
    path at height [child.height - window]. *)
Definition anchor (s : State) (child : BlockNode) (a : Block) : Prop :=
  let window := Z.min (Height child) TargetWindow in
  if decide (Height child < TargetWindow)
  then exists root, heap s !! blockRoot s = Some root /\ a = NodeBlock root
  else exists id p n,
         currentPath s !! (Height child - window) = Some id /\
         blockMap s !! id = Some p /\ heap s !! p = Some n /\ a = NodeBlock n.

(** The retargeting rule in the words of the spec. *)
Definition clamp_adjustment (adj : Qc) : Qc :=
  if decide (MaxAdjustmentUp < adj)%Qc then MaxAdjustmentUp
  else if decide (adj < MaxAdjustmentDown)%Qc then MaxAdjustmentDown
  else adj.

Definition child_target (parent child : BlockNode) (a : Block) : Z :=
  let window := Z.min (Height child) TargetWindow in
  let expected_passed := BlockFrequency * window in
  let time_passed := Timestamp (NodeBlock child) - Timestamp a in
  let adj := (Qc_of_Z time_passed / Qc_of_Z expected_passed)%Qc in
  RatToTarget (Qc_of_Z (Target parent) * clamp_adjustment adj)%Qc.

(** *** Contracts of the transaction layer *)

(** [InvertTransaction] exactly undoes a prior [ApplyTransaction] of a valid
    transaction, and [InvertContractMaintenance] undoes
    [ApplyContractMaintenance]. *)
Class CollaboratorLaws : Prop := {
  invert_apply : forall l t,
    ValidTransaction l t = None ->
    (invertTransaction (applyTransaction l t).1 t).1 = l;
  invert_apply_maintenance : forall l bc,
    (invertContractMaintenance (applyContractMaintenance l bc).1.1).1 = l;
}.

(** The ledger after the transactions have been applied in order. *)
Fixpoint ledger_after (txns : list Transaction) (l : Ledger) : Ledger :=
  match txns with
  | [] => l
  | t :: rest => ledger_after rest (applyTransaction l t).1
  end.

(** The ledger after the transactions have been inverted in order. *)
Fixpoint ledger_inverted (txns : list Transaction) (l : Ledger) : Ledger :=
  match txns with
  | [] => l
  | t :: rest => ledger_inverted rest (invertTransaction l t).1
  end.

(** Every transaction is valid on the ledger it is applied to. *)
Fixpoint all_valid (txns : list Transaction) (l : Ledger) : Prop :=
  match txns with
  | [] => True
  | t :: rest =>
      ValidTransaction l t = None /\ all_valid rest (applyTransaction l t).1
  end.

(** The diffs returned by [applyTransaction], one per transaction. *)
Fixpoint transaction_diffs (txns : list Transaction) (l : Ledger)
  : list TransactionDiff :=
  match txns with
  | [] => []
  | t :: rest =>
      (applyTransaction l t).2 :: transaction_diffs rest (applyTransaction l t).1
  end.

(** The output diffs of a list of transaction diffs, in order. *)
Definition output_diffs (tds : list TransactionDiff) : list OutputDiff :=
  concat (map OutputDiffs tds).

(** The miner fees of the transactions added to [subsidy]. *)
Definition fees_after (txns : list Transaction) (subsidy : Currency) : Currency :=
  fold_left (fun acc t => fold_left CurrencyAdd (MinerFees t) acc) txns subsidy.

(** The block diff after the transaction loop has applied [txns]. *)
Definition diff_after (b : Block) (bd : BlockDiff) (txns : list Transaction)
    (l : Ledger) : BlockDiff :=
  {| CatalystBlock := ID b;
     TransactionDiffs := TransactionDiffs bd ++ transaction_diffs txns l;
     BlockChanges := BlockChanges bd |}.

(** The miner subsidy output of a block integrated at [height] on [l]. *)
Definition subsidy_output (l : Ledger) (b : Block) (height : Z) : Output :=
  {| Value := CurrencyAdd (fees_after (Transactions b) CurrencyZero)
                          (CalculateCoinbase height);
     SpendHash := MinerAddress b |}.

(** The ledger before the subsidy of the block is added: the transactions
    and the contract maintenance have been applied. *)
Definition maintained_ledger (l : Ledger) (b : Block) (bc : TransactionDiff)
  : Ledger :=
  (applyContractMaintenance (ledger_after (Transactions b) l) bc).1.1.

(** The ledger after a successful integration of [b] at [height]. *)
Definition integrate_ledger (l : Ledger) (b : Block) (bc : TransactionDiff)
    (height : Z) : Ledger :=
  let l' := maintained_ledger l b bc in
  set_unspentOutputs
    (<[SubsidyID b := subsidy_output l b height]> (unspentOutputs l')) l'.

(** The state after a successful integration of [b], whose node has
    [height]. *)
Definition integrated (s : State) (b : Block) (bc : TransactionDiff)
    (height : Z) : State :=
  set_ledger (integrate_ledger (ledger s) b bc height)
    (set_currentPath (<[height := ID b]> (currentPath s))
       (set_currentBlockID (ID b) s)).

(** The output diffs a successful integration returns. *)
Definition integrate_diffs (l : Ledger) (b : Block) (bc : TransactionDiff)
    (height : Z) : list OutputDiff :=
  output_diffs (transaction_diffs (Transactions b) l) ++
  (applyContractMaintenance (ledger_after (Transactions b) l) bc).2 ++
  [ {| New := true; DiffID := SubsidyID b;
       DiffOutput := subsidy_output l b height |} ].

(** The block diff a successful integration leaves behind the pointer. *)
Definition integrate_diff (l : Ledger) (b : Block) (bd : BlockDiff)
    (height : Z) : BlockDiff :=
  let cm := applyContractMaintenance (ledger_after (Transactions b) l)
              (BlockChanges bd) in
  {| CatalystBlock := ID b;
     TransactionDiffs := TransactionDiffs bd ++ transaction_diffs (Transactions b) l;
     BlockChanges :=
       {| OutputDiffs := OutputDiffs cm.1.2 ++
                         integrate_diffs l b (BlockChanges bd) height;
          ContractDiffs := ContractDiffs cm.1.2 |} |}.

(** *** Frames *)

(** A computation leaves the component [f] of the state as it found it. *)
Definition preserves {A B} (f : State -> A) (m : M B) : Prop :=
  forall s b s', m s = Ok (b, s') -> f s' = f s.

(** *** Acceptance *)

(** The block passes the destiny check, the header check and the size
    check of [AcceptBlock]. *)
Definition passes_checks (now : Z) (b : Block) (s : State) : Prop :=
  exists s1 parent s2,
    checkDestiny b s = Ok (None, s1) /\
    blockMap s1 !! ParentBlockID b = Some parent /\
    validateHeader now parent b s1 = Ok (None, s2) /\
    ~ Z.of_nat (length (Marshal b)) > BlockSizeLimit.

(** *** The consensus view *)

(** The consensus state [StateHash] witnesses: the unspent outputs and the
    contract state, the current path and the current block id. *)
Definition consensus_view (s : State) : Ledger * gmap Z Z * Z :=
  (ledger s, currentPath s, currentBlockID s).

(** *** The block tree and the canonical chain *)

(** The block [b] has a node of height [h] in the tree. *)
Definition has_block (s : State) (b : Block) (h : Z) : Prop :=
  exists p n,
    blockMap s !! ID b = Some p /\ heap s !! p = Some n /\
    NodeBlock n = b /\ Height n = h.

(** The blocks have nodes at the heights [h+1], [h+2], ... *)
Fixpoint in_tree (s : State) (h : Z) (blocks : list Block) : Prop :=
  match blocks with
  | [] => True
  | b :: rest => has_block s b (h + 1) /\ in_tree s (h + 1) rest
  end.

(** Each block names its predecessor as parent; the first names [parent]. *)
Fixpoint linked (parent : Z) (blocks : list Block) : Prop :=
  match blocks with
  | [] => True
  | b :: rest => ParentBlockID b = parent /\ linked (ID b) rest
  end.

(** None of the blocks, at the heights [h+1], [h+2], ..., is the block of the
    current path at its height. *)
Fixpoint off_path (s : State) (h : Z) (blocks : list Block) : Prop :=
  match blocks with
  | [] => True
  | b :: rest =>
      default 0 (currentPath s !! (h + 1)) <> ID b /\ off_path s (h + 1) rest
  end.

(** The state [s] with the consensus view [v]. *)
Definition with_view (v : Ledger * gmap Z Z * Z) (s : State) : State :=
  set_ledger v.1.1 (set_currentPath v.1.2 (set_currentBlockID v.2 s)).

(** The consensus view after the integration of [b] at height [h]. *)
Definition view_integrate (v : Ledger * gmap Z Z * Z) (b : Block) (h : Z)
  : Ledger * gmap Z Z * Z :=
  (integrate_ledger v.1.1 b zeroTransactionDiff h, <[h := ID b]> v.1.2, ID b).

(** The block integrates on the view: it extends the current block, its
    transactions are valid in order, its height is free in the current path
    and the id of its subsidy output is not in use. *)
Definition integrable (v : Ledger * gmap Z Z * Z) (b : Block) (h : Z) : Prop :=
  ParentBlockID b = v.2 /\
  all_valid (Transactions b) v.1.1 /\
  unspentOutputs (maintained_ledger v.1.1 b zeroTransactionDiff) !! SubsidyID b = None /\
  v.1.2 !! h = None.

(** The view after the blocks have been integrated in order at the heights
    [h+1], [h+2], ... *)
Fixpoint view_after (v : Ledger * gmap Z Z * Z) (h : Z) (blocks : list Block)
  : Ledger * gmap Z Z * Z :=
  match blocks with
  | [] => v
  | b :: rest => view_after (view_integrate v b (h + 1)) (h + 1) rest
  end.

Fixpoint integrable_chain (v : Ledger * gmap Z Z * Z) (h : Z)
    (blocks : list Block) : Prop :=
  match blocks with
  | [] => True
  | b :: rest =>
      integrable v b (h + 1) /\
      integrable_chain (view_integrate v b (h + 1)) (h + 1) rest
  end.

(** No two nodes of the heap hold blocks of the same id. *)
Definition unique_ids (hp : list BlockNode) : Prop :=
  NoDup ((fun n => ID (NodeBlock n)) <$> hp).

(** Every child of a node is a node one higher whose block names the block
    of the node as its parent. *)
Definition child_links (hp : list BlockNode) : Prop :=
  forall p n q,
    hp !! p = Some n -> q ∈ Children n ->
    exists c, hp !! q = Some c /\
              ParentBlockID (NodeBlock c) = ID (NodeBlock n) /\
              Height c = Height n + 1.

(** The nodes of the subtree of [p]. *)
Inductive reach (hp : list BlockNode) (p : nat) : nat -> Prop :=
  | reach_refl : reach hp p p
  | reach_child q n c :
      reach hp p q -> hp !! q = Some n -> c ∈ Children n -> reach hp p c.

(** The ids of the blocks in the subtree of [p]. *)
Definition in_subtree (hp : list BlockNode) (p : nat) (id : Z) : Prop :=
  exists q d, reach hp p q /\ hp !! q = Some d /\ ID (NodeBlock d) = id.

(** What is kept of a node when its cached block diff is replaced. *)
Definition shape (n : BlockNode) : Block * list nat * Z :=
  (NodeBlock n, Children n, Height n).

(** The situation of an unsuccessful fork attempt.  The block [a] of height
    [ha] is the common parent.  The current path continues above it with
    the blocks [rs], and the consensus view of the state is the result of
    integrating them in order on the view [v0] at the common parent.  The
    new branch continues above [a] with [good ++ bad :: tail] and ends in
    the node [newNode]; on [v0] the blocks [good] integrate in order, and
    then a transaction of [bad] is not valid. *)
Record failing_fork (s : State) (newNode : nat) (v0 : Ledger * gmap Z Z * Z)
    (a : Block) (ha : Z) (rs good : list Block) (bad : Block)
    (tail : list Block) : Prop := {
  ff_unique : unique_ids (heap s);
  ff_links : child_links (heap s);
  ff_parent : has_block s a ha;
  ff_parent_path : currentPath s !! ha = Some (ID a);
  ff_parent_view : v0.2 = ID a;
  ff_current_tree : in_tree s ha rs;
  ff_current_view : consensus_view s = view_after v0 ha rs;
  ff_current_chain : integrable_chain v0 ha rs;
  ff_branch_tree : in_tree s ha (good ++ bad :: tail);
  ff_branch_linked : linked (ID a) (good ++ bad :: tail);
  ff_branch_off_path : off_path s ha (good ++ bad :: tail);
  ff_branch_tip :
    blockMap s !! ID (List.last (bad :: tail) bad) = Some newNode;
  ff_good_chain : integrable_chain v0 ha good;
  ff_bad : ~ all_valid (Transactions bad) (view_after v0 ha good).1.1;
}.

(** The node of each block of the chain but the first is a child of the
    node of its predecessor, as [addBlockToTree] leaves them. *)
Fixpoint children_chain (s : State) (blocks : list Block) : Prop :=
  match blocks with
  | [] => True
  | b :: rest =>
      match rest with
      | [] => True
      | c :: _ =>
          (exists p n q,
             blockMap s !! ID b = Some p /\ heap s !! p = Some n /\
             blockMap s !! ID c = Some q /\ q ∈ Children n) /\
          children_chain s rest
      end
  end.

(** The id of the last block of a chain that starts above [parent]. *)
Fixpoint last_id (parent : Z) (blocks : list Block) : Z :=
  match blocks with
  | [] => parent
  | b :: rest => last_id (ID b) rest
  end.

(** The map [M] is [M0] with ids of the subtree of [p] deleted. *)
Definition deletes (hp : list BlockNode) (p : nat) (M0 M : gmap Z nat) : Prop :=
  forall id, M !! id = M0 !! id \/ (M !! id = None /\ in_subtree hp p id).

(** The check of [child_links] on a heap. *)
Definition child_links_b (hp : list BlockNode) : bool :=
  forallb
    (fun n =>
       forallb
         (fun q =>
            match hp !! q with
            | Some c =>
                (ParentBlockID (NodeBlock c) =? ID (NodeBlock n)) &&
                (Height c =? Height n + 1)
            | None => false
            end)
         (Children n))
    hp.

(** *** Fuel *)

(** More fuel does not change the result of a computation that returns. *)
Definition fuel_mono {A} (m : nat -> M A) : Prop :=
  forall f f' s r, (f <= f')%nat -> m f s = Ok r -> m f' s = Ok r.

(** *** The tree after addBlockToTree *)

(** The node [addBlockToTree] builds for the block [b] below the node [pn],
    with the given target and depth. *)
Definition child_node (pn : BlockNode) (b : Block) (target depth : Z)
  : BlockNode :=
  {| NodeBlock := b; Children := [];
     Height := uint64 (Height pn + 1);
     Depth := depth; Target := target;
     RecentTimestamps :=
       <[10%nat := Timestamp b]>
         (copy (replicate 11 0) (drop 1 (RecentTimestamps pn)));
     NodeBlockDiff := zeroBlockDiff |}.

(** The state with the node [node] of the block [b] added at the first free
    address, registered under the id of [b] and as last child of the node
    [pn] at [parent]. *)
Definition tree_with (s : State) (parent : nat) (pn : BlockNode) (b : Block)
    (node : BlockNode) : State :=
  set_heap
    (<[parent := set_Children (Children pn ++ [length (heap s)]) pn]>
       (heap s ++ [node]))
    (set_blockMap (<[ID b := length (heap s)]> (blockMap s)) s).


(** *** What invalidateNode writes *)

(** The state [X'] is [X] with other bad blocks and another block map. *)
Definition same_but_blocks (X X' : State) : Prop :=
  X' = set_badBlocks (badBlocks X') (set_blockMap (blockMap X') X).

(** Between [X] and [X'] the ids that satisfy [P] have been recorded as bad
    and deleted from the block map, and nothing else was written. *)
Definition invalidated (P : Z -> Prop) (X X' : State) : Prop :=
  same_but_blocks X X' /\
  (forall id, id ∈ badBlocks X' <-> id ∈ badBlocks X \/ P id) /\
  (forall id, P id -> blockMap X' !! id = None) /\
  (forall id, ~ P id -> blockMap X' !! id = blockMap X !! id).


(** *** What a rejected block leaves alone *)

(** The block tree, the consensus state, the transaction pool and the
    subscribers' log. *)
Definition core (s : State)
  : list BlockNode * gmap Z nat * (Ledger * gmap Z Z * Z) * Pool *
    list ConsensusChange :=
  (heap s, blockMap s, consensus_view s, transactionPool s, notifications s).


(** *** What a reorganisation does to the block tree *)

(** The computation writes the consensus view only. *)
Definition view_only {A} (m : M A) : Prop :=
  forall s a s', m s = Ok (a, s') -> s' = with_view (consensus_view s') s.

(** From [s] to [s'] the nodes kept their blocks, children and heights, bad
    blocks were only added, and an id left the block map only by being
    recorded as bad; the orphan pool, the scheduled re-submissions and the
    root are the same. *)
Definition pruned (s s' : State) : Prop :=
  shape <$> heap s' = shape <$> heap s /\
  badBlocks s ⊆ badBlocks s' /\
  (forall id, blockMap s' !! id = blockMap s !! id \/
              blockMap s' !! id = None /\ id ∈ badBlocks s') /\
  missingParents s' = missingParents s /\
  futureBlocks s' = futureBlocks s /\
  blockRoot s' = blockRoot s.

(** The destiny of an id is known: it is recorded as bad, or it is in the
    block map. *)
Definition settled (s : State) (id : Z) : Prop :=
  id ∈ badBlocks s \/ is_Some (blockMap s !! id).


(** *** The well-formed block tree *)

(** The block map leads to nodes that hold the block of that id. *)
Definition coherent (s : State) : Prop :=
  forall id p,
    blockMap s !! id = Some p ->
    exists n, heap s !! p = Some n /\ ID (NodeBlock n) = id.

(** Every node is accounted for: the block map leads to it under the id of
    its block, or that id is recorded as bad. *)
Definition accounted (s : State) : Prop :=
  forall p n,
    heap s !! p = Some n ->
    blockMap s !! ID (NodeBlock n) = Some p \/ ID (NodeBlock n) ∈ badBlocks s.

(** The block tree is well formed. *)
Definition well_formed (s : State) : Prop :=
  coherent s /\ accounted s /\ unique_ids (heap s) /\ child_links (heap s).


(** *** A successful reorganisation *)

(** The output diffs of the integration of the blocks, in order, at the
    heights [h+1], [h+2], ... on the view [v]. *)
Fixpoint chain_diffs (v : Ledger * gmap Z Z * Z) (h : Z) (blocks : list Block)
  : list OutputDiff :=
  match blocks with
  | [] => []
  | b :: rest =>
      integrate_diffs v.1.1 b zeroTransactionDiff (h + 1) ++
      chain_diffs (view_integrate v b (h + 1)) (h + 1) rest
  end.

(** The block diffs of these integrations, one per block. *)
Fixpoint chain_block_diffs (v : Ledger * gmap Z Z * Z) (h : Z)
    (blocks : list Block) : list BlockDiff :=
  match blocks with
  | [] => []
  | b :: rest =>
      integrate_diff v.1.1 b zeroBlockDiff (h + 1) ::
      chain_block_diffs (view_integrate v b (h + 1)) (h + 1) rest
  end.

(** The block diff cached on the node of a block. *)
Definition cached (s : State) (b : Block) : BlockDiff :=
  match blockMap s !! ID b with
  | Some p =>
      match heap s !! p with
      | Some n => NodeBlockDiff n
      | None => zeroBlockDiff
      end
  | None => zeroBlockDiff
  end.

(** The situation of a successful fork attempt.  The block [a] of height
    [ha] is the common parent.  The current path continues above it with
    the blocks [rs], and the consensus view of the state is the result of
    integrating them in order on the view [v0] at the common parent.  The
    new branch continues above [a] with the blocks [branch], off the current
    path, and ends in the node [newNode]; on [v0] its blocks integrate in
    order. *)
Record winning_fork (s : State) (newNode : nat) (v0 : Ledger * gmap Z Z * Z)
    (a : Block) (ha : Z) (rs branch : list Block) : Prop := {
  win_parent : has_block s a ha;
  win_parent_path : currentPath s !! ha = Some (ID a);
  win_parent_view : v0.2 = ID a;
  win_current_tree : in_tree s ha rs;
  win_current_view : consensus_view s = view_after v0 ha rs;
  win_current_chain : integrable_chain v0 ha rs;
  win_branch : branch <> [];
  win_branch_tree : in_tree s ha branch;
  win_branch_off_path : off_path s ha branch;
  win_branch_tip : blockMap s !! ID (List.last branch a) = Some newNode;
  win_branch_chain : integrable_chain v0 ha branch;
}.


(** *** The orphan pool *)

(** The block [b0] is staged under the parent id [parent] and the id
    [id]. *)
Definition staged (s : State) (parent id : Z) (b0 : Block) : Prop :=
  exists mp, missingParents s !! parent = Some mp /\ mp !! id = Some b0.

(** The error of the merkle root check of [validateHeader]. *)
Definition merkleError : error :=
  errors_New "merkle root does not match transactions sent.".

(** The error of [checkDestiny] for an id recorded as bad. *)
Definition invalidError : error :=
  errors_New "block is known to be invalid".


(** *** A block on its way through AcceptBlock *)

(** The block [b] passes the destiny, header and size checks of
    [AcceptBlock] at the time [now]; its parent is the node [pn] at
    [parent], and [childTarget] and [childDepth] compute [target] and a
    positive [depth] for its node. *)
Record acceptable (now : Z) (s : State) (b : Block) (parent : nat)
    (pn : BlockNode) (target depth : Z) : Prop := {
  ok_not_bad : ID b ∉ badBlocks s;
  ok_new : blockMap s !! ID b = None;
  ok_parent : blockMap s !! ParentBlockID b = Some parent;
  ok_parent_node : heap s !! parent = Some pn;
  ok_header : validateHeader now parent b s = Ok (None, s);
  ok_size : ~ Z.of_nat (length (Marshal b)) > BlockSizeLimit;
  ok_target : childTarget pn (child_node pn b 0 0) s = Ok (target, s);
  ok_depth : childDepth pn s = Ok (depth, s);
  ok_depth_pos : 0 < depth;
}.

(** The current block is the block of the node [tip] at [tipPtr], of
    positive target and depth, and the state passes the sanity check that
    [AcceptBlock] runs under DEBUG. *)
Record at_tip (s : State) (tipPtr : nat) (tip : BlockNode) : Prop := {
  tip_map : blockMap s !! currentBlockID s = Some tipPtr;
  tip_node : heap s !! tipPtr = Some tip;
  tip_target : 0 < Target tip;
  tip_depth : 0 < Depth tip;
  tip_sane : (if DEBUG then CurrentPathCheck else ret tt) s = Ok (tt, s);
}.


(** Every node the block map leads to is one higher than the node the
    block map leads to under the id of its parent. *)
Definition parent_links (s : State) : Prop :=
  forall p n q m,
    blockMap s !! ID (NodeBlock n) = Some p -> heap s !! p = Some n ->
    blockMap s !! ParentBlockID (NodeBlock n) = Some q -> heap s !! q = Some m ->
    Height n = Height m + 1.

(** The state in which [AcceptBlock] decides on a reorganisation: the node
    of the block [b], with the target and the depth computed for it, has
    been added below the node [pn] at [parent]. *)
Definition grown (s : State) (parent : nat) (pn : BlockNode) (b : Block)
    (target depth : Z) : State :=
  tree_with s parent pn b (child_node pn b target depth).

(** The checks of [coherent] and of [parent_links] on a state. *)
Definition coherent_b (s : State) : bool :=
  bool_decide
    (map_Forall
       (fun id p => (fun n => ID (NodeBlock n)) <$> heap s !! p = Some id)
       (blockMap s)).

Definition parent_links_b (s : State) : bool :=
  forallb
    (fun n =>
       match blockMap s !! ParentBlockID (NodeBlock n) with
       | Some q =>
           match heap s !! q with
           | Some m => Height n =? Height m + 1
           | None => true
           end
       | None => true
       end)
    (heap s).

End Specification.

(** ** A concrete instance

    A small transaction layer on which the engine can be run: a transaction
    [t >= 0] creates the output of id [t] and is valid when that id is
    unspent-free; a negative transaction is never valid.  Block ids are
    nonces, and the constants are those of the Sia network. *)
Module Demo.

Definition types : Types :=
  {| Transaction := Z; Currency := Z; ContractState := unit;
     ContractDiff := unit; Pool := unit |}.
#[local] Existing Instance types.

Definition coin (v : Z) : Output := {| Value := v; SpendHash := 0 |}.

Definition valid (l : Ledger) (t : Z) : option error :=
  if decide (t < 0) then Some (errors_New "transaction is invalid")
  else if decide (is_Some (unspentOutputs l !! t))
       then Some (errors_New "output already exists")
       else None.

Definition apply (l : Ledger) (t : Z) : Ledger * TransactionDiff :=
  (set_unspentOutputs (<[t := coin t]> (unspentOutputs l)) l,
   {| OutputDiffs := [ {| New := true; DiffID := t; DiffOutput := coin t |} ];
      ContractDiffs := [] |}).

Definition invert (l : Ledger) (t : Z) : Ledger * list OutputDiff :=
  (set_unspentOutputs (delete t (unspentOutputs l)) l,
   [ {| New := false; DiffID := t; DiffOutput := coin t |} ]).

Definition ratToTarget (q : Qc) : Z :=
  let i := Qnum (this q) `div` Zpos (Qden (this q)) in
  if decide (2 ^ 256 <= i) then 2 ^ 256 - 1
  else if decide (i < 1) then 1 else i.

Definition digest (l : Ledger) (path : gmap Z Z) (tip : Z) : Z :=
  tip + 1000 * (map_fold (fun k _ acc => k + acc) 0 (unspentOutputs l))
      + 1000000 * (map_fold (fun k v acc => k * v + acc) 0 path).

Definition collaborators : Collaborators :=
  {| DEBUG := true;
     FutureThreshold := 3 * 60 * 60;
     TargetWindow := 5000;
     BlockFrequency := 600;
     MaxAdjustmentUp := (Qc_of_Z 1001 / Qc_of_Z 1000)%Qc;
     MaxAdjustmentDown := (Qc_of_Z 999 / Qc_of_Z 1000)%Qc;
     BlockSizeLimit := 1000000;
     ID := fun b => Nonce b;
     SubsidyID := fun b => - 1 - Nonce b;
     CheckTarget := fun b t => bool_decide (Nonce b <= t);
     TransactionMerkleRoot := fun b => Z.of_nat (length (Transactions b));
     Marshal := fun b => replicate (length (Transactions b)) Byte.x00;
     RatToTarget := ratToTarget;
     MinerFees := fun t => [1];
     CurrencyZero := 0;
     CurrencyAdd := Z.add;
     CalculateCoinbase := fun h => 300000 - h;
     ValidTransaction := valid;
     applyTransaction := apply;
     invertTransaction := invert;
     applyContractMaintenance := fun l bc => (l, bc, []);
     invertContractMaintenance := fun l => (l, []);
     cleanTransactionPool := fun _ p => p;
     StateHash := digest |}.
#[local] Existing Instance collaborators.

Definition mkBlock (parent nonce time : Z) (txns : list Z) : Block :=
  {| ParentBlockID := parent; Timestamp := time; Nonce := nonce;
     MinerAddress := 0; MerkleRoot := Z.of_nat (length txns);
     Transactions := txns |}.

Definition genesis : Block := mkBlock 0 1 1000 [].

Definition genesisNode : BlockNode :=
  {| NodeBlock := genesis; Children := []; Height := 0; Depth := 1000;
     Target := 1000; RecentTimestamps := replicate 11 1000;
     NodeBlockDiff := zeroBlockDiff |}.

(** The state holding only the genesis block. *)
Definition s0 : State :=
  {| blockRoot := 0; heap := [genesisNode]; badBlocks := ∅;
     blockMap := {[ 1 := 0%nat ]}; missingParents := ∅;
     currentBlockID := 1; currentPath := {[ 0 := 1 ]};
     ledger := {| unspentOutputs := ∅; openContracts := tt |};
     transactionPool := tt; notifications := []; futureBlocks := [] |}.

(** A block above the target of genesis whose timestamp is before the
    median of the window. *)
Definition lateWork : Block := mkBlock 1 2000 900 [].

(** A block on genesis with one valid transaction, and one whose second
    transaction is not valid. *)
Definition validBlock : Block := mkBlock 1 2 1600 [5].
Definition invalidBlock : Block := mkBlock 1 3 1600 [5; -7].

(** The state after [b] has been added to the tree below genesis. *)
Definition added (b : Block) (s : State) : State :=
  match addBlockToTree 0 b s with
  | Ok (_, s') => s'
  | _ => s
  end.

Definition nodeAt (s : State) (p : nat) : BlockNode :=
  default genesisNode (heap s !! p).

(** A competing branch on genesis: [sideBlock], and on it [sideInvalid],
    whose second transaction is not valid. *)
Definition sideBlock : Block := mkBlock 1 10 1650 [6].
Definition sideInvalid : Block := mkBlock 10 11 2250 [7; -1].

(** The state reached by a computation, the state itself when it panics. *)
Definition after {A} (m : M A) (s : State) : State :=
  match m s with
  | Ok (_, s') => s'
  | _ => s
  end.

(** [validBlock] has been accepted and is the current block, [sideBlock]
    has been accepted beside it, and [sideInvalid] has been added to the
    tree. *)
Definition forked : State :=
  Eval vm_compute in
    after (addBlockToTree 2 sideInvalid)
      (after (AcceptBlock 10 2300 sideBlock)
         (after (AcceptBlock 10 2000 validBlock) s0)).

(** A block on [sideInvalid], and the state [forked] with this block added
    to the tree: the failing block has a child. *)
Definition sideTail : Block := mkBlock 11 13 2300 [8].

Definition branched : State :=
  Eval vm_compute in after (addBlockToTree 3 sideTail) forked.

(** The consensus view at genesis. *)
Definition genesisView : Ledger * gmap Z Z * Z :=
  ({| unspentOutputs := ∅; openContracts := tt |}, {[ 0 := 1 ]}, 1).


(** Two blocks whose parent, of id 7, is not known. *)
Definition orphan : Block := mkBlock 7 8 1600 [].
Definition orphan2 : Block := mkBlock 7 9 1700 [].

(** The state in which [orphan] has been staged. *)
Definition waiting : State :=
  Eval vm_compute in after (handleOrphanBlock orphan) s0.

(** A block on genesis that meets the target and is older than the window
    of genesis, and one that lies a day ahead of the clock at 2000. *)
Definition earlyBlock : Block := mkBlock 1 2 900 [].
Definition futureBlock : Block := mkBlock 1 2 90000 [].

(** A valid continuation of [sideBlock]. *)
Definition sideValid : Block := mkBlock 10 12 2250 [7].

(** [validBlock] has been accepted and is the current block, [sideBlock]
    has been accepted beside it, and [sideValid] has been added to the
    tree on [sideBlock]. *)
Definition contested : State :=
  Eval vm_compute in
    after (addBlockToTree 2 sideValid)
      (after (AcceptBlock 10 2300 sideBlock)
         (after (AcceptBlock 10 2000 validBlock) s0)).


(** [validBlock] has been accepted and is the current block, and
    [sideBlock] has been accepted beside it. *)
Definition sided : State :=
  Eval vm_compute in
    after (AcceptBlock 10 2300 sideBlock)
      (after (AcceptBlock 10 2000 validBlock) s0).

(** The parent the block [orphan] is waiting for. *)
Definition awaited : Block := mkBlock 1 7 1600 [].


(** The state in which [validBlock] has been accepted and is the current
    block. *)
Definition advanced : State :=
  Eval vm_compute in after (AcceptBlock 10 2000 validBlock) s0.


End Demo.

(** ** Proofs *)

Ltac unfold_M :=
  cbv [bind ret get gets modify panic deref index load store blockMap_at].

Section Proofs.
Context {T : Types} {C : Collaborators}.

(** *** Reasoning in the monad *)

Lemma bind_Ok {A B} (m : M A) (k : A -> M B) (s s' : State) (a : A) :
  m s = Ok (a, s') -> bind m k s = k a s'.
Proof. unfold bind. by intros ->. Qed.

Lemma bind_Ok_inv {A B} (m : M A) (k : A -> M B) (s s'' : State) (b : B) :
  bind m k s = Ok (b, s'') ->
  exists a s', m s = Ok (a, s') /\ k a s' = Ok (b, s'').
Proof.
  unfold bind. destruct (m s) as [[a s']| |]; [| done | done]. by exists a, s'.
Qed.

Lemma preserves_ret {A B} (f : State -> A) (b : B) : preserves f (ret b).
Proof. intros s b' s' H. by injection H as <- <-. Qed.

Lemma preserves_panic {A B} (f : State -> A) (msg : string) :
  preserves f (@panic T B msg).
Proof. by intros s b s' H. Qed.

Lemma preserves_fuel {A B} (f : State -> A) :
  preserves f (fun _ : State => @OutOfFuel (B * State)).
Proof. by intros s b s' H. Qed.

Lemma preserves_get {A} (f : State -> A) : preserves f get.
Proof. intros s b s' H. by injection H as <- <-. Qed.

Lemma preserves_deref {A B} (f : State -> A) (o : option B) :
  preserves f (deref o).
Proof. destruct o; [apply preserves_ret | apply preserves_panic]. Qed.

Lemma preserves_index {A B} (f : State -> A) (o : option B) :
  preserves f (index o).
Proof. destruct o; [apply preserves_ret | apply preserves_panic]. Qed.

Lemma preserves_modify {A} (f : State -> A) (g : State -> State) :
  (forall s, f (g s) = f s) -> preserves f (modify g).
Proof. intros Hg s b s' H. injection H as _ <-. apply Hg. Qed.

Lemma preserves_bind {A B D} (f : State -> A) (m : M B) (k : B -> M D) :
  preserves f m -> (forall b, preserves f (k b)) -> preserves f (bind m k).
Proof.
  intros Hm Hk s d s'' H. apply bind_Ok_inv in H as (b & s' & H1 & H2).
  rewrite (Hk b _ _ _ H2). by apply (Hm _ _ _ H1).
Qed.

Lemma preserves_load {A} (f : State -> A) (p : nat) : preserves f (load p).
Proof.
  apply preserves_bind; [apply preserves_get | intros; apply preserves_deref].
Qed.

Lemma preserves_blockMap_at {A} (f : State -> A) (id : Z) :
  preserves f (blockMap_at id).
Proof.
  apply preserves_bind; [apply preserves_get | intros; apply preserves_deref].
Qed.

Lemma preserves_forM_ {A B} (f : State -> A) (l : list B) (k : B -> M unit) :
  (forall b, preserves f (k b)) -> preserves f (forM_ l k).
Proof.
  intros Hk. induction l as [|b l IH]; simpl.
  - apply preserves_ret.
  - apply preserves_bind; [apply Hk | intros; apply IH].
Qed.

Lemma preserves_repeatM {A} (f : State -> A) (n : nat) (m : M (list OutputDiff)) :
  preserves f m -> preserves f (repeatM n m).
Proof.
  intros Hm. induction n as [|n IH]; simpl.
  - apply preserves_ret.
  - apply preserves_bind; [apply Hm | intros; apply IH].
Qed.

(** *** The orphan pool *)

(** C7. For every block whose parent id is absent from [blockMap],
    [handleOrphanBlock] returns [KnownOrphanErr] and leaves the state alone
    when the block is already recorded under its parent's [missingParents]
    entry; otherwise it records the block there (creating the entry when
    there is none) and returns [UnknownOrphanErr].  The result is never the
    nil error and never any other error. *)
Theorem handleOrphanBlock_orphan (s : State) (b : Block) :
  blockMap s !! ParentBlockID b = None ->
  exists e s',
    handleOrphanBlock b s = Ok (Some e, s') /\
    (e = KnownOrphanErr \/ e = UnknownOrphanErr) /\
    (orphan_recorded s b -> e = KnownOrphanErr /\ s' = s) /\
    (~ orphan_recorded s b ->
       e = UnknownOrphanErr /\ s' = stage s b /\ orphan_recorded s' b).
Proof.
  intros Hparent. unfold handleOrphanBlock, orphan_recorded, stage. unfold_M.
  rewrite Hparent.
  replace (DEBUG && bool_decide (is_Some (@None nat))) with false
    by (rewrite bool_decide_eq_false_2; [by rewrite andb_false_r | by inversion 1]).
  destruct (missingParents s !! ParentBlockID b) as [mp|] eqn:Hmp; simpl.
  - destruct (mp !! ID b) as [b'|] eqn:Hb.
    + exists KnownOrphanErr, s.
      split; [done | split; [by left | split; [done |]]].
      intros Hn. exfalso. apply Hn. exists mp. split; [done | by exists b'].
    + eexists UnknownOrphanErr, _.
      split; [done | split; [by right | split]].
      * intros (mp' & Heq & [x Hx]). congruence.
      * intros _. split; [done | split; [done |]].
        simpl. eexists. rewrite lookup_insert_eq. split; [done |].
        rewrite lookup_insert_eq. by eexists.
  - eexists UnknownOrphanErr, _.
    split; [done | split; [by right | split]].
    + intros (mp' & Heq & _). congruence.
    + intros _. split; [done | split; [done |]].
      simpl. eexists. rewrite lookup_insert_eq. split; [done |].
      rewrite lookup_insert_eq. by eexists.
Qed.

(** *** The median-past timestamp rule *)

Lemma sort_Ints_sorted (l : list Z) : Sorted Z.le (sort_Ints l).
Proof. apply (Sorted_merge_sort Z.le). Qed.

Lemma sort_Ints_perm (l : list Z) : sort_Ints l ≡ₚ l.
Proof. apply merge_sort_Permutation. Qed.

Lemma earliestChildTimestamp_median (bn : BlockNode) :
  length (RecentTimestamps bn) = 11%nat ->
  exists m,
    earliestChildTimestamp bn = Some m /\ median_of_11 m (RecentTimestamps bn).
Proof.
  intros Hlen. unfold earliestChildTimestamp.
  change (Z.to_nat (MedianTimestampWindow `quot` 2)) with 5%nat.
  destruct (sort_Ints (RecentTimestamps bn) !! 5%nat) as [m|] eqn:Hm.
  - exists m. split; [done |]. exists (sort_Ints (RecentTimestamps bn)).
    auto using sort_Ints_perm, sort_Ints_sorted.
  - apply lookup_ge_None in Hm.
    rewrite (Permutation_length (sort_Ints_perm _)), Hlen in Hm. lia.
Qed.

(** C6 (amended). The earliest child timestamp of a node is the median of
    its 11 recent timestamps: the element of index 5 of their ascending
    arrangement.  For a block that meets the parent's target,
    [validateHeader] fails with the timestamp error, after inserting the
    block's id into [badBlocks], exactly when the block's timestamp is
    strictly below that median and the skew does not exceed
    [FutureThreshold].  The skew is the one the code computes: the
    difference of the timestamp and the clock reduced to a signed 64-bit
    integer.  So among the blocks whose skew is within the threshold the
    rule is the median rule, and a block whose skew exceeds the threshold,
    be it ahead of the clock or so far behind it that the difference
    wraps, is answered with [FutureBlockErr] and its id is not recorded as
    bad.  When the difference fits in 64 bits the skew is the difference
    itself. *)
Theorem validateHeader_median_rule (now : Z) (s : State) (parent : nat)
    (pn : BlockNode) (b : Block) :
  heap s !! parent = Some pn ->
  length (RecentTimestamps pn) = 11%nat ->
  CheckTarget b (Target pn) = true ->
  exists m,
    earliestChildTimestamp pn = Some m /\
    median_of_11 m (RecentTimestamps pn) /\
    (validateHeader now parent b s =
       Ok (Some timestampError, set_badBlocks ({[ID b]} ∪ badBlocks s) s)
     <-> Timestamp b < m /\ int64 (Timestamp b - now) <= FutureThreshold) /\
    (int64 (Timestamp b - now) <= FutureThreshold ->
     median_rule now s parent b m) /\
    (int64 (Timestamp b - now) > FutureThreshold ->
     exists s', validateHeader now parent b s = Ok (Some FutureBlockErr, s') /\
                badBlocks s' = badBlocks s /\
                length (futureBlocks s') = S (length (futureBlocks s))) /\
    (in_int64 (Timestamp b - now) ->
     int64 (Timestamp b - now) = Timestamp b - now).
Proof.
  intros Hp Hlen Htarget.
  destruct (earliestChildTimestamp_median pn Hlen) as (m & Hm & Hmed).
  exists m. split; [done | split; [done |]].
  assert (Hlate : int64 (Timestamp b - now) <= FutureThreshold ->
                  median_rule now s parent b m).
  { intros Hskew. unfold median_rule, validateHeader. unfold_M.
    rewrite Hp, Htarget. simpl.
    rewrite decide_False by lia. rewrite Hm. simpl.
    destruct (decide (m > Timestamp b)) as [Hlt|Hge]; simpl.
    - split; [lia | done].
    - split; [| lia].
      destruct (decide (MerkleRoot b ≠ TransactionMerkleRoot b)); simpl;
        intros Heq; inversion Heq. }
  assert (Hfuture : int64 (Timestamp b - now) > FutureThreshold ->
    exists s', validateHeader now parent b s = Ok (Some FutureBlockErr, s') /\
               badBlocks s' = badBlocks s /\
               length (futureBlocks s') = S (length (futureBlocks s))).
  { intros Hskew. unfold validateHeader. unfold_M. rewrite Hp, Htarget. simpl.
    rewrite decide_True by done. eexists. split; [reflexivity |].
    split; [done |]. simpl. rewrite length_app. simpl. lia. }
  split; [| split; [exact Hlate | split; [exact Hfuture |]]].
  2: { unfold in_int64, int64. intros H. rewrite Z.mod_small; lia. }
  destruct (decide (int64 (Timestamp b - now) > FutureThreshold)) as [Hf|Hl].
  - destruct (Hfuture Hf) as (s' & Hrun & _ & Hlen'). rewrite Hrun. split.
    + intros Heq. injection Heq as _ Hs. rewrite Hs in Hlen'. simpl in Hlen'. lia.
    + lia.
  - assert (Hle : int64 (Timestamp b - now) <= FutureThreshold) by lia.
    specialize (Hlate Hle). unfold median_rule in Hlate. rewrite Hlate.
    split; [by split | by intros [? _]].
Qed.

(** *** Rational arithmetic *)

Lemma Rat_Cmp_gt (x y : Qc) : (Rat_Cmp x y =? 1) = true <-> (y < x)%Qc.
Proof.
  unfold Rat_Cmp. rewrite (Qcgt_alt x y).
  destruct (x ?= y)%Qc; split; intros H; try done.
Qed.

Lemma Rat_Cmp_lt (x y : Qc) : (Rat_Cmp x y =? -1) = true <-> (x < y)%Qc.
Proof.
  unfold Rat_Cmp. rewrite (Qclt_alt x y).
  destruct (x ?= y)%Qc; split; intros H; try done.
Qed.

Lemma Target_Inverse_ok (t : Z) (s : State) :
  t <> 0 -> Target_Inverse t s = Ok ((/ Qc_of_Z t)%Qc, s).
Proof.
  intros Ht. unfold Target_Inverse, Rat_Inv, Target_Rat.
  destruct (decide (Qc_of_Z t = 0%Qc)) as [Heq|]; [| done].
  rewrite <- Z2Qc_inj_0 in Heq. apply Z2Qc_inj in Heq. done.
Qed.

(** *** heavierFork *)

(** C4. [heavierFork] returns true exactly when the inverse of the
    candidate's depth is strictly greater than the inverse of the current
    tip's depth plus 5/100 of the inverse of the current tip's target, in
    exact rational arithmetic; a candidate whose depth equals the tip's
    does not win. *)
Theorem heavierFork_rule (s : State) (newNode tipPtr : nat) (node tip : BlockNode) :
  blockMap s !! currentBlockID s = Some tipPtr ->
  heap s !! tipPtr = Some tip ->
  heap s !! newNode = Some node ->
  0 < Target tip -> 0 < Depth tip -> 0 < Depth node ->
  exists r,
    heavierFork newNode s = Ok (r, s) /\
    (r = true <-> heavier (Depth node) (Depth tip) (Target tip)) /\
    (Depth node = Depth tip -> r = false).
Proof.
  intros Htip Hheap Hnode Ht Hd Hn.
  unfold heavierFork, CurrentBlockWeight, State_Depth, currentBlockNode.
  unfold_M. rewrite Htip, Hheap.
  rewrite (Target_Inverse_ok (Target tip)) by lia. rewrite Htip, Hheap.
  rewrite (Target_Inverse_ok (Depth tip)) by lia. rewrite Hnode.
  rewrite (Target_Inverse_ok (Depth node)) by lia.
  eexists. split; [reflexivity |]. split.
  - rewrite Rat_Cmp_gt. unfold heavier, SurpassThreshold. done.
  - intros Heq. rewrite Heq. apply not_true_is_false. rewrite Rat_Cmp_gt.
    apply Qcle_not_lt. rewrite <- (Qcplus_0_r (/ Qc_of_Z (Depth tip))) at 1.
    apply Qcplus_le_mono_l. apply Qcmult_nonneg_nonneg.
    + apply Qclt_le_weak, Qcinv_pos. rewrite <- Z2Qc_inj_0.
      apply (proj1 (Z2Qc_inj_lt 0 (Target tip))). lia.
    + unfold SurpassThreshold. apply Qclt_le_weak. done.
Qed.

(** *** childTarget *)

Lemma int64_id (z : Z) : in_int64 z -> int64 z = z.
Proof.
  unfold in_int64, int64. intros H.
  rewrite Z.mod_small; lia.
Qed.

Lemma uint64_id (z : Z) : 0 <= z < 2 ^ 64 -> uint64 z = z.
Proof. unfold uint64. intros H. by rewrite Z.mod_small. Qed.

Lemma clamp_adjustment_Cmp (adj : Qc) :
  (if Rat_Cmp adj MaxAdjustmentUp =? 1 then MaxAdjustmentUp
   else if Rat_Cmp adj MaxAdjustmentDown =? -1 then MaxAdjustmentDown
   else adj) = clamp_adjustment adj.
Proof.
  unfold clamp_adjustment.
  destruct (Rat_Cmp adj MaxAdjustmentUp =? 1) eqn:Hup.
  - apply Rat_Cmp_gt in Hup. by rewrite decide_True.
  - rewrite decide_False; [| by rewrite <- Rat_Cmp_gt, Hup].
    destruct (Rat_Cmp adj MaxAdjustmentDown =? -1) eqn:Hdown.
    + apply Rat_Cmp_lt in Hdown. by rewrite decide_True.
    + rewrite decide_False; [done | by rewrite <- Rat_Cmp_lt, Hdown].
Qed.

(** C5. The target of a child is [parent.target × adj], with
    [adj = time_passed / expected_passed] clamped to [MaxAdjustmentUp] from
    above and [MaxAdjustmentDown] from below, where
    [window = min(child.height, TargetWindow)],
    [expected_passed = BlockFrequency × window] and
    [time_passed = child.timestamp − anchor.timestamp]; the product is
    converted by [RatToTarget].  Heights are 64-bit values above genesis
    and the signed 64-bit subtraction of the timestamps does not wrap. *)
Theorem childTarget_retarget (s : State) (parent child : BlockNode) (a : Block) :
  0 < TargetWindow -> 0 < BlockFrequency ->
  BlockFrequency * TargetWindow < 2 ^ 63 ->
  0 < Height child < 2 ^ 64 ->
  anchor s child a ->
  in_int64 (Timestamp (NodeBlock child) - Timestamp a) ->
  childTarget parent child s = Ok (child_target parent child a, s).
Proof.
  intros Hw Hf Hprod Hh Hanchor Htime.
  unfold childTarget, anchor, child_target, BlockAtHeight in *. unfold_M.
  destruct (decide (Height child < TargetWindow)) as [Hlt|Hge].
  - destruct Hanchor as (root & Hroot & ->). rewrite Hroot. simpl.
    rewrite Z.min_l by lia.
    rewrite (int64_id _ Htime), int64_id by (unfold in_int64; nia).
    unfold NewRat. rewrite decide_False by nia. unfold_M.
    by rewrite clamp_adjustment_Cmp.
  - rewrite Z.min_r in * by lia.
    destruct Hanchor as (id & p & n & Hpath & Hmap & Hn & ->).
    rewrite uint64_id by lia. rewrite Hpath. simpl. rewrite Hmap, Hn. simpl.
    rewrite (int64_id _ Htime), int64_id by (unfold in_int64; nia).
    unfold NewRat. rewrite decide_False by nia. unfold_M.
    by rewrite clamp_adjustment_Cmp.
Qed.

(** *** The transaction loop of integrateBlock *)

Lemma ledger_after_app (xs ys : list Transaction) (l : Ledger) :
  ledger_after (xs ++ ys) l = ledger_after ys (ledger_after xs l).
Proof. revert l. induction xs as [|x xs IH]; intros l; simpl; auto. Qed.

Lemma ledger_inverted_app (xs ys : list Transaction) (l : Ledger) :
  ledger_inverted (xs ++ ys) l = ledger_inverted ys (ledger_inverted xs l).
Proof. revert l. induction xs as [|x xs IH]; intros l; simpl; auto. Qed.

Lemma transaction_diffs_app (xs ys : list Transaction) (l : Ledger) :
  transaction_diffs (xs ++ ys) l =
  transaction_diffs xs l ++ transaction_diffs ys (ledger_after xs l).
Proof.
  revert l. induction xs as [|x xs IH]; intros l; simpl; [done |].
  by rewrite IH.
Qed.

Lemma output_diffs_app (xs ys : list TransactionDiff) :
  output_diffs (xs ++ ys) = output_diffs xs ++ output_diffs ys.
Proof. unfold output_diffs. by rewrite map_app, concat_app. Qed.

Lemma invertTransactions_ledger (txns : list Transaction) (l : Ledger)
    (diffs : list OutputDiff) :
  (invertTransactions txns l diffs).1 = ledger_inverted txns l.
Proof.
  revert l diffs. induction txns as [|t txns IH]; intros l diffs; simpl; auto.
Qed.

(** Inverting in reverse order what was applied in order gives the ledger
    back. *)
Lemma ledger_inverted_after `{!CollaboratorLaws} (txns : list Transaction)
    (l : Ledger) :
  all_valid txns l -> ledger_inverted (rev txns) (ledger_after txns l) = l.
Proof.
  revert l. induction txns as [|t txns IH]; intros l Hv; simpl; [done |].
  destruct Hv as [Ht Hv]. rewrite ledger_inverted_app, IH by done. simpl.
  by apply invert_apply.
Qed.

(** The loop on a prefix of valid transactions. *)
Lemma applyTransactions_valid (txns rest : list Transaction) (st : txnLoop) :
  all_valid txns (tl_ledger st) ->
  applyTransactions (txns ++ rest) st =
  applyTransactions rest
    {| tl_ledger := ledger_after txns (tl_ledger st);
       tl_applied := tl_applied st ++ txns;
       tl_diffs := tl_diffs st ++ output_diffs (transaction_diffs txns (tl_ledger st));
       tl_diff :=
         {| CatalystBlock := CatalystBlock (tl_diff st);
            TransactionDiffs :=
              TransactionDiffs (tl_diff st) ++ transaction_diffs txns (tl_ledger st);
            BlockChanges := BlockChanges (tl_diff st) |};
       tl_subsidy := fees_after txns (tl_subsidy st);
       tl_err := match txns with [] => tl_err st | _ => None end |}.
Proof.
  revert st. induction txns as [|t txns IH]; intros st Hv.
  - simpl. unfold output_diffs. simpl. rewrite !app_nil_r.
    by destruct st as [? ? ? [] ? ?].
  - destruct Hv as [Ht Hv]. simpl. rewrite Ht.
    rewrite IH by done. simpl. f_equal. f_equal.
    + by rewrite <- app_assoc.
    + unfold output_diffs. simpl. by rewrite <- !app_assoc.
    + by rewrite <- app_assoc.
    + by destruct txns.
Qed.

Lemma applyTransactions_all_valid (txns : list Transaction) (st : txnLoop) :
  all_valid txns (tl_ledger st) -> tl_err st = None ->
  applyTransactions txns st =
    {| tl_ledger := ledger_after txns (tl_ledger st);
       tl_applied := tl_applied st ++ txns;
       tl_diffs := tl_diffs st ++ output_diffs (transaction_diffs txns (tl_ledger st));
       tl_diff :=
         {| CatalystBlock := CatalystBlock (tl_diff st);
            TransactionDiffs :=
              TransactionDiffs (tl_diff st) ++ transaction_diffs txns (tl_ledger st);
            BlockChanges := BlockChanges (tl_diff st) |};
       tl_subsidy := fees_after txns (tl_subsidy st);
       tl_err := None |}.
Proof.
  intros Hv Herr. pose proof (applyTransactions_valid txns [] st Hv) as H.
  rewrite app_nil_r in H. rewrite H. simpl. rewrite Herr. by destruct txns.
Qed.

(** The loop either applies every transaction or stops at the first one
    that is not valid. *)
Lemma applyTransactions_cases (txns : list Transaction) (l : Ledger) :
  all_valid txns l \/
  exists applied t rest e,
    txns = applied ++ t :: rest /\ all_valid applied l /\
    ValidTransaction (ledger_after applied l) t = Some e.
Proof.
  revert l. induction txns as [|t txns IH]; intros l; [by left |].
  destruct (ValidTransaction l t) as [e|] eqn:Ht.
  - right. by exists [], t, txns, e.
  - destruct (IH (applyTransaction l t).1) as [Hv|(applied & t' & rest & e & -> & Hv & Ht')].
    + left. by split.
    + right. exists (t :: applied), t', rest, e. by repeat split.
Qed.

(** *** integrateBlock on a failing transaction *)

(** The run of [integrateBlock] that stops at the transaction [t]. *)
Lemma integrateBlock_stops (s : State) (b : Block) (bd : BlockDiff)
    (applied : list Transaction) (t : Transaction) (rest : list Transaction)
    (e : error) :
  Transactions b = applied ++ t :: rest ->
  all_valid applied (ledger s) ->
  ValidTransaction (ledger_after applied (ledger s)) t = Some e ->
  integrateBlock b bd s =
    Ok ((output_diffs (transaction_diffs applied (ledger s)), Some e,
         diff_after b bd applied (ledger s)),
        set_ledger (ledger_inverted (rev applied)
                      (ledger_after applied (ledger s))) s).
Proof.
  intros Htxns Hv Ht. unfold integrateBlock. unfold_M. rewrite Htxns.
  rewrite applyTransactions_valid by done. simpl. rewrite Ht. simpl.
  rewrite invertTransactions_ledger. done.
Qed.

Lemma integrateBlock_restores `{!CollaboratorLaws} (s : State)
    (applied : list Transaction) :
  all_valid applied (ledger s) ->
  set_ledger (ledger_inverted (rev applied) (ledger_after applied (ledger s))) s
    = s.
Proof. intros Hv. rewrite ledger_inverted_after by done. by destruct s. Qed.

(** C3 (amended). When a transaction of the block fails
    [ValidTransaction], [integrateBlock] inverts the already-applied
    transactions in reverse order of application and returns the error of
    the failing transaction; the diff list it returns with the error holds
    the output diffs of the already-applied transactions.  The unspent
    outputs, the contract state, [currentBlockID] and [currentPath] are
    unchanged by the call: the state after it is the state before it. *)
Theorem integrateBlock_failure `{!CollaboratorLaws} (s : State) (b : Block)
    (bd : BlockDiff) (applied : list Transaction) (t : Transaction)
    (rest : list Transaction) (e : error) :
  Transactions b = applied ++ t :: rest ->
  all_valid applied (ledger s) ->
  ValidTransaction (ledger_after applied (ledger s)) t = Some e ->
  integrateBlock b bd s =
    Ok ((output_diffs (transaction_diffs applied (ledger s)), Some e,
         diff_after b bd applied (ledger s)),
        set_ledger (ledger_inverted (rev applied)
                      (ledger_after applied (ledger s))) s) /\
  set_ledger (ledger_inverted (rev applied) (ledger_after applied (ledger s))) s = s.
Proof.
  intros Htxns Hv Ht.
  split; [by apply (integrateBlock_stops s b bd applied t rest)
         | by apply integrateBlock_restores].
Qed.

(** *** integrateBlock on a valid block *)

Lemma integrateBlock_success (s : State) (b : Block) (bd : BlockDiff)
    (p : nat) (n : BlockNode) :
  all_valid (Transactions b) (ledger s) ->
  blockMap s !! ID b = Some p ->
  heap s !! p = Some n ->
  integrateBlock b bd s =
    Ok ((integrate_diffs (ledger s) b (BlockChanges bd) (Height n), None,
         integrate_diff (ledger s) b bd (Height n)),
        integrated s b (BlockChanges bd) (Height n)).
Proof.
  intros Hv Hmap Hheap. unfold integrateBlock. unfold_M.
  rewrite applyTransactions_all_valid by done.
  simpl. rewrite Hmap. simpl. rewrite Hheap. simpl.
  unfold State_Height, currentBlockNode. unfold_M. simpl.
  rewrite Hmap. simpl. rewrite Hheap. simpl.
  unfold integrate_diffs, integrate_diff, integrated, integrate_ledger,
    maintained_ledger, subsidy_output, integrate_diffs. simpl.
  rewrite <- !app_assoc. done.
Qed.

(** A call that returns the nil error applied every transaction and found
    the node of the block. *)
Lemma integrateBlock_nil_inv (s s' : State) (b : Block) (bd bd' : BlockDiff)
    (diffs : list OutputDiff) :
  integrateBlock b bd s = Ok ((diffs, None, bd'), s') ->
  all_valid (Transactions b) (ledger s) /\
  exists p n, blockMap s !! ID b = Some p /\ heap s !! p = Some n.
Proof.
  intros Hrun.
  destruct (applyTransactions_cases (Transactions b) (ledger s))
    as [Hv|(applied & t & rest & e & Htxns & Hv & Ht)].
  - split; [done |].
    revert Hrun. unfold integrateBlock. unfold_M.
    rewrite applyTransactions_all_valid by done. simpl.
    destruct (blockMap s !! ID b) as [p|] eqn:Hmap; simpl; [| done].
    destruct (heap s !! p) as [n|] eqn:Hheap; simpl; [| done].
    intros _. by exists p, n.
  - revert Hrun. unfold integrateBlock. unfold_M. rewrite Htxns.
    rewrite applyTransactions_valid by done. simpl. rewrite Ht. done.
Qed.

(** C10. On a successful [integrateBlock] the [BlockChanges.OutputDiffs] of
    the block diff is extended with the whole list of diffs of the call: the
    output diffs of every transaction, those of the contract maintenance and
    the miner-subsidy diff.  Every output diff of a transaction is thus in
    the block diff twice: in its [TransactionDiffs] entry and in
    [BlockChanges.OutputDiffs]. *)
Theorem integrateBlock_diffs_twice (s s' : State) (b : Block)
    (bd bd' : BlockDiff) (diffs : list OutputDiff) :
  integrateBlock b bd s = Ok ((diffs, None, bd'), s') ->
  let tds := transaction_diffs (Transactions b) (ledger s) in
  let cm := applyContractMaintenance
              (ledger_after (Transactions b) (ledger s)) (BlockChanges bd) in
  exists subsidy,
    diffs = output_diffs tds ++ cm.2 ++
            [ {| New := true; DiffID := SubsidyID b; DiffOutput := subsidy |} ] /\
    TransactionDiffs bd' = TransactionDiffs bd ++ tds /\
    OutputDiffs (BlockChanges bd') = OutputDiffs cm.1.2 ++ diffs /\
    (forall td d, td ∈ tds -> d ∈ OutputDiffs td ->
       td ∈ TransactionDiffs bd' /\ d ∈ OutputDiffs (BlockChanges bd')).
Proof.
  intros Hrun tds cm.
  destruct (integrateBlock_nil_inv _ _ _ _ _ _ Hrun) as (Hv & p & n & Hmap & Hheap).
  rewrite (integrateBlock_success s b bd p n Hv Hmap Hheap) in Hrun.
  injection Hrun as <- <- <-.
  exists (subsidy_output (ledger s) b (Height n)).
  split; [done | split; [done | split; [done |]]].
  intros td d Htd Hd. simpl. split.
  - apply elem_of_app. by right.
  - apply elem_of_app. right. unfold integrate_diffs.
    apply elem_of_app. left. unfold output_diffs.
    apply list_elem_of_In, in_concat. exists (OutputDiffs td).
    split; [apply in_map; by apply list_elem_of_In | by apply list_elem_of_In].
Qed.

Lemma preserves_NewRat {A} (f : State -> A) (a b : Z) : preserves f (NewRat a b).
Proof.
  unfold NewRat. destruct (decide (b = 0)); [apply preserves_panic | apply preserves_ret].
Qed.

Lemma preserves_Rat_Inv {A} (f : State -> A) (q : Qc) : preserves f (Rat_Inv q).
Proof.
  unfold Rat_Inv. destruct (decide (q = 0%Qc)); [apply preserves_panic | apply preserves_ret].
Qed.

(** *** The subscribers' log is touched by notifySubscribers only *)

Create HintDb frames.

Ltac frame :=
  repeat first
    [ apply preserves_ret | apply preserves_panic | apply preserves_fuel
    | apply preserves_get | apply preserves_deref | apply preserves_index
    | apply preserves_load | apply preserves_blockMap_at
    | apply preserves_NewRat | apply preserves_Rat_Inv
    | apply preserves_modify; intros; reflexivity
    | apply preserves_forM_; intros ?
    | apply preserves_repeatM
    | apply preserves_bind; [| intros ?]
    | match goal with
      | |- preserves _ (match ?x with _ => _ end) => destruct x
      end
    | assumption
    | solve [auto with frames]
    | progress cbv zeta ].

(** [framed H f Hn]: from the run [H : m s = Ok (b, s')], the equation
    [Hn : f s' = f s]. *)
Ltac framed H f Hn :=
  match type of H with
  | ?m ?s = Ok (?b, ?s') =>
      assert (Hn : f s' = f s)
        by (refine ((_ : preserves f m) s b s' H); frame)
  end.

Lemma notifications_invertRecentBlock :
  preserves notifications invertRecentBlock.
Proof. unfold invertRecentBlock. frame. Qed.

Lemma notifications_integrateBlock (b : Block) (bd : BlockDiff) :
  preserves notifications (integrateBlock b bd).
Proof. unfold integrateBlock. frame. Qed.

Lemma notifications_invalidateNode (fuel : nat) (p : nat) :
  preserves notifications (invalidateNode fuel p).
Proof.
  revert p. induction fuel as [|fuel IH]; intros p; simpl; frame; apply IH.
Qed.

Lemma notifications_reintegrate (blocks : list Block) :
  preserves notifications (reintegrate blocks).
Proof. induction blocks as [|b blocks IH]; simpl; frame. Qed.

Lemma notifications_commonParent (fuel : nat) (n : BlockNode) (h : list Z) :
  preserves notifications (commonParent fuel n h).
Proof.
  revert n h. induction fuel as [|fuel IH]; intros n h; simpl; frame; apply IH.
Qed.

Lemma notifications_addBlockToTree (parent : nat) (b : Block) :
  preserves notifications (addBlockToTree parent b).
Proof. unfold addBlockToTree. frame. Qed.

Lemma notifications_heavierFork (p : nat) :
  preserves notifications (heavierFork p).
Proof. unfold heavierFork. frame. Qed.

Lemma notifications_pathCheck (n : nat) (i : Z) (node : BlockNode) :
  preserves notifications (pathCheck n i node).
Proof.
  revert i node. induction n as [|n IH]; intros i node; simpl; frame; apply IH.
Qed.

Lemma notifications_CurrentPathCheck :
  preserves notifications CurrentPathCheck.
Proof. unfold CurrentPathCheck. frame. apply notifications_pathCheck. Qed.

#[local] Hint Resolve notifications_invalidateNode notifications_reintegrate
  notifications_commonParent notifications_pathCheck
  notifications_integrateBlock notifications_invertRecentBlock : frames.

(** *** The fuel of the loops *)

Ltac mono_step H :=
  let a := fresh "a" in
  let s1 := fresh "s" in
  let H1 := fresh "H" in
  apply bind_Ok_inv in H as (a & s1 & H1 & H);
  try rewrite (bind_Ok _ _ _ _ _ H1).

Lemma forM__mono {A} (k k' : A -> M unit) (l : list A) (s s' : State) :
  (forall a s s', k a s = Ok (tt, s') -> k' a s = Ok (tt, s')) ->
  forM_ l k s = Ok (tt, s') -> forM_ l k' s = Ok (tt, s').
Proof.
  intros Hk. revert s. induction l as [|a l IH]; intros s H; [done |].
  simpl in *. mono_step H. destruct a0.
  rewrite (bind_Ok _ _ _ _ _ (Hk a _ _ H0)). by apply IH.
Qed.

Lemma invalidateNode_mono (p : nat) : fuel_mono (fun f => invalidateNode f p).
Proof.
  intros f. revert p. induction f as [|f IH]; intros p f' s [[] s'] Hf H; [done |].
  destruct f' as [|f']; [lia |]. simpl in *.
  mono_step H. mono_step H. destruct a0.
  rewrite (bind_Ok _ _ _ _ _
             (forM__mono _ (invalidateNode f') _ _ _
                (fun c s s' => IH c f' s (tt, s') ltac:(lia)) H1)).
  exact H.
Qed.

Lemma commonParent_mono (n : BlockNode) (h : list Z) :
  fuel_mono (fun f => commonParent f n h).
Proof.
  intros f. revert n h.
  induction f as [|f IH]; intros n h f' s [r s'] Hf H; [done |].
  destruct f' as [|f']; [lia |]. simpl in *.
  mono_step H. destruct (decide _); [| done].
  mono_step H. mono_step H. apply (IH _ _ f'); [lia | done].
Qed.

Lemma rewind_mono (id : Z) (v : forkVars) : fuel_mono (fun f => rewind f id v).
Proof.
  intros f. revert v.
  induction f as [|f IH]; intros v f' s [r s'] Hf H; [done |].
  destruct f' as [|f']; [lia |]. simpl in *.
  mono_step H. destruct (decide _); [| done].
  mono_step H. mono_step H. mono_step H. mono_step H.
  apply (IH _ f'); [lia | done].
Qed.

Lemma validate_mono (sh : Z) (ids : list Z) (v : forkVars) :
  fuel_mono (fun f => validate f sh ids v).
Proof.
  intros f f' s [r s'] Hf. revert v s.
  induction ids as [|id ids IH]; intros v s H; [done |].
  simpl in *. mono_step H. mono_step H. mono_step H.
  destruct (a1.1.2).
  - mono_step H. mono_step H.
    match goal with
    | Hi : invalidateNode f _ _ = Ok _ |- _ =>
        rewrite (bind_Ok _ _ _ _ _ (invalidateNode_mono _ f f' _ _ Hf Hi))
    end.
    exact H.
  - mono_step H. mono_step H. mono_step H. by apply IH.
Qed.

Lemma forkBlockchain_mono (p : nat) : fuel_mono (fun f => forkBlockchain f p).
Proof.
  intros f f' s [r s'] Hf H. unfold forkBlockchain in *.
  mono_step H. mono_step H.
  match goal with
  | Hi : commonParent f _ _ _ = Ok _ |- _ =>
      rewrite (bind_Ok _ _ _ _ _ (commonParent_mono _ _ f f' _ _ Hf Hi))
  end.
  mono_step H. mono_step H.
  match goal with
  | Hi : rewind f _ _ _ = Ok _ |- _ =>
      rewrite (bind_Ok _ _ _ _ _ (rewind_mono _ _ f f' _ _ Hf Hi))
  end.
  mono_step H.
  match goal with
  | Hi : validate f _ _ _ _ = Ok _ |- _ =>
      rewrite (bind_Ok _ _ _ _ _ (validate_mono _ _ _ f f' _ _ Hf Hi))
  end.
  exact H.
Qed.

Lemma AcceptBlock_mono (now : Z) (b : Block) :
  fuel_mono (fun f => AcceptBlock f now b).
Proof.
  intros f f' s [r s'] Hf H. unfold AcceptBlock in *.
  mono_step H. destruct a; [done |].
  mono_step H. mono_step H. destruct a0; [done |].
  destruct (decide _); [done |].
  mono_step H. mono_step H. mono_step H.
  match goal with
  | Hi : (if ?hv then _ else _) _ = Ok _ |- _ =>
      destruct hv;
      [ by rewrite (bind_Ok _ _ _ _ _ (forkBlockchain_mono _ f f' _ _ Hf Hi))
      | by rewrite (bind_Ok _ _ _ _ _ Hi) ]
  end.
Qed.

(** *** What forkBlockchain publishes *)

Ltac inv_bind H a s H1 := apply bind_Ok_inv in H as (a & s & H1 & H).

Lemma rewind_applied (fuel : nat) (id : Z) (v v' : forkVars) (s s' : State) :
  rewind fuel id v s = Ok (v', s') ->
  appliedBlocks v' = appliedBlocks v /\
  AppliedBlocks (cc v') = AppliedBlocks (cc v) /\
  validatedBlocks v' = validatedBlocks v /\
  notifications s' = notifications s.
Proof.
  revert v s. induction fuel as [|fuel IH]; intros v s H; simpl in H; [done |].
  inv_bind H s0 s1 Hget. injection Hget as <- <-.
  destruct (decide (currentBlockID s ≠ id)) as [Hne|Heq].
  - inv_bind H cb s1 Hcb. inv_bind H p s2 Hp. inv_bind H n s3 Hn.
    inv_bind H d s4 Hd. apply IH in H as (-> & -> & -> & ->). simpl.
    framed Hcb notifications H1. framed Hp notifications H2.
    framed Hn notifications H3. framed Hd notifications H4.
    repeat split. congruence.
  - by injection H as <- <-.
Qed.

Lemma validate_applied (fuel : nat) (h : Z) (ids : list Z) (v v' : forkVars)
    (s s' : State) :
  validate fuel h ids v s = Ok (v', s') ->
  notifications s' = notifications s /\
  (appliedBlocks v' = [] \/
   length (appliedBlocks v') = (length (appliedBlocks v) + length ids)%nat /\
   length (AppliedBlocks (cc v')) =
     (length (AppliedBlocks (cc v)) + length ids)%nat).
Proof.
  revert v s. induction ids as [|id ids IH]; intros v s H; simpl in H.
  - injection H as <- <-. split; [done |]. right. simpl. lia.
  - inv_bind H p s1 Hp. inv_bind H n s2 Hn. inv_bind H r s3 Hr.
    framed Hp notifications H1. framed Hn notifications H2.
    framed Hr notifications H3.
    destruct (r.1.2) as [e|].
    + inv_bind H p' s4 Hp'. inv_bind H u5 s5 H5. inv_bind H u6 s6 H6.
      inv_bind H u7 s7 H7. inv_bind H u8 s8 H8. injection H as <- <-.
      framed Hp' notifications H4. framed H5 notifications H5'.
      framed H6 notifications H6'. framed H7 notifications H7'.
      framed H8 notifications H8'.
      split; [congruence | by left].
    + inv_bind H p' s4 Hp'. inv_bind H n' s5 Hn'. inv_bind H u s6 Hst.
      framed Hp' notifications H4. framed Hn' notifications H5.
      framed Hst notifications H6.
      apply IH in H as (Hnot & Happ). split; [congruence |].
      destruct Happ as [Happ|[Ha Hc]]; [by left | right].
      simpl in Ha, Hc. rewrite !length_app in Ha, Hc. simpl in *. lia.
Qed.

Lemma forkBlockchain_published (fuel : nat) (p : nat) (s s' : State)
    (r : list Block * list Block * list OutputDiff * option error) :
  forkBlockchain fuel p s = Ok (r, s') ->
  r.2 = None /\
  (r.1.1.2 = [] /\ notifications s' = notifications s \/
   r.1.1.2 <> [] /\
   exists c, notifications s' = notifications s ++ [c] /\
             length (AppliedBlocks c) = length r.1.1.2).
Proof.
  intros H. unfold forkBlockchain in H.
  inv_bind H n s1 Hn. inv_bind H cp s2 Hcp. inv_bind H h s3 Hh.
  inv_bind H v s4 Hv. inv_bind H v' s5 Hv'. inv_bind H u s6 Hu.
  inv_bind H u' s7 Hu'. injection H as <- <-. simpl. split; [done |].
  framed Hn notifications H1. framed Hcp notifications H2.
  framed Hh notifications H3.
  assert (Hs3 : notifications s3 = notifications s) by congruence.
  apply rewind_applied in Hv as (Ha & Hc & _ & Hs4). simpl in Ha, Hc.
  apply validate_applied in Hv' as (Hs5 & Happ).
  injection Hu as _ <-.
  destruct (decide (appliedBlocks v' = [])) as [Hnil|Hne].
  - left. split; [done |].
    rewrite bool_decide_eq_false_2 in Hu' by (intros Hx; by apply Hx).
    injection Hu' as _ <-. simpl. congruence.
  - right. split; [done |].
    rewrite bool_decide_eq_true_2 in Hu' by done.
    injection Hu' as _ <-. simpl. exists (cc v'). split; [congruence |].
    destruct Happ as [Happ|[Hla Hlc]]; [done |].
    rewrite Ha, Hc in *. simpl in Hla, Hlc. lia.
Qed.

(** *** What AcceptBlock publishes *)

(** Whenever a call of [AcceptBlock] that passes the destiny, header and
    size checks returns, it returns the nil error and has ended by
    publishing one empty [ConsensusChange]; when its list of applied blocks
    is not empty the populated change of [forkBlockchain] was published
    just before it, otherwise the empty change is the only one published.
    With more fuel the call returns the same result in the same state. *)
Lemma AcceptBlock_published (fuel : nat) (now : Z) (b : Block) (s s' : State)
    (r : list Block * list Block * list OutputDiff * option error) :
  passes_checks now b s ->
  AcceptBlock fuel now b s = Ok (r, s') ->
  (forall fuel', (fuel <= fuel')%nat -> AcceptBlock fuel' now b s = Ok (r, s')) /\
  r.2 = None /\
  exists published,
    notifications s' = notifications s ++ published ++ [zeroConsensusChange] /\
    (r.1.1.2 = [] -> published = []) /\
    (r.1.1.2 <> [] ->
     exists c, published = [c] /\ AppliedBlocks c <> [] /\
               length (AppliedBlocks c) = length r.1.1.2).
Proof.
  intros Hchecks H.
  split; [intros fuel' Hf; by apply (AcceptBlock_mono now b fuel fuel') |].
  revert Hchecks H.
  intros (s1 & parent & s2 & Hdestiny & Hparent & Hheader & Hsize) H.
  unfold AcceptBlock in H.
  rewrite (bind_Ok _ _ _ _ _ Hdestiny) in H.
  unfold blockMap_at in H at 1. unfold bind at 1 in H. unfold bind at 1 in H.
  simpl in H. rewrite Hparent in H. simpl in H.
  rewrite (bind_Ok _ _ _ _ _ Hheader) in H.
  destruct (decide (Z.of_nat (length (Marshal b)) > BlockSizeLimit))
    as [Hbig|_]; [done |].
  framed Hdestiny notifications H1. framed Hheader notifications H2.
  assert (Hs2 : notifications s2 = notifications s) by congruence.
  inv_bind H newNode s3 Hadd. inv_bind H hv s4 Hheavy.
  inv_bind H r' s5 Hfork.
  apply notifications_addBlockToTree in Hadd.
  apply notifications_heavierFork in Hheavy.
  assert (Hr' : r'.2 = None /\
    (r'.1.1.2 = [] /\ notifications s5 = notifications s4 \/
     r'.1.1.2 <> [] /\
     exists c, notifications s5 = notifications s4 ++ [c] /\
               length (AppliedBlocks c) = length r'.1.1.2)).
  { destruct hv.
    - by apply forkBlockchain_published in Hfork.
    - injection Hfork as <- <-. split; [done |]. by left. }
  destruct Hr' as [Herr Hpub]. rewrite Herr in H.
  inv_bind H u s6 Hnotify. inv_bind H u' s7 Hcheck. injection H as <- <-.
  injection Hnotify as _ <-.
  assert (Hs7 : notifications s7 = notifications s5 ++ [zeroConsensusChange]).
  { destruct DEBUG.
    - by apply notifications_CurrentPathCheck in Hcheck.
    - by injection Hcheck as _ <-. }
  split; [done |].
  destruct Hpub as [[Hnil Hs5]|[Hne (c & Hs5 & Hlen)]].
  - exists []. split; [simpl; congruence |]. split; [done | done].
  - exists [c]. split; [| split; [done |]].
    + rewrite Hs7, Hs5. rewrite <- app_assoc. congruence.
    + intros _. exists c. split; [done | split; [| done]].
      intros Hc. rewrite Hc in Hlen. simpl in Hlen.
      destruct (r'.1.1.2); [done | simpl in Hlen; lia].
Qed.

(** *** Accessors *)

Lemma bind_get {B} (k : State -> M B) (s : State) : bind get k s = k s s.
Proof. done. Qed.

Lemma load_ok (s : State) (p : nat) (n : BlockNode) :
  heap s !! p = Some n -> load p s = Ok (n, s).
Proof. intros H. unfold load. unfold_M. by rewrite H. Qed.

Lemma blockMap_at_ok (s : State) (id : Z) (p : nat) :
  blockMap s !! id = Some p -> blockMap_at id s = Ok (p, s).
Proof. intros H. unfold blockMap_at. unfold_M. by rewrite H. Qed.

Lemma currentBlockNode_ok (s : State) (p : nat) :
  blockMap s !! currentBlockID s = Some p -> currentBlockNode s = Ok (p, s).
Proof. intros H. unfold currentBlockNode. rewrite bind_get. by apply blockMap_at_ok. Qed.

Lemma CurrentBlock_ok (s : State) (p : nat) (n : BlockNode) :
  blockMap s !! currentBlockID s = Some p -> heap s !! p = Some n ->
  CurrentBlock s = Ok (NodeBlock n, s).
Proof.
  intros Hp Hn. unfold CurrentBlock.
  rewrite (bind_Ok _ _ _ _ _ (currentBlockNode_ok s p Hp)).
  by rewrite (bind_Ok _ _ _ _ _ (load_ok s p n Hn)).
Qed.

Lemma State_Height_ok (s : State) (p : nat) (n : BlockNode) :
  blockMap s !! currentBlockID s = Some p -> heap s !! p = Some n ->
  State_Height s = Ok (Height n, s).
Proof.
  intros Hp Hn. unfold State_Height.
  rewrite (bind_Ok _ _ _ _ _ (currentBlockNode_ok s p Hp)).
  by rewrite (bind_Ok _ _ _ _ _ (load_ok s p n Hn)).
Qed.

(** *** Blocks on a consensus view *)

Lemma heap_with_view (v : Ledger * gmap Z Z * Z) (s : State) :
  heap (with_view v s) = heap s.
Proof. done. Qed.

Lemma blockMap_with_view (v : Ledger * gmap Z Z * Z) (s : State) :
  blockMap (with_view v s) = blockMap s.
Proof. done. Qed.

Lemma badBlocks_with_view (v : Ledger * gmap Z Z * Z) (s : State) :
  badBlocks (with_view v s) = badBlocks s.
Proof. done. Qed.

Lemma currentBlockID_with_view (v : Ledger * gmap Z Z * Z) (s : State) :
  currentBlockID (with_view v s) = v.2.
Proof. done. Qed.

Lemma currentPath_with_view (v : Ledger * gmap Z Z * Z) (s : State) :
  currentPath (with_view v s) = v.1.2.
Proof. done. Qed.

Lemma ledger_with_view (v : Ledger * gmap Z Z * Z) (s : State) :
  ledger (with_view v s) = v.1.1.
Proof. done. Qed.

Lemma notifications_with_view (v : Ledger * gmap Z Z * Z) (s : State) :
  notifications (with_view v s) = notifications s.
Proof. done. Qed.

Lemma with_view_with_view (v v' : Ledger * gmap Z Z * Z) (s : State) :
  with_view v (with_view v' s) = with_view v s.
Proof. done. Qed.

Lemma has_block_with_view (v : Ledger * gmap Z Z * Z) (s : State) (b : Block) (h : Z) :
  has_block (with_view v s) b h <-> has_block s b h.
Proof. done. Qed.

Lemma with_view_view (s : State) : with_view (consensus_view s) s = s.
Proof. by destruct s. Qed.

Lemma consensus_view_with_view (v : Ledger * gmap Z Z * Z) (s : State) :
  consensus_view (with_view v s) = v.
Proof. by destruct v as [[l p] c]. Qed.

Lemma integrateBlock_with_view (X : State) (v : Ledger * gmap Z Z * Z)
    (b : Block) (h : Z) :
  has_block X b h ->
  all_valid (Transactions b) v.1.1 ->
  integrateBlock b zeroBlockDiff (with_view v X) =
    Ok ((integrate_diffs v.1.1 b zeroTransactionDiff h, None,
         integrate_diff v.1.1 b zeroBlockDiff h),
        with_view (view_integrate v b h) X).
Proof.
  intros (p & n & Hmap & Hheap & Hb & Hh) Hv.
  rewrite (integrateBlock_success (with_view v X) b zeroBlockDiff p n);
    try done.
  rewrite Hh. done.
Qed.

Lemma integrateBlock_fails_with_view `{!CollaboratorLaws} (X : State)
    (v : Ledger * gmap Z Z * Z) (b : Block) :
  ~ all_valid (Transactions b) v.1.1 ->
  exists diffs e bd,
    integrateBlock b zeroBlockDiff (with_view v X) =
      Ok ((diffs, Some e, bd), with_view v X).
Proof.
  intros Hbad.
  destruct (applyTransactions_cases (Transactions b) v.1.1)
    as [Hv|(applied & t & rest & e & Htxns & Hv & Ht)]; [done |].
  pose proof (integrateBlock_stops (with_view v X) b zeroBlockDiff
                applied t rest e Htxns Hv Ht) as Hrun.
  rewrite (integrateBlock_restores (with_view v X) applied Hv) in Hrun. eauto.
Qed.

Lemma ledger_eta (l : Ledger) :
  {| unspentOutputs := unspentOutputs l; openContracts := openContracts l |} = l.
Proof. by destruct l. Qed.

Lemma invertRecentBlock_with_view `{!CollaboratorLaws} (X : State)
    (v : Ledger * gmap Z Z * Z) (b : Block) (h : Z) :
  has_block X b h ->
  integrable v b h ->
  exists diffs,
    invertRecentBlock (with_view (view_integrate v b h) X) =
      Ok (diffs, with_view v X).
Proof.
  intros (p & n & Hmap & Hheap & Hb & Hh) (Hparent & Hv & Hfresh & Hfree).
  unfold invertRecentBlock, CurrentBlock, State_Output, State_Height,
    currentBlockNode.
  unfold_M. simpl. rewrite Hmap. simpl. rewrite Hheap. simpl. rewrite Hb.
  rewrite lookup_insert_eq. simpl.
  rewrite Hmap. simpl. rewrite Hheap. simpl. rewrite Hb.
  rewrite Hmap. simpl. rewrite Hheap. simpl.
  rewrite Hmap. simpl. rewrite Hheap. simpl. rewrite Hb, Hh.
  eexists. f_equal. f_equal.
  unfold with_view. simpl.
  rewrite invertTransactions_ledger.
  rewrite (delete_insert_id _ _ _ Hfresh), ledger_eta.
  unfold maintained_ledger. rewrite invert_apply_maintenance.
  rewrite ledger_inverted_after by done.
  rewrite (delete_insert_id _ _ _ Hfree). rewrite Hparent.
  destruct v as [[l path] cur]. done.
Qed.

(** *** Chains of blocks *)

Lemma in_tree_app (s : State) (h : Z) (xs ys : list Block) :
  in_tree s h (xs ++ ys) <->
  in_tree s h xs /\ in_tree s (h + Z.of_nat (length xs)) ys.
Proof.
  revert h. induction xs as [|x xs IH]; intros h; simpl.
  - rewrite Z.add_0_r. tauto.
  - rewrite IH. replace (h + 1 + Z.of_nat (length xs))
      with (h + Z.pos (Pos.of_succ_nat (length xs))) by lia. tauto.
Qed.

Lemma in_tree_lookup (s : State) (h : Z) (blocks : list Block) (i : nat) (b : Block) :
  in_tree s h blocks -> blocks !! i = Some b ->
  has_block s b (h + 1 + Z.of_nat i).
Proof.
  revert h i. induction blocks as [|x xs IH]; intros h i Ht Hi; [done |].
  destruct Ht as [Hx Hxs]. destruct i as [|i]; simpl in Hi.
  - injection Hi as <-. by rewrite Z.add_0_r.
  - specialize (IH _ _ Hxs Hi).
    by replace (h + 1 + Z.of_nat (S i)) with (h + 1 + 1 + Z.of_nat i) by lia.
Qed.

Lemma view_after_app (v : Ledger * gmap Z Z * Z) (h : Z) (xs ys : list Block) :
  view_after v h (xs ++ ys) =
  view_after (view_after v h xs) (h + Z.of_nat (length xs)) ys.
Proof.
  revert v h. induction xs as [|x xs IH]; intros v h; simpl.
  - by rewrite Z.add_0_r.
  - rewrite IH. by replace (h + 1 + Z.of_nat (length xs))
      with (h + Z.pos (Pos.of_succ_nat (length xs))) by lia.
Qed.

Lemma integrable_chain_app (v : Ledger * gmap Z Z * Z) (h : Z)
    (xs ys : list Block) :
  integrable_chain v h (xs ++ ys) <->
  integrable_chain v h xs /\
  integrable_chain (view_after v h xs) (h + Z.of_nat (length xs)) ys.
Proof.
  revert v h. induction xs as [|x xs IH]; intros v h; simpl.
  - rewrite Z.add_0_r. tauto.
  - rewrite IH. replace (h + 1 + Z.of_nat (length xs))
      with (h + Z.pos (Pos.of_succ_nat (length xs))) by lia. tauto.
Qed.

(** The path of the view after a chain: the entries of the chain above
    [h], the old entries elsewhere. *)
Lemma view_after_path_low (v : Ledger * gmap Z Z * Z) (h k : Z)
    (blocks : list Block) :
  k <= h -> (view_after v h blocks).1.2 !! k = v.1.2 !! k.
Proof.
  revert v h. induction blocks as [|b blocks IH]; intros v h Hk; simpl; [done |].
  rewrite IH by lia. simpl. apply lookup_insert_ne. lia.
Qed.

Lemma view_after_path (v : Ledger * gmap Z Z * Z) (h : Z)
    (blocks : list Block) (i : nat) (b : Block) :
  blocks !! i = Some b ->
  (view_after v h blocks).1.2 !! (h + 1 + Z.of_nat i) = Some (ID b).
Proof.
  revert v h i. induction blocks as [|x xs IH]; intros v h i Hi; [done |].
  destruct i as [|i]; simpl in *.
  - injection Hi as <-. rewrite view_after_path_low by lia. simpl.
    rewrite Z.add_0_r. apply lookup_insert_eq.
  - replace (h + 1 + Z.of_nat (S i)) with (h + 1 + 1 + Z.of_nat i) by lia.
    exact (IH _ (h + 1) i Hi).
Qed.

Lemma view_after_tip (v : Ledger * gmap Z Z * Z) (h : Z) (blocks : list Block)
    (b : Block) :
  (view_after v h (blocks ++ [b])).2 = ID b.
Proof. by rewrite view_after_app. Qed.

(** *** Heaps that differ in cached block diffs only *)

Lemma shape_set_NodeBlockDiff (bd : BlockDiff) (n : BlockNode) :
  shape (set_NodeBlockDiff bd n) = shape n.
Proof. done. Qed.

Lemma same_shape_insert (hp : list BlockNode) (p : nat) (n n' : BlockNode) :
  hp !! p = Some n -> shape n' = shape n ->
  shape <$> <[p := n']> hp = shape <$> hp.
Proof.
  intros Hp Hs. rewrite list_fmap_insert, Hs.
  apply list_insert_id. by rewrite list_lookup_fmap, Hp.
Qed.

Lemma same_shape_lookup (hp hp' : list BlockNode) (p : nat) (n : BlockNode) :
  shape <$> hp = shape <$> hp' -> hp !! p = Some n ->
  exists n', hp' !! p = Some n' /\ shape n' = shape n.
Proof.
  intros Heq Hp.
  assert (H : (shape <$> hp') !! p = Some (shape n))
    by (by rewrite <- Heq, list_lookup_fmap, Hp).
  rewrite list_lookup_fmap in H.
  destruct (hp' !! p) as [n'|] eqn:Hn'; simpl in H; [| done].
  exists n'. split; [done | congruence].
Qed.

Lemma has_block_same_shape (X X' : State) (b : Block) (h : Z) :
  shape <$> heap X = shape <$> heap X' -> blockMap X' = blockMap X ->
  has_block X b h -> has_block X' b h.
Proof.
  intros Hs Hm (p & n & Hmap & Hheap & Hb & Hh).
  destruct (same_shape_lookup _ _ _ _ Hs Hheap) as (n' & Hn' & Hsh).
  exists p, n'. rewrite Hm. injection Hsh as H1 H2 H3.
  split; [done | split; [done | split; congruence]].
Qed.

Lemma in_tree_same_shape (X X' : State) (h : Z) (blocks : list Block) :
  shape <$> heap X = shape <$> heap X' -> blockMap X' = blockMap X ->
  in_tree X h blocks -> in_tree X' h blocks.
Proof.
  intros Hs Hm. revert h. induction blocks as [|b blocks IH]; intros h; [done |].
  intros [Hb Ht]. split; [by eapply has_block_same_shape | by apply IH].
Qed.

Lemma child_links_same_shape (hp hp' : list BlockNode) :
  shape <$> hp = shape <$> hp' -> child_links hp -> child_links hp'.
Proof.
  intros Hs Hl p n' q Hp Hq.
  destruct (same_shape_lookup hp' hp p n' (eq_sym Hs) Hp) as (n & Hn & Hsh).
  injection Hsh as H1 H2 H3. rewrite <- H2 in Hq.
  destruct (Hl p n q Hn Hq) as (c & Hc & Hpar & Hh).
  destruct (same_shape_lookup hp hp' q c Hs Hc) as (c' & Hc' & Hsh').
  injection Hsh' as H1' H2' H3'. exists c'. split; [done |]. split; congruence.
Qed.

Lemma unique_ids_same_shape (hp hp' : list BlockNode) :
  shape <$> hp = shape <$> hp' -> unique_ids hp -> unique_ids hp'.
Proof.
  unfold unique_ids. intros Hs.
  assert (H : forall l : list BlockNode,
             (fun n => ID (NodeBlock n)) <$> l = (fun x => ID x.1.1) <$> (shape <$> l)).
  { intros l. rewrite <- list_fmap_compose. done. }
  by rewrite !H, Hs.
Qed.

(** *** The loops of the reorganisation on a chain *)

Lemma reintegrate_chain (X : State) (v : Ledger * gmap Z Z * Z) (h : Z)
    (blocks : list Block) :
  in_tree X h blocks -> integrable_chain v h blocks ->
  reintegrate blocks (with_view v X) =
    Ok (tt, with_view (view_after v h blocks) X).
Proof.
  revert v h. induction blocks as [|b blocks IH]; intros v h Ht Hc; [done |].
  destruct Ht as [Hb Ht]. destruct Hc as [(Hp & Hv & Hf & Hn) Hc]. simpl.
  rewrite (bind_Ok _ _ _ _ _ (integrateBlock_with_view X v b (h + 1) Hb Hv)).
  simpl. by apply IH.
Qed.

Lemma repeatM_invert_chain `{!CollaboratorLaws} (X : State)
    (v : Ledger * gmap Z Z * Z) (h : Z) (blocks : list Block) :
  in_tree X h blocks -> integrable_chain v h blocks ->
  repeatM (length blocks) invertRecentBlock
    (with_view (view_after v h blocks) X) = Ok (tt, with_view v X).
Proof.
  induction blocks as [|b blocks IH] using rev_ind; intros Ht Hc; [done |].
  apply in_tree_app in Ht as [Ht [Hb _]].
  apply integrable_chain_app in Hc as [Hc [Hi _]].
  rewrite length_app, Nat.add_1_r, view_after_app. simpl.
  destruct (invertRecentBlock_with_view X _ b _ Hb Hi) as [diffs Hrun].
  rewrite (bind_Ok _ _ _ _ _ Hrun). by apply IH.
Qed.

Lemma rewind_chain `{!CollaboratorLaws} (fuel : nat) (X : State)
    (v : Ledger * gmap Z Z * Z) (h : Z) (blocks : list Block) (vars : forkVars) :
  (length blocks < fuel)%nat ->
  in_tree X h blocks -> integrable_chain v h blocks ->
  Forall (fun b => ID b <> v.2) blocks ->
  exists vars',
    rewind fuel v.2 vars (with_view (view_after v h blocks) X) =
      Ok (vars', with_view v X) /\
    rewoundBlocks vars' = rewoundBlocks vars ++ rev blocks /\
    appliedBlocks vars' = appliedBlocks vars /\
    validatedBlocks vars' = validatedBlocks vars.
Proof.
  revert fuel vars.
  induction blocks as [|b blocks IH] using rev_ind; intros fuel vars Hfuel Ht Hc Hne.
  - destruct fuel as [|fuel]; [simpl in Hfuel; lia |]. simpl.
    rewrite bind_get. rewrite decide_False by (intros Hx; by apply Hx).
    exists vars. by rewrite app_nil_r.
  - destruct fuel as [|fuel]; [simpl in Hfuel; lia |].
    rewrite length_app in Hfuel. simpl in Hfuel.
    apply in_tree_app in Ht as [Ht [Hb _]].
    apply integrable_chain_app in Hc as [Hc [Hi _]].
    apply Forall_app in Hne as [Hne Hb'].
    rewrite Forall_singleton in Hb'.
    rewrite view_after_app. simpl.
    destruct (invertRecentBlock_with_view X _ b _ Hb Hi) as [diffs Hinv].
    destruct Hb as (p & n & Hmap & Hheap & Hnb & Hh).
    set (S1 := with_view (view_integrate _ b _) X) in *.
    rewrite bind_get. rewrite decide_True by done.
    rewrite (bind_Ok _ _ _ _ _ (CurrentBlock_ok S1 p n Hmap Hheap)).
    rewrite (bind_Ok _ _ _ _ _ (currentBlockNode_ok S1 p Hmap)).
    rewrite (bind_Ok _ _ _ _ _ (load_ok S1 p n Hheap)).
    rewrite (bind_Ok _ _ _ _ _ Hinv).
    match goal with
    | |- exists _, rewind _ _ ?V _ = _ /\ _ =>
        destruct (IH fuel V ltac:(lia) Ht Hc Hne) as (vars' & Hrun & Hr & Ha & Hval)
    end.
    exists vars'. split; [done |]. rewrite Hr, Ha, Hval. simpl.
    rewrite Hnb, rev_app_distr, <- app_assoc. done.
Qed.

Lemma store_with_view (v : Ledger * gmap Z Z * Z) (X : State) (p : nat)
    (n : BlockNode) :
  store p n (with_view v X) =
    Ok (tt, with_view v (set_heap (<[p := n]> (heap X)) X)).
Proof. done. Qed.

(** The validation loop on a prefix of blocks that integrate: the view
    advances along the chain, and the block diffs are cached on the nodes. *)
Lemma validate_good (fuel : nat) (sh : Z) (X : State)
    (v : Ledger * gmap Z Z * Z) (h : Z) (good : list Block) (ids : list Z)
    (vars : forkVars) :
  in_tree X h good -> integrable_chain v h good ->
  exists hp' vars',
    shape <$> hp' = shape <$> heap X /\
    validate fuel sh ((ID <$> good) ++ ids) vars (with_view v X) =
      validate fuel sh ids vars'
        (with_view (view_after v h good) (set_heap hp' X)) /\
    rewoundBlocks vars' = rewoundBlocks vars /\
    validatedBlocks vars' = (validatedBlocks vars + length good)%nat.
Proof.
  revert X v h vars. induction good as [|b good IH]; intros X v h vars Ht Hc.
  - exists (heap X), vars. split; [done |]. simpl.
    split; [by destruct X | split; [done | lia]].
  - destruct Ht as [Hb Ht]. destruct Hc as [Hi Hc].
    pose proof Hi as (Hp & Hv & Hf & Hn).
    pose proof Hb as (p & n & Hmap & Hheap & Hnb & Hh).
    simpl.
    rewrite (bind_Ok _ _ _ _ _ (blockMap_at_ok (with_view v X) _ p Hmap)).
    rewrite (bind_Ok _ _ _ _ _ (load_ok (with_view v X) p n Hheap)).
    rewrite Hnb.
    rewrite (bind_Ok _ _ _ _ _ (integrateBlock_with_view X v b (h + 1) Hb Hv)).
    simpl.
    set (v1 := view_integrate v b (h + 1)).
    rewrite (bind_Ok _ _ _ _ _ (blockMap_at_ok (with_view v1 X) _ p Hmap)).
    rewrite (bind_Ok _ _ _ _ _ (load_ok (with_view v1 X) p n Hheap)).
    rewrite (bind_Ok _ _ _ _ _ (store_with_view v1 X p _)).
    set (bd := integrate_diff v.1.1 b zeroBlockDiff (h + 1)).
    set (X1 := set_heap (<[p := set_NodeBlockDiff bd n]> (heap X)) X).
    assert (Hs1 : shape <$> heap X = shape <$> heap X1).
    { symmetry. by apply (same_shape_insert _ _ n). }
    assert (Ht1 : in_tree X1 (h + 1) good)
      by (by apply (in_tree_same_shape X X1)).
    match goal with
    | |- exists _ _, _ /\ validate _ _ _ ?V _ = _ /\ _ =>
        destruct (IH X1 v1 (h + 1) V Ht1 Hc) as (hp' & vars' & Hs & Hrun & Hr & Hval)
    end.
    exists hp', vars'. split; [by rewrite Hs |].
    split; [exact Hrun |]. rewrite Hr, Hval. simpl. split; [done | lia].
Qed.

Lemma last_cons_default (ys : list Block) (y d : Block) :
  List.last (y :: ys) d = List.last ys y.
Proof.
  revert y d. induction ys as [|z zs IH]; intros y d; [done |].
  change (List.last (y :: z :: zs) d) with (List.last (z :: zs) d).
  rewrite (IH z d). symmetry. apply (IH z y).
Qed.

Lemma last_id_last (xs : list Block) (d : Block) :
  last_id (ID d) xs = ID (List.last xs d).
Proof.
  revert d. induction xs as [|y xs IH]; intros d; [done |].
  simpl last_id. by rewrite IH, last_cons_default.
Qed.

Lemma linked_snoc (parent : Z) (xs : list Block) (x : Block) :
  linked parent (xs ++ [x]) <->
  linked parent xs /\ ParentBlockID x = last_id parent xs.
Proof.
  revert parent. induction xs as [|y xs IH]; intros parent; simpl.
  - tauto.
  - rewrite IH. tauto.
Qed.

Lemma off_path_snoc (s : State) (h : Z) (xs : list Block) (x : Block) :
  off_path s h (xs ++ [x]) <->
  off_path s h xs /\
  default 0 (currentPath s !! (h + Z.of_nat (length xs) + 1)) <> ID x.
Proof.
  revert h. induction xs as [|y xs IH]; intros h; simpl.
  - rewrite Z.add_0_r. tauto.
  - rewrite IH.
    replace (h + 1 + Z.of_nat (length xs) + 1)
      with (h + Z.pos (Pos.of_succ_nat (length xs)) + 1) by lia. tauto.
Qed.

Lemma in_tree_last (s : State) (a : Block) (h : Z) (xs : list Block) :
  has_block s a h -> in_tree s h xs ->
  has_block s (List.last xs a) (h + Z.of_nat (length xs)).
Proof.
  intros Ha Ht. destruct xs as [|x xs _] using rev_ind.
  - simpl. by rewrite Z.add_0_r.
  - apply in_tree_app in Ht as [_ [Hx _]].
    rewrite last_last, length_app. simpl.
    by replace (h + Z.of_nat (length xs + 1)) with (h + Z.of_nat (length xs) + 1) by lia.
Qed.

(** The walk from the tip of a branch that leaves the current path at the
    block [a]: it stops at the node of [a], with the ids of the branch from
    the tip down. *)
Lemma commonParent_chain (fuel : nat) (s : State) (a : Block) (ha : Z)
    (cs : list Block) (n : BlockNode) (hist : list Z) :
  has_block s a ha -> currentPath s !! ha = Some (ID a) ->
  in_tree s ha cs -> linked (ID a) cs -> off_path s ha cs ->
  (length cs < fuel)%nat ->
  NodeBlock n = List.last cs a -> Height n = ha + Z.of_nat (length cs) ->
  exists an,
    commonParent fuel n hist s = Ok ((an, hist ++ rev (ID <$> cs)), s) /\
    NodeBlock an = a.
Proof.
  intros Ha Hpath. revert fuel n hist.
  induction cs as [|c cs IH] using rev_ind;
    intros fuel n hist Ht Hl Ho Hfuel Hn Hh.
  - destruct fuel as [|fuel]; [simpl in Hfuel; lia |]. simpl in *.
    rewrite bind_get. rewrite Z.add_0_r in Hh. rewrite Hh, Hpath, Hn. simpl.
    rewrite decide_False by (intros Hx; by apply Hx).
    exists n. by rewrite app_nil_r.
  - destruct fuel as [|fuel]; [simpl in Hfuel; lia |].
    rewrite length_app in Hfuel, Hh. simpl in Hfuel, Hh.
    rewrite last_last in Hn.
    apply in_tree_app in Ht as [Ht _].
    apply linked_snoc in Hl as [Hl Hparent]. rewrite last_id_last in Hparent.
    apply off_path_snoc in Ho as [Ho Hoff].
    pose proof (in_tree_last s a ha cs Ha Ht) as (p & pn & Hmap & Hheap & Hpb & Hph).
    simpl. rewrite bind_get.
    replace (Height n) with (ha + Z.of_nat (length cs) + 1) by lia.
    rewrite Hn. rewrite decide_True by done.
    rewrite Hparent.
    rewrite (bind_Ok _ _ _ _ _ (blockMap_at_ok s _ p Hmap)).
    rewrite (bind_Ok _ _ _ _ _ (load_ok s p pn Hheap)).
    destruct (IH fuel pn (hist ++ [ID c]) Ht Hl Ho ltac:(lia) Hpb Hph)
      as (an & Hrun & Han).
    exists an. split; [| done]. rewrite Hrun.
    rewrite fmap_app, rev_app_distr. simpl. by rewrite <- app_assoc.
Qed.

(** *** The subtree of a node *)

Lemma reach_under (hp : list BlockNode) (p c q : nat) (n : BlockNode) :
  hp !! p = Some n -> c ∈ Children n -> reach hp c q -> reach hp p q.
Proof.
  intros Hp Hc Hr. induction Hr as [|q m c' Hr IH Hq Hc'].
  - eapply reach_child; [apply reach_refl | done | done].
  - eapply reach_child; [exact IH | done | done].
Qed.

Lemma in_subtree_under (hp : list BlockNode) (p c : nat) (n : BlockNode) (id : Z) :
  hp !! p = Some n -> c ∈ Children n ->
  in_subtree hp c id -> in_subtree hp p id.
Proof.
  intros Hp Hc (q & d & Hr & Hq & Hid). exists q, d.
  split; [by eapply reach_under | done].
Qed.

Lemma reach_height (hp : list BlockNode) (p q : nat) (n d : BlockNode) :
  child_links hp -> hp !! p = Some n -> reach hp p q -> hp !! q = Some d ->
  Height n <= Height d.
Proof.
  intros Hl Hp Hr. revert d. induction Hr as [|q m c Hr IH Hq Hc]; intros d Hd.
  - assert (n = d) by congruence. subst. lia.
  - destruct (Hl q m c Hq Hc) as (c' & Hc' & _ & Hh).
    assert (c' = d) by congruence. subst. specialize (IH m Hq). lia.
Qed.

Lemma unique_ids_ptr (hp : list BlockNode) (p q : nat) (n m : BlockNode) :
  unique_ids hp -> hp !! p = Some n -> hp !! q = Some m ->
  ID (NodeBlock n) = ID (NodeBlock m) -> p = q.
Proof.
  intros Hu Hp Hq Hid.
  apply (NoDup_lookup _ p q (ID (NodeBlock n)) Hu).
  - by rewrite list_lookup_fmap, Hp.
  - by rewrite list_lookup_fmap, Hq, Hid.
Qed.

Lemma heights_bounded (hp : list BlockNode) :
  exists Hmax, forall q m, hp !! q = Some m -> Height m <= Hmax.
Proof.
  induction hp as [|n hp [Hmax IH]].
  - exists 0. intros q m Hq. by rewrite lookup_nil in Hq.
  - exists (Z.max (Height n) Hmax). intros [|q] m Hq; simpl in Hq.
    + injection Hq as <-. lia.
    + specialize (IH q m Hq). lia.
Qed.

Lemma deletes_refl (hp : list BlockNode) (p : nat) (M : gmap Z nat) :
  deletes hp p M M.
Proof. intros id. by left. Qed.

Lemma deletes_trans (hp : list BlockNode) (p : nat) (M0 M1 M2 : gmap Z nat) :
  deletes hp p M0 M1 -> deletes hp p M1 M2 -> deletes hp p M0 M2.
Proof.
  intros H1 H2 id. destruct (H2 id) as [->|[-> Hs]]; [apply H1 | by right].
Qed.

Lemma deletes_under (hp : list BlockNode) (p c : nat) (n : BlockNode)
    (M0 M : gmap Z nat) :
  hp !! p = Some n -> c ∈ Children n ->
  deletes hp c M0 M -> deletes hp p M0 M.
Proof.
  intros Hp Hc H id. destruct (H id) as [->|[-> Hs]]; [by left | right].
  split; [done | by eapply in_subtree_under].
Qed.

(** [invalidateNode] terminates on a tree whose heights are bounded, deletes
    ids of the subtree only, and records the id of the node as bad. *)
Lemma invalidateNode_subtree (Hmax : Z) (fuel : nat) (X : State) (p : nat)
    (n : BlockNode) :
  child_links (heap X) ->
  (forall q m, heap X !! q = Some m -> Height m <= Hmax) ->
  heap X !! p = Some n ->
  Hmax - Height n < Z.of_nat fuel ->
  exists M B,
    invalidateNode fuel p X = Ok (tt, set_badBlocks B (set_blockMap M X)) /\
    deletes (heap X) p (blockMap X) M /\
    M !! ID (NodeBlock n) = None /\
    ID (NodeBlock n) ∈ B /\ badBlocks X ⊆ B.
Proof.
  intros Hl Hb. revert X p n Hl Hb.
  induction fuel as [|fuel IH]; intros X p n Hl Hb Hp Hfuel.
  - specialize (Hb p n Hp). lia.
  - simpl. rewrite (bind_Ok _ _ _ _ _ (load_ok X p n Hp)).
    assert (Hloop : forall cs M0 B0,
      (forall c, c ∈ cs -> c ∈ Children n) ->
      deletes (heap X) p (blockMap X) M0 -> badBlocks X ⊆ B0 ->
      exists M B,
        forM_ cs (invalidateNode fuel) (set_badBlocks B0 (set_blockMap M0 X)) =
          Ok (tt, set_badBlocks B (set_blockMap M X)) /\
        deletes (heap X) p (blockMap X) M /\ badBlocks X ⊆ B).
    { induction cs as [|c cs IHcs]; intros M0 B0 Hcs HM0 HB0.
      - exists M0, B0. by split.
      - assert (Hc : c ∈ Children n) by (apply Hcs; by left).
        destruct (Hl p n c Hp Hc) as (cn & Hcn & _ & Hch).
        destruct (IH (set_badBlocks B0 (set_blockMap M0 X)) c cn Hl Hb Hcn
                    ltac:(lia)) as (M1 & B1 & Hrun & HM1 & _ & _ & HB1).
        simpl in Hrun, HM1, HB1.
        destruct (IHcs M1 B1) as (M & B & Hrun' & HM & HB).
        { intros c' Hc'. apply Hcs. by right. }
        { eapply deletes_trans; [exact HM0 |]. by eapply deletes_under. }
        { set_solver. }
        exists M, B. split; [| by split].
        simpl. rewrite (bind_Ok _ _ _ _ _ Hrun). exact Hrun'. }
    destruct (Hloop (Children n) (blockMap X) (badBlocks X))
      as (M & B & Hrun & HM & HB); [done | apply deletes_refl | done |].
    assert (HX : set_badBlocks (badBlocks X) (set_blockMap (blockMap X) X) = X)
      by (by destruct X).
    rewrite HX in Hrun. rewrite (bind_Ok _ _ _ _ _ Hrun).
    rewrite (bind_Ok _ _ _ _ _
               (load_ok (set_badBlocks B (set_blockMap M X)) p n Hp)).
    exists (delete (ID (NodeBlock n)) M), ({[ID (NodeBlock n)]} ∪ B).
    split; [done |]. split; [| split; [apply lookup_delete_eq | set_solver]].
    intros id. destruct (decide (id = ID (NodeBlock n))) as [->|Hne].
    + right. split; [apply lookup_delete_eq |].
      exists p, n. split; [apply reach_refl | done].
    + rewrite lookup_delete_ne by done. apply HM.
Qed.

Lemma reach_head (hp : list BlockNode) (p q : nat) :
  reach hp p q ->
  q = p \/ exists n c, hp !! p = Some n /\ c ∈ Children n /\ reach hp c q.
Proof.
  induction 1 as [|q m c Hr IH Hq Hc]; [by left |]. right.
  destruct IH as [->|(n & c' & Hp & Hc' & Hr')].
  - exists m, c. split; [done |]. split; [done | apply reach_refl].
  - exists n, c'. split; [done |]. split; [done |]. by eapply reach_child.
Qed.

Lemma in_subtree_head (hp : list BlockNode) (p : nat) (n : BlockNode) (id : Z) :
  hp !! p = Some n ->
  in_subtree hp p id <->
  id = ID (NodeBlock n) \/ exists c, c ∈ Children n /\ in_subtree hp c id.
Proof.
  intros Hp. split.
  - intros (q & d & Hr & Hq & Hid).
    destruct (reach_head _ _ _ Hr) as [->|(n' & c & Hp' & Hc & Hr')].
    + left. congruence.
    + right. exists c. assert (n' = n) as -> by congruence.
      split; [done |]. by exists q, d.
  - intros [->|(c & Hc & Hs)].
    + exists p, n. split; [apply reach_refl | done].
    + by eapply in_subtree_under.
Qed.

Lemma invalidated_refl (P : Z -> Prop) (X : State) :
  (forall id, ~ P id) -> invalidated P X X.
Proof.
  intros HP. split; [by destruct X |]. split; [| split; [| done]].
  - intros id. split; [by left | intros [?|?]; [done | by destruct (HP id)]].
  - intros id ?. by destruct (HP id).
Qed.

Lemma invalidated_trans (P Q : Z -> Prop) (X X1 X2 : State) :
  invalidated P X X1 -> invalidated Q X1 X2 ->
  invalidated (fun id => P id \/ Q id) X X2.
Proof.
  intros (Hs1 & Hb1 & Hd1 & Hk1) (Hs2 & Hb2 & Hd2 & Hk2).
  split; [| split; [| split]].
  - unfold same_but_blocks in *. rewrite Hs2. rewrite Hs1. done.
  - intros id. rewrite Hb2, Hb1. tauto.
  - intros id HPQ.
    destruct (blockMap X2 !! id) as [x|] eqn:Hx; [| done]. exfalso.
    assert (HnQ : ~ Q id) by (intros HQ; rewrite (Hd2 id HQ) in Hx; done).
    rewrite (Hk2 id HnQ) in Hx.
    destruct HPQ as [HP|HQ]; [| done]. rewrite (Hd1 id HP) in Hx. done.
  - intros id Hn. rewrite Hk2, Hk1; tauto.
Qed.

Lemma invalidated_iff (P Q : Z -> Prop) (X X' : State) :
  (forall id, P id <-> Q id) -> invalidated P X X' -> invalidated Q X X'.
Proof.
  intros HPQ (Hs & Hb & Hd & Hk). split; [done |]. split; [| split].
  - intros id. rewrite Hb, HPQ. done.
  - intros id HQ. apply Hd, HPQ, HQ.
  - intros id HQ. apply Hk. by rewrite HPQ.
Qed.

Lemma invalidated_heap (P : Z -> Prop) (X X' : State) :
  invalidated P X X' -> heap X' = heap X.
Proof. intros (Hs & _). by rewrite Hs. Qed.

(** Whenever [invalidateNode] returns, it has recorded as bad, and deleted
    from the block map, the ids of the subtree of the node, and has written
    nothing else. *)
Lemma invalidateNode_post (fuel : nat) (p : nat) (X X' : State) :
  invalidateNode fuel p X = Ok (tt, X') ->
  invalidated (in_subtree (heap X) p) X X'.
Proof.
  revert p X X'. induction fuel as [|fuel IH]; intros p X X' H; [done |].
  simpl in H.
  apply bind_Ok_inv in H as (n & s1 & Hn & H).
  unfold load in Hn. rewrite bind_get in Hn.
  destruct (heap X !! p) as [n'|] eqn:Hp; [| done].
  inversion Hn; subst n' s1. clear Hn.
  apply bind_Ok_inv in H as ([] & X1 & Hloop & H).
  assert (Hcs : forall cs Y Y',
    heap Y = heap X ->
    forM_ cs (invalidateNode fuel) Y = Ok (tt, Y') ->
    invalidated (fun id => exists c, c ∈ cs /\ in_subtree (heap X) c id) Y Y').
  { induction cs as [|c cs IHcs]; intros Y Y' HY Hrun.
    - inversion Hrun; subst. apply invalidated_refl.
      intros id (c & Hc & _). by apply elem_of_nil in Hc.
    - simpl in Hrun. apply bind_Ok_inv in Hrun as ([] & Y1 & Hc & Hrun).
      apply IH in Hc. rewrite HY in Hc.
      assert (HY1 : heap Y1 = heap X)
        by (by rewrite (invalidated_heap _ _ _ Hc)).
      specialize (IHcs Y1 Y' HY1 Hrun).
      eapply invalidated_iff; [| exact (invalidated_trans _ _ _ _ _ Hc IHcs)].
      intros id. simpl. split.
      + intros [Hs|(c' & Hc' & Hs)].
        * exists c. split; [by left | done].
        * exists c'. split; [by right | done].
      + intros (c' & Hc' & Hs). apply elem_of_cons in Hc' as [->|Hc'].
        * by left.
        * right. by exists c'. }
  specialize (Hcs (Children n) X X1 eq_refl Hloop).
  assert (HX1 : heap X1 = heap X) by (by rewrite (invalidated_heap _ _ _ Hcs)).
  revert H. unfold_M. rewrite HX1, Hp. intros H. inversion H; subst X'. clear H.
  destruct Hcs as (Hs & Hb & Hd & Hk). split; [| split; [| split]].
  - unfold same_but_blocks in *. clear -Hs. destruct X, X1. simpl in *.
    by inversion Hs.
  - intros id. simpl. rewrite (in_subtree_head _ _ _ _ Hp).
    rewrite elem_of_union, elem_of_singleton, Hb. tauto.
  - intros id. simpl. rewrite (in_subtree_head _ _ _ _ Hp).
    intros [->|Hc]; [apply lookup_delete_eq |].
    destruct (decide (id = ID (NodeBlock n))) as [->|Hne];
      [apply lookup_delete_eq |].
    rewrite lookup_delete_ne by done. by apply Hd.
  - intros id. simpl. rewrite (in_subtree_head _ _ _ _ Hp). intros Hn.
    rewrite lookup_delete_ne by (intros <-; apply Hn; by left).
    apply Hk. intros Hc. apply Hn. by right.
Qed.

Lemma reach_same_shape (hp hp' : list BlockNode) (p q : nat) :
  shape <$> hp = shape <$> hp' -> reach hp p q -> reach hp' p q.
Proof.
  intros Hs. induction 1 as [|q n c Hr IH Hq Hc]; [apply reach_refl |].
  destruct (same_shape_lookup hp hp' q n Hs Hq) as (n' & Hn' & Hsh).
  injection Hsh as _ Hch _. apply (reach_child hp' p q n'); [done | done |].
  by rewrite Hch.
Qed.

Lemma in_subtree_same_shape (hp hp' : list BlockNode) (p : nat) (id : Z) :
  shape <$> hp = shape <$> hp' -> in_subtree hp p id -> in_subtree hp' p id.
Proof.
  intros Hs (q & d & Hr & Hq & Hid).
  destruct (same_shape_lookup hp hp' q d Hs Hq) as (d' & Hd' & Hsh).
  injection Hsh as Hb _ _. exists q, d'.
  split; [by apply (reach_same_shape hp) |]. split; [done | congruence].
Qed.

Lemma linked_lookup (parent : Z) (chain : list Block) (i : nat) (b : Block) :
  linked parent chain -> chain !! i = Some b ->
  match i with
  | O => ParentBlockID b = parent
  | S j => exists b', chain !! j = Some b' /\ ParentBlockID b = ID b'
  end.
Proof.
  revert parent i. induction chain as [|x xs IH]; intros parent i Hl Hi; [done |].
  destruct Hl as [Hx Hl]. destruct i as [|i]; simpl in Hi.
  - by injection Hi as <-.
  - specialize (IH (ID x) i Hl Hi). destruct i as [|i].
    + exists x. by split.
    + destruct IH as (b' & Hb' & Hp). by exists b'.
Qed.

(** No block of a chain above [a] lies in the subtree of a node that is
    higher than [a] and is not the block of the chain at its own height. *)
Lemma subtree_avoids_chain (X : State) (a : Block) (ha : Z)
    (chain : list Block) (pbad : nat) (nb : BlockNode) :
  unique_ids (heap X) -> child_links (heap X) ->
  has_block X a ha -> in_tree X ha chain -> linked (ID a) chain ->
  heap X !! pbad = Some nb -> ha < Height nb ->
  (forall i b, chain !! i = Some b -> ha + 1 + Z.of_nat i = Height nb ->
               ID b <> ID (NodeBlock nb)) ->
  forall i b, chain !! i = Some b -> ~ in_subtree (heap X) pbad (ID b).
Proof.
  intros Hu Hl Ha Ht Hlk Hbad Hhigh Hoff i b Hi (q & d & Hr & Hq & Hid).
  revert i b d Hi Hq Hid.
  induction Hr as [|q m c Hr IH Hm Hc]; intros i b d Hi Hq Hid.
  - assert (d = nb) by congruence. subst d.
    destruct (in_tree_lookup X ha chain i b Ht Hi)
      as (pb & bn & Hmap & Hheap & Hbn & Hbh).
    assert (pbad = pb)
      by (apply (unique_ids_ptr (heap X) pbad pb nb bn); congruence).
    subst pb. assert (bn = nb) by congruence. subst bn.
    apply (Hoff i b Hi); [lia | congruence].
  - destruct (in_tree_lookup X ha chain i b Ht Hi)
      as (pb & bn & Hmap & Hheap & Hbn & Hbh).
    assert (c = pb)
      by (apply (unique_ids_ptr (heap X) c pb d bn); congruence).
    subst pb. assert (bn = d) by congruence. subst bn.
    destruct (Hl q m c Hm Hc) as (d' & Hd' & Hparent & Hheight).
    assert (d' = d) by congruence. subst d'.
    pose proof (linked_lookup _ _ _ _ Hlk Hi) as Hlink.
    destruct i as [|j].
    + destruct Ha as (pa & an & Hamap & Haheap & Hanb & Hah).
      assert (q = pa).
      { apply (unique_ids_ptr (heap X) q pa m an); try done.
        rewrite Hanb, <- Hlink, <- Hparent. congruence. }
      subst pa. assert (an = m) by congruence. subst an.
      pose proof (reach_height _ _ _ _ _ Hl Hbad Hr Hm). lia.
    + destruct Hlink as (b' & Hb' & Hp').
      apply (IH j b' m Hb' Hm). rewrite <- Hp', <- Hbn. congruence.
Qed.

(** *** Facts about the chains of a fork *)

Lemma has_block_height (s : State) (b b' : Block) (h h' : Z) :
  has_block s b h -> has_block s b' h' -> ID b = ID b' -> h = h'.
Proof.
  intros (p & n & Hmap & Hheap & Hb & Hh) (p' & n' & Hmap' & Hheap' & Hb' & Hh') Hid.
  rewrite Hid in Hmap. congruence.
Qed.

Lemma in_tree_ids_differ (s : State) (a : Block) (h : Z) (blocks : list Block) :
  has_block s a h -> in_tree s h blocks ->
  Forall (fun b => ID b <> ID a) blocks.
Proof.
  intros Ha Ht. apply Forall_lookup. intros i b Hi Hid.
  pose proof (in_tree_lookup s h blocks i b Ht Hi) as Hb.
  pose proof (has_block_height s b a _ _ Hb Ha Hid). lia.
Qed.

Lemma integrable_chain_linked (v : Ledger * gmap Z Z * Z) (h : Z)
    (blocks : list Block) :
  integrable_chain v h blocks -> linked v.2 blocks.
Proof.
  revert v h. induction blocks as [|b blocks IH]; intros v h Hc; [done |].
  destruct Hc as [(Hp & _) Hc]. split; [done |]. apply (IH _ _ Hc).
Qed.

Lemma off_path_lookup (s : State) (h : Z) (blocks : list Block) (i : nat)
    (b : Block) :
  off_path s h blocks -> blocks !! i = Some b ->
  default 0 (currentPath s !! (h + 1 + Z.of_nat i)) <> ID b.
Proof.
  revert h i. induction blocks as [|x xs IH]; intros h i Ho Hi; [done |].
  destruct Ho as [Hx Ho]. destruct i as [|i]; simpl in Hi.
  - injection Hi as <-. by rewrite Z.add_0_r.
  - replace (h + 1 + Z.of_nat (S i)) with (h + 1 + 1 + Z.of_nat i) by lia.
    by apply IH.
Qed.

Lemma linked_prefix (parent : Z) (xs ys : list Block) :
  linked parent (xs ++ ys) -> linked parent xs.
Proof.
  revert parent. induction xs as [|x xs IH]; intros parent; [done |].
  intros [Hx Hl]. split; [done | by apply IH].
Qed.

Lemma last_app_cons (xs ys : list Block) (y d : Block) :
  List.last (xs ++ y :: ys) d = List.last (y :: ys) y.
Proof.
  induction xs as [|x xs IH].
  - simpl app. by rewrite !last_cons_default.
  - rewrite <- app_comm_cons, last_cons_default.
    destruct xs as [|x' xs]; [simpl app; by rewrite !last_cons_default |].
    rewrite <- IH. rewrite <- !app_comm_cons. by rewrite !last_cons_default.
Qed.

(** Blocks whose entry of [blockMap] is kept stay in the tree. *)
Lemma in_tree_kept (X X' : State) (h : Z) (blocks : list Block) :
  shape <$> heap X = shape <$> heap X' ->
  (forall i b, blocks !! i = Some b -> blockMap X' !! ID b = blockMap X !! ID b) ->
  in_tree X h blocks -> in_tree X' h blocks.
Proof.
  intros Hs. revert h. induction blocks as [|b blocks IH]; intros h Hk; [done |].
  intros [(p & n & Hmap & Hheap & Hb & Hh) Ht]. split.
  - destruct (same_shape_lookup _ _ _ _ Hs Hheap) as (n' & Hn' & Hsh).
    injection Hsh as H1 H2 H3. exists p, n'.
    rewrite (Hk O b eq_refl). split; [done | split; [done | split; congruence]].
  - apply IH; [| done]. intros i b' Hi. by apply (Hk (S i)).
Qed.

Lemma child_links_b_sound (hp : list BlockNode) :
  child_links_b hp = true -> child_links hp.
Proof.
  unfold child_links_b. rewrite forallb_forall. intros H p n q Hp Hq.
  specialize (H n). rewrite forallb_forall in H.
  assert (Hn : In n hp) by (apply list_elem_of_In; by eapply list_elem_of_lookup_2).
  specialize (H Hn q (proj1 (list_elem_of_In _ _) Hq)).
  destruct (hp !! q) as [c|]; [| done]. exists c.
  apply andb_true_iff in H as [H1 H2]. split; [done |]. split; lia.
Qed.

(** *** Reorg atomicity *)

(** The run of [forkBlockchain] in the situation of an unsuccessful fork
    attempt: the state [X] in which the integration of [bad] fails, the
    state [Xf] after the invalidation, and the two loops of the rollback. *)
Lemma forkBlockchain_rollback_run `{!CollaboratorLaws} (s : State)
    (newNode : nat) (v0 : Ledger * gmap Z Z * Z) (a : Block) (ha : Z)
    (rs good : list Block) (bad : Block) (tail : list Block) :
  failing_fork s newNode v0 a ha rs good bad tail ->
  exists fuel0, forall fuel, (fuel0 <= fuel)%nat ->
    exists pbad X Xf,
      blockMap s !! ID bad = Some pbad /\
      X = with_view (view_after v0 ha good) (set_heap (heap X) s) /\
      shape <$> heap s = shape <$> heap X /\
      (exists diffs e bd,
         integrateBlock bad zeroBlockDiff X = Ok ((diffs, Some e, bd), X)) /\
      invalidateNode fuel pbad X = Ok (tt, Xf) /\
      repeatM (length good) invertRecentBlock Xf = Ok (tt, with_view v0 Xf) /\
      reintegrate rs (with_view v0 Xf) =
        Ok (tt, with_view (consensus_view s) Xf) /\
      forkBlockchain fuel newNode s =
        Ok (([], [], [], None),
            set_transactionPool
              (cleanTransactionPool (ledger s) (transactionPool s))
              (with_view (consensus_view s) Xf)) /\
      in_tree Xf ha rs.
Proof.
  intros [Hu Hl Ha Hpath Hv0 Hrt Hview Hrc Hbt Hbl Hbo Htip Hgc Hbad].
  destruct (heights_bounded (heap s)) as [Hmax Hbound].
  exists (S (length (good ++ bad :: tail) + length rs + Z.to_nat (Hmax - ha))).
  intros fuel Hfuel.
  enough (exists X Xf,
            forkBlockchain fuel newNode s =
              Ok (([], [], [], None),
                  set_transactionPool
                    (cleanTransactionPool (ledger s) (transactionPool s))
                    (with_view (consensus_view s) Xf)) /\
            exists pbad,
              blockMap s !! ID bad = Some pbad /\
              X = with_view (view_after v0 ha good) (set_heap (heap X) s) /\
              shape <$> heap s = shape <$> heap X /\
              (exists diffs e bd,
                 integrateBlock bad zeroBlockDiff X =
                   Ok ((diffs, Some e, bd), X)) /\
              invalidateNode fuel pbad X = Ok (tt, Xf) /\
              repeatM (length good) invertRecentBlock Xf =
                Ok (tt, with_view v0 Xf) /\
              reintegrate rs (with_view v0 Xf) =
                Ok (tt, with_view (consensus_view s) Xf) /\
              in_tree Xf ha rs) as (X & Xf & Hfork & pbad & H1 & H2 & H3 & H4 &
                                    H5 & H6 & H7 & H8).
  { exists pbad, X, Xf. by split_and!. }
  (* the tip of the branch is the new node *)
  pose proof (in_tree_last s a ha _ Ha Hbt) as (pt & nt & Htmap & Htheap & Htb & Hth).
  rewrite last_app_cons in Htmap.
  assert (pt = newNode) by congruence. subst pt.
  (* the walk to the common parent *)
  destruct (commonParent_chain fuel s a ha (good ++ bad :: tail) nt []
              Ha Hpath Hbt Hbl Hbo ltac:(lia) Htb Hth) as (an & Hwalk & Han).
  unfold forkBlockchain.
  rewrite (bind_Ok _ _ _ _ _ (load_ok s newNode nt Htheap)).
  rewrite (bind_Ok _ _ _ _ _ Hwalk). simpl.
  (* the state hash before the attempt *)
  set (hash0 := StateHash (ledger s) (currentPath s) (currentBlockID s)).
  set (sh := if DEBUG then hash0 else 0).
  assert (Hsh : (if DEBUG then State_StateHash else ret 0) s = Ok (sh, s))
    by (unfold sh; by destruct DEBUG).
  rewrite (bind_Ok _ _ _ _ _ Hsh).
  (* the rewinding of the current path *)
  rewrite Han, <- Hv0.
  assert (Hrs_ne : Forall (fun b => ID b <> v0.2) rs)
    by (rewrite Hv0; by apply (in_tree_ids_differ s a ha)).
  match goal with
  | |- exists _ _, bind (rewind _ _ ?V) _ _ = _ /\ _ =>
      destruct (rewind_chain fuel s v0 ha rs V ltac:(lia) Hrt Hrc Hrs_ne)
        as (vars1 & Hrew & Hr1 & Ha1 & Hval1)
  end.
  rewrite <- Hview, with_view_view in Hrew.
  rewrite (bind_Ok _ _ _ _ _ Hrew). simpl in Hr1, Ha1, Hval1.
  (* the replay of the blocks that integrate *)
  rewrite rev_involutive, fmap_app, fmap_cons.
  apply in_tree_app in Hbt as [Hgt [Hbb Htt]].
  destruct (validate_good fuel sh s v0 ha good (ID bad :: (ID <$> tail)) vars1
              Hgt Hgc) as (hp' & vars2 & Hs & Hrun & Hr2 & Hval2).
  unfold bind at 1. rewrite Hrun. clear Hrun.
  set (vg := view_after v0 ha good) in *.
  set (X2 := set_heap hp' s).
  assert (Hs2 : shape <$> heap s = shape <$> heap X2) by done.
  (* the failing block *)
  pose proof (has_block_same_shape s X2 bad _ Hs2 eq_refl Hbb)
    as (pbad & nb & Hbmap & Hbheap & Hbnb & Hbh).
  simpl.
  rewrite (bind_Ok _ _ _ _ _ (blockMap_at_ok (with_view vg X2) _ pbad Hbmap)).
  rewrite (bind_Ok _ _ _ _ _ (load_ok (with_view vg X2) pbad nb Hbheap)).
  rewrite Hbnb.
  destruct (integrateBlock_fails_with_view X2 vg bad Hbad)
    as (diffs & e & bd & Hfail).
  rewrite (bind_Ok _ _ _ _ _ Hfail). simpl.
  rewrite (bind_Ok _ _ _ _ _ (blockMap_at_ok (with_view vg X2) _ pbad Hbmap)).
  (* the invalidation of its subtree *)
  assert (Hl2 : child_links (heap X2)) by (by apply (child_links_same_shape (heap s))).
  assert (Hu2 : unique_ids (heap X2)) by (by apply (unique_ids_same_shape (heap s))).
  assert (Hbound2 : forall q m, heap X2 !! q = Some m -> Height m <= Hmax).
  { intros q m Hq.
    destruct (same_shape_lookup (heap X2) (heap s) q m (eq_sym Hs2) Hq)
      as (m' & Hm' & Hsh').
    injection Hsh' as _ _ Hh'. rewrite <- Hh'. by apply (Hbound q). }
  destruct (invalidateNode_subtree Hmax fuel (with_view vg X2) pbad nb
              Hl2 Hbound2 Hbheap ltac:(lia))
    as (M & B & Hinval & Hdel & HMbad & HBbad & HBsub).
  rewrite (bind_Ok _ _ _ _ _ Hinval).
  set (X3 := set_badBlocks B (set_blockMap M X2)).
  change (set_badBlocks B (set_blockMap M (with_view vg X2)))
    with (with_view vg X3).
  (* the blocks of both chains are still in the tree *)
  assert (Hkeep : forall chain, in_tree X2 ha chain -> linked (ID a) chain ->
            (forall i b, chain !! i = Some b ->
               ha + 1 + Z.of_nat i = Height nb -> ID b <> ID (NodeBlock nb)) ->
            in_tree X3 ha chain).
  { intros chain Hct Hcl Hoff. apply (in_tree_kept X2 X3); [done | | done].
    intros i b Hi. destruct (Hdel (ID b)) as [Heq|[_ Hsub]]; [done |].
    exfalso.
    apply (subtree_avoids_chain X2 a ha chain pbad nb Hu2 Hl2
             (has_block_same_shape s X2 a ha Hs2 eq_refl Ha)
             Hct Hcl Hbheap ltac:(lia) Hoff i b Hi Hsub). }
  assert (Hgt3 : in_tree X3 ha good).
  { apply Hkeep.
    - by apply (in_tree_same_shape s X2).
    - by apply (linked_prefix _ _ (bad :: tail)).
    - intros i b Hi Hh. apply lookup_lt_Some in Hi. lia. }
  assert (Hrt3 : in_tree X3 ha rs).
  { apply Hkeep.
    - by apply (in_tree_same_shape s X2).
    - rewrite <- Hv0. by apply (integrable_chain_linked v0 ha).
    - intros i b Hi Hh Hid.
      pose proof (off_path_lookup s ha (good ++ bad :: tail) (length good) bad Hbo)
        as Hoff.
      rewrite lookup_app_r, Nat.sub_diag in Hoff by lia.
      specialize (Hoff eq_refl).
      assert (Hp : currentPath s = (view_after v0 ha rs).1.2)
        by (by rewrite <- Hview).
      rewrite Hp in Hoff.
      replace (ha + 1 + Z.of_nat (length good)) with (ha + 1 + Z.of_nat i) in Hoff by lia.
      rewrite (view_after_path v0 ha rs i b Hi) in Hoff. simpl in Hoff.
      rewrite Hbnb in Hid. done. }
  (* the inversion of the replayed blocks *)
  rewrite Hval2, Hval1. simpl.
  pose proof (repeatM_invert_chain X3 v0 ha good Hgt3 Hgc) as Hunwind.
  fold vg in Hunwind. rewrite (bind_Ok _ _ _ _ _ Hunwind).
  (* the integration of the rewound blocks *)
  rewrite Hr2, Hr1. simpl. rewrite rev_involutive.
  pose proof (reintegrate_chain X3 v0 ha rs Hrt3 Hrc) as Hre.
  rewrite <- Hview in Hre.
  rewrite (bind_Ok _ _ _ _ _ Hre).
  (* the check of the state hash *)
  assert (Hcheck :
    (if DEBUG
     then h <- State_StateHash ;;
          if decide (sh <> h)
          then panic "state hash does not match after an unsuccessful fork attempt"
          else ret tt
     else ret tt) (with_view (consensus_view s) X3)
    = Ok (tt, with_view (consensus_view s) X3)).
  { unfold sh. destruct DEBUG; [| done].
    unfold State_StateHash. unfold_M. simpl.
    fold hash0. by rewrite decide_False by (intros Hx; by apply Hx). }
  rewrite (bind_Ok _ _ _ _ _ Hcheck). simpl.
  (* the outcome *)
  exists (with_view vg X2), (with_view vg X3). split; [reflexivity |].
  exists pbad.
  split; [exact Hbmap |].
  split; [by destruct vg as [[? ?] ?] |].
  split; [by rewrite heap_with_view |].
  split; [by exists diffs, e, bd |].
  split; [exact Hinval |].
  split; [exact Hunwind |]. split; [exact Hre |].
  by apply (in_tree_same_shape X3).
Qed.

(** C1. In a state that satisfies the invariants, a fork attempt whose
    replay fails at some block runs the rollback protocol and is a no-op on
    the consensus state.  With enough fuel for its loops [forkBlockchain]
    returns, and it returns empty lists of rewound blocks, applied blocks
    and output diffs.  In the state [X] reached by the replay of [good], which
    is the state before the call with the view after [good] and with block
    diffs cached on nodes, the integration of the failing block [bad]
    fails and leaves [X] as it is.
    The subtree of its node is then invalidated: [invalidateNode] returns
    in a state [Xf]; the ids recorded as bad by the call are exactly the
    ids of the blocks in the subtree, exactly these ids are deleted from
    the block map, and so the failing block and every block of [tail] is
    recorded as bad and gone from the block map.  In [Xf] the replayed
    blocks [good] are inverted, last first, which leads back to the view at
    the common parent, and the rewound blocks [rs] are integrated again,
    which leads back to the view of the state before the call.  The
    unspent outputs, the contract state, the current path and the current
    block id, and so the state hash, are those before the call; the nodes
    keep their blocks, children and heights, and nothing is published to
    the subscribers. *)
Theorem forkBlockchain_atomic `{!CollaboratorLaws} (s : State) (newNode : nat)
    (v0 : Ledger * gmap Z Z * Z) (a : Block) (ha : Z) (rs good : list Block)
    (bad : Block) (tail : list Block) :
  failing_fork s newNode v0 a ha rs good bad tail ->
  children_chain s (bad :: tail) ->
  exists fuel0, forall fuel, (fuel0 <= fuel)%nat ->
    exists pbad X Xf s',
      forkBlockchain fuel newNode s = Ok (([], [], [], None), s') /\
      blockMap s !! ID bad = Some pbad /\
      X = with_view (view_after v0 ha good) (set_heap (heap X) s) /\
      shape <$> heap X = shape <$> heap s /\
      consensus_view X = view_after v0 ha good /\
      (exists diffs e bd,
         integrateBlock bad zeroBlockDiff X = Ok ((diffs, Some e, bd), X)) /\
      invalidateNode fuel pbad X = Ok (tt, Xf) /\
      consensus_view Xf = view_after v0 ha good /\
      ID bad ∈ badBlocks Xf /\ blockMap Xf !! ID bad = None /\
      repeatM (length good) invertRecentBlock Xf = Ok (tt, with_view v0 Xf) /\
      reintegrate rs (with_view v0 Xf) =
        Ok (tt, with_view (consensus_view s) Xf) /\
      s' = set_transactionPool
             (cleanTransactionPool (ledger s) (transactionPool s))
             (with_view (consensus_view s) Xf) /\
      consensus_view s' = consensus_view s /\
      StateHash (ledger s') (currentPath s') (currentBlockID s') =
        StateHash (ledger s) (currentPath s) (currentBlockID s) /\
      ID bad ∈ badBlocks s' /\ blockMap s' !! ID bad = None /\
      in_tree s' ha rs /\
      notifications s' = notifications s /\
      (forall id, id ∈ badBlocks s' <->
                  id ∈ badBlocks s \/ in_subtree (heap s) pbad id) /\
      (forall id, in_subtree (heap s) pbad id -> blockMap s' !! id = None) /\
      (forall id, ~ in_subtree (heap s) pbad id ->
                  blockMap s' !! id = blockMap s !! id) /\
      Forall (fun b => in_subtree (heap s) pbad (ID b) /\
                       ID b ∈ badBlocks s' /\ blockMap s' !! ID b = None)
             (bad :: tail) /\
      shape <$> heap s' = shape <$> heap s.
Proof.
  intros Hff Hch.
  destruct (forkBlockchain_rollback_run s newNode v0 a ha rs good bad tail Hff)
    as (fuel0 & Hrun).
  exists fuel0. intros fuel Hfuel.
  destruct (Hrun fuel Hfuel)
    as (pbad & X & Xf & Hpbad & HX & Hsh & Hfail & Hinval & Hunwind & Hre &
        Hfork & Hrt).
  pose proof (invalidateNode_post _ _ _ _ Hinval) as Hpost.
  assert (Hsub : forall id,
            in_subtree (heap X) pbad id <-> in_subtree (heap s) pbad id).
  { intros id. split; apply in_subtree_same_shape; [by symmetry | done]. }
  apply (invalidated_iff _ _ _ _ Hsub) in Hpost.
  destruct Hpost as (Hsame & Hbadx & Hdel & Hkeep).
  assert (HbX : badBlocks X = badBlocks s) by (by rewrite HX).
  assert (HmX : blockMap X = blockMap s) by (by rewrite HX).
  assert (HvX : consensus_view X = view_after v0 ha good).
  { rewrite HX. by destruct (view_after v0 ha good) as [[? ?] ?]. }
  assert (HvXf : consensus_view Xf = view_after v0 ha good).
  { rewrite Hsame. exact HvX. }
  assert (HhXf : heap Xf = heap X) by (by rewrite Hsame).
  rewrite HbX in Hbadx. rewrite HmX in Hkeep.
  (* the blocks of the failing branch lie in the subtree *)
  destruct Hff as [Hu Hl Ha Hpath Hv0 Hrtree Hview Hrc Hbt Hbl Hbo Htip Hgc Hbad].
  apply in_tree_app in Hbt as [_ Hbt].
  assert (Htail : forall h chain p0,
            in_tree s h chain -> children_chain s chain ->
            (forall b, chain !! 0%nat = Some b ->
               blockMap s !! ID b = Some p0 /\ reach (heap s) pbad p0) ->
            Forall (fun b => in_subtree (heap s) pbad (ID b)) chain).
  { intros h chain. revert h.
    induction chain as [|b chain IH]; intros h p0 Hin Hcc H0; [done |].
    destruct (H0 b eq_refl) as [Hb Hr].
    destruct Hin as [(p & n & Hmap & Hheap & Hnb & _) Hin].
    assert (p = p0) by congruence. subst p.
    apply Forall_cons. split.
    - exists p0, n. split; [done |]. split; [done | by rewrite Hnb].
    - destruct chain as [|c chain]; [done |].
      destruct Hcc as [(p' & n' & q & Hp' & Hn' & Hq & Hc) Hcc].
      assert (p' = p0) by congruence. subst p'.
      assert (n' = n) by congruence. subst n'.
      apply (IH (h + 1) q Hin Hcc). intros b' [= <-]. split; [done |].
      by apply (reach_child (heap s) pbad p0 n). }
  specialize (Htail _ (bad :: tail) pbad Hbt Hch).
  assert (Hin_sub : Forall (fun b => in_subtree (heap s) pbad (ID b)) (bad :: tail)).
  { apply Htail. intros b [= <-]. split; [done | apply reach_refl]. }
  assert (Hself : in_subtree (heap s) pbad (ID bad))
    by (by apply Forall_cons in Hin_sub as [? _]).
  exists pbad, X, Xf. eexists. split; [exact Hfork |].
  split; [done |]. split; [exact HX |]. split; [by symmetry |].
  split; [done |]. split; [done |]. split; [done |].
  split; [done |].
  split; [apply Hbadx; by right |]. split; [by apply Hdel |].
  split; [done |]. split; [done |]. split; [reflexivity |].
  split; [reflexivity |]. split; [reflexivity |].
  split; [simpl; apply Hbadx; by right |].
  split; [simpl; by apply Hdel |].
  split; [by apply (in_tree_same_shape Xf) |].
  split; [simpl; by rewrite Hsame, HX |].
  split; [exact Hbadx |]. split; [exact Hdel |]. split; [exact Hkeep |].
  split.
  - apply (Forall_impl _ _ _ Hin_sub). intros b Hb.
    split; [done |]. split; [apply Hbadx; by right | by apply Hdel].
  - simpl. rewrite HhXf. by symmetry.
Qed.

(** ** Further properties of the engine *)

(** *** checkDestiny and the orphan pool *)

Lemma handleOrphanBlock_cases (s : State) (b : Block) :
  blockMap s !! ParentBlockID b = None ->
  (orphan_recorded s b /\ handleOrphanBlock b s = Ok (Some KnownOrphanErr, s)) \/
  (~ orphan_recorded s b /\
   handleOrphanBlock b s = Ok (Some UnknownOrphanErr, stage s b)).
Proof.
  intros Hparent. unfold handleOrphanBlock, orphan_recorded, stage. unfold_M.
  rewrite Hparent.
  replace (DEBUG && bool_decide (is_Some (@None nat))) with false
    by (rewrite bool_decide_eq_false_2; [by rewrite andb_false_r | by inversion 1]).
  destruct (missingParents s !! ParentBlockID b) as [mp|] eqn:Hmp; simpl.
  - destruct (mp !! ID b) as [b'|] eqn:Hb.
    + left. split; [| done]. exists mp. split; [done | by exists b'].
    + right. split; [| done]. intros (mp' & Heq & [x Hx]). congruence.
  - right. split; [| done]. intros (mp' & Heq & _). congruence.
Qed.

Lemma checkDestiny_nil_inv (s s' : State) (b : Block) :
  checkDestiny b s = Ok (None, s') ->
  s' = s /\ (ID b ∉ badBlocks s) /\ blockMap s !! ID b = None /\
  is_Some (blockMap s !! ParentBlockID b).
Proof.
  unfold checkDestiny. rewrite bind_get.
  destruct (decide (ID b ∈ badBlocks s)) as [Hbad|Hbad]; [done |].
  destruct (blockMap s !! ID b) as [p|] eqn:Hid; [done |].
  destruct (blockMap s !! ParentBlockID b) as [q|] eqn:Hpar.
  - intros H. inversion H; subst. by split_and!.
  - intros H.
    destruct (handleOrphanBlock_cases s b Hpar) as [[_ Hc]|[_ Hc]];
      rewrite Hc in H; inversion H.
Qed.

(** X1. [checkDestiny] returns the nil error exactly when the id of the
    block is neither recorded as bad nor in the block map and the parent of
    the block is in the block map; the state is then as it was. *)
Theorem checkDestiny_nil_iff (s s' : State) (b : Block) :
  checkDestiny b s = Ok (None, s') <->
  (ID b ∉ badBlocks s) /\ blockMap s !! ID b = None /\
  is_Some (blockMap s !! ParentBlockID b) /\ s' = s.
Proof.
  split.
  - intros H. apply checkDestiny_nil_inv in H. tauto.
  - intros (Hbad & Hid & [q Hpar] & ->).
    unfold checkDestiny. rewrite bind_get.
    rewrite decide_False by done. by rewrite Hid, Hpar.
Qed.

(** X2. [checkDestiny] never panics, also under DEBUG: it calls
    [handleOrphanBlock] only when the parent is absent from the block map.
    It changes nothing but the orphan pool, and that only when it answers
    [UnknownOrphanErr].  An id recorded as bad is reported as invalid
    whatever else is known about the block. *)
Theorem checkDestiny_total (s : State) (b : Block) :
  exists r s',
    checkDestiny b s = Ok (r, s') /\
    s' = set_missingParents (missingParents s') s /\
    (r = Some UnknownOrphanErr \/ s' = s) /\
    (ID b ∈ badBlocks s <->
     r = Some invalidError).
Proof.
  assert (Hs : s = set_missingParents (missingParents s) s) by by destruct s.
  unfold checkDestiny. rewrite bind_get.
  destruct (decide (ID b ∈ badBlocks s)) as [Hbad|Hbad].
  { eexists _, s. split; [done |]. split; [done |]. split; [by right |]. done. }
  destruct (blockMap s !! ID b) as [p|] eqn:Hid.
  { eexists _, s. split; [done |]. split; [done |]. split; [by right |].
    split; [done | intros H; inversion H]. }
  destruct (blockMap s !! ParentBlockID b) as [q|] eqn:Hpar.
  { eexists _, s. split; [done |]. split; [done |]. split; [by right |].
    split; [done | intros H; inversion H]. }
  destruct (handleOrphanBlock_cases s b Hpar) as [[_ Hc]|[_ Hc]]; rewrite Hc.
  - eexists _, s. split; [done |]. split; [done |]. split; [by right |].
    split; [done | intros H; inversion H].
  - eexists _, _. split; [done |]. split; [done |]. split; [by left |].
    split; [done | intros H; inversion H].
Qed.

Lemma handleOrphanBlock_staged (s s' : State) (b : Block) (r : option error)
    (parent id : Z) (b0 : Block) :
  handleOrphanBlock b s = Ok (r, s') ->
  staged s parent id b0 -> staged s' parent id b0.
Proof.
  unfold handleOrphanBlock, staged. unfold_M.
  destruct (DEBUG && bool_decide (is_Some (blockMap s !! ParentBlockID b)));
    [done |].
  destruct (missingParents s !! ParentBlockID b) as [mp0|] eqn:Hmp; simpl.
  - destruct (mp0 !! ID b) as [b'|] eqn:Hb; intros H; inversion H; subst; clear H;
      [done |].
    intros (mp & Hp & Hid). simpl.
    destruct (decide (parent = ParentBlockID b)) as [->|Hne].
    + rewrite lookup_insert_eq. eexists. split; [done |].
      assert (mp = mp0) as -> by congruence.
      destruct (decide (id = ID b)) as [->|Hne']; [congruence |].
      by rewrite lookup_insert_ne.
    + rewrite lookup_insert_ne by done. eauto.
  - intros H; inversion H; subst; clear H. intros (mp & Hp & Hid). simpl.
    destruct (decide (parent = ParentBlockID b)) as [->|Hne]; [congruence |].
    rewrite lookup_insert_ne by done. eauto.
Qed.

Lemma orphan_recorded_stage (s : State) (b : Block) :
  orphan_recorded (stage s b) b.
Proof.
  unfold orphan_recorded, stage. simpl. eexists.
  rewrite lookup_insert_eq. split; [done |]. rewrite lookup_insert_eq.
  by eexists.
Qed.

(** X3. [handleOrphanBlock] never loses or overwrites an orphan: every
    block staged before the call is still staged under the same parent and
    id after it, the block of the call is recorded, and no other component
    of the state is written. *)
Theorem handleOrphanBlock_keeps (s s' : State) (b : Block) (r : option error) :
  handleOrphanBlock b s = Ok (r, s') ->
  (forall parent id b0, staged s parent id b0 -> staged s' parent id b0) /\
  orphan_recorded s' b /\
  s' = set_missingParents (missingParents s') s.
Proof.
  intros H. split; [intros parent id b0; by eapply handleOrphanBlock_staged |].
  assert (Hs : s = set_missingParents (missingParents s) s) by by destruct s.
  revert H. unfold handleOrphanBlock. unfold_M.
  destruct (DEBUG && bool_decide (is_Some (blockMap s !! ParentBlockID b)));
    [done |].
  destruct (missingParents s !! ParentBlockID b) as [mp0|] eqn:Hmp; simpl.
  - destruct (mp0 !! ID b) as [b'|] eqn:Hb; intros H; inversion H; subst; clear H.
    + split; [| done]. exists mp0. split; [done | by eexists].
    + split; [| done]. unfold orphan_recorded. simpl. eexists.
      rewrite lookup_insert_eq. split; [done |]. rewrite lookup_insert_eq.
      by eexists.
  - intros H; inversion H; subst; clear H. split; [| done].
    unfold orphan_recorded. simpl. eexists.
    rewrite lookup_insert_eq. split; [done |]. rewrite lookup_insert_eq.
    by eexists.
Qed.

(** *** validateHeader *)

Lemma validateHeader_nil_inv (now : Z) (s s' : State) (parent : nat) (b : Block) :
  validateHeader now parent b s = Ok (None, s') -> s' = s.
Proof.
  unfold validateHeader. unfold_M.
  destruct (heap s !! parent) as [pn|]; [| done].
  destruct (CheckTarget b (Target pn)); simpl; [| done].
  destruct (decide (int64 (Timestamp b - now) > FutureThreshold)); [done |].
  destruct (earliestChildTimestamp pn) as [m|]; [| done]. simpl.
  destruct (decide (m > Timestamp b)); [done |].
  destruct (decide (MerkleRoot b ≠ TransactionMerkleRoot b)); [done |].
  intros H. by inversion H.
Qed.

Lemma validateHeader_bad_mono (now : Z) (s s' : State) (parent : nat)
    (b : Block) (r : option error) :
  validateHeader now parent b s = Ok (r, s') -> badBlocks s ⊆ badBlocks s'.
Proof.
  unfold validateHeader. unfold_M.
  destruct (heap s !! parent) as [pn|]; [| done].
  destruct (CheckTarget b (Target pn)); simpl;
    [| by intros H; inversion H].
  destruct (decide (int64 (Timestamp b - now) > FutureThreshold));
    [by intros H; inversion H |].
  destruct (earliestChildTimestamp pn) as [m|]; [| done]. simpl.
  destruct (decide (m > Timestamp b));
    [intros H; inversion H; simpl; set_solver |].
  destruct (decide (MerkleRoot b ≠ TransactionMerkleRoot b));
    intros H; inversion H; simpl; set_solver.
Qed.

(** X4. For a parent node with a full window of timestamps, [validateHeader]
    returns the nil error exactly when the block meets the parent's target,
    its timestamp is at most [FutureThreshold] ahead of the clock and not
    below the earliest child timestamp of the parent, and its merkle root is
    that of its transactions; the state is then as it was. *)
Theorem validateHeader_nil_iff (now : Z) (s s' : State) (parent : nat)
    (pn : BlockNode) (b : Block) (m : Z) :
  heap s !! parent = Some pn ->
  earliestChildTimestamp pn = Some m ->
  validateHeader now parent b s = Ok (None, s') <->
  CheckTarget b (Target pn) = true /\
  int64 (Timestamp b - now) <= FutureThreshold /\
  m <= Timestamp b /\
  MerkleRoot b = TransactionMerkleRoot b /\
  s' = s.
Proof.
  intros Hp Hm. unfold validateHeader. unfold_M. rewrite Hp.
  destruct (CheckTarget b (Target pn)); simpl.
  2: { split; [intros H; inversion H | by intros (? & _)]. }
  destruct (decide (int64 (Timestamp b - now) > FutureThreshold)) as [Hf|Hf].
  { split; [intros H; inversion H | intros (_ & ? & _); lia]. }
  rewrite Hm. simpl.
  destruct (decide (m > Timestamp b)) as [Hlt|Hge]; simpl.
  { split; [intros H; inversion H | intros (_ & _ & ? & _); lia]. }
  destruct (decide (MerkleRoot b ≠ TransactionMerkleRoot b)) as [Hne|Heq]; simpl.
  { split; [intros H; inversion H | by intros (_ & _ & _ & ? & _)]. }
  split.
  - intros H. inversion H; subst. split_and!; try done; try lia.
  - by intros (_ & _ & _ & _ & ->).
Qed.

(** X5. A block that meets the target and whose timestamp is more than
    [FutureThreshold] ahead of the clock is answered with [FutureBlockErr]:
    one re-submission of the block is scheduled, and the id of the block is
    not recorded as bad.  When the 64-bit arithmetic does not wrap, the
    delay is the excess of the skew over the threshold, in nanoseconds. *)
Theorem validateHeader_future (now : Z) (s : State) (parent : nat)
    (pn : BlockNode) (b : Block) :
  heap s !! parent = Some pn ->
  CheckTarget b (Target pn) = true ->
  int64 (Timestamp b - now) > FutureThreshold ->
  exists delay,
    validateHeader now parent b s =
      Ok (Some FutureBlockErr,
          set_futureBlocks (futureBlocks s ++ [(delay, b)]) s) /\
    (in_int64 (Timestamp b - now) ->
     in_int64 ((Timestamp b - now - FutureThreshold) * 1000000000) ->
     delay = (Timestamp b - now - FutureThreshold) * 1000000000 /\ 0 < delay).
Proof.
  intros Hp Ht Hf. unfold validateHeader. unfold_M. rewrite Hp, Ht. simpl.
  rewrite decide_True by done. eexists. split; [done |].
  intros H1 H2. rewrite (int64_id _ H1) in *.
  rewrite (int64_id (Timestamp b - now - FutureThreshold))
    by (unfold in_int64 in *; lia).
  rewrite (int64_id _ H2). lia.
Qed.

(** X6. Whatever it answers, [validateHeader] leaves the block tree, the
    orphan pool, the consensus state and the subscribers' log as they were.
    It records an id as bad only for the block it is given, and only
    together with the past-timestamp error or the merkle root error: a block
    that misses the target, or lies too far in the future, is not recorded. *)
Theorem validateHeader_writes (now : Z) (s s' : State) (parent : nat)
    (b : Block) (r : option error) :
  validateHeader now parent b s = Ok (r, s') ->
  heap s' = heap s /\ blockMap s' = blockMap s /\
  missingParents s' = missingParents s /\
  consensus_view s' = consensus_view s /\
  notifications s' = notifications s /\
  (badBlocks s' = badBlocks s \/
   badBlocks s' = {[ID b]} ∪ badBlocks s /\
   (r = Some timestampError \/ r = Some merkleError)) /\
  (futureBlocks s' = futureBlocks s \/ r = Some FutureBlockErr).
Proof.
  unfold validateHeader. unfold_M.
  destruct (heap s !! parent) as [pn|]; [| done].
  destruct (CheckTarget b (Target pn)); simpl.
  2: { intros H; inversion H; subst. split_and!; auto. }
  destruct (decide (int64 (Timestamp b - now) > FutureThreshold)) as [Hf|Hf].
  { intros H; inversion H; subst. simpl. split_and!; auto. }
  destruct (earliestChildTimestamp pn) as [m|]; [| done]. simpl.
  destruct (decide (m > Timestamp b)) as [Hlt|Hge]; simpl.
  { intros H; inversion H; subst. simpl. split_and!; auto. }
  destruct (decide (MerkleRoot b ≠ TransactionMerkleRoot b)) as [Hne|Heq]; simpl.
  { intros H; inversion H; subst. simpl. split_and!; auto. }
  intros H; inversion H; subst. split_and!; auto.
Qed.

(** *** The earliest child timestamp without sorting *)

Lemma filter_all (P : Z -> Prop) `{!forall x, Decision (P x)} (l : list Z) :
  Forall P l -> filter P l = l.
Proof.
  induction 1 as [|x l Hx _ IH]; [done |].
  by rewrite filter_cons_True, IH.
Qed.

Lemma filter_none (P : Z -> Prop) `{!forall x, Decision (P x)} (l : list Z) :
  Forall (fun x => ~ P x) l -> filter P l = [].
Proof.
  induction 1 as [|x l Hx _ IH]; [done |].
  by rewrite filter_cons_False, IH.
Qed.

(** A timestamp lies below the median of 11 exactly when fewer than 6 of
    them are at most the timestamp. *)
Lemma median_count (w : list Z) (m t : Z) :
  median_of_11 m w -> length w = 11%nat ->
  t < m <-> (length (filter (fun x : Z => (x <= t)%Z) w) < 6)%nat.
Proof.
  intros (L & Hperm & Hsorted & H5) Hlen.
  rewrite <- Hperm.
  assert (Hl : length L = 11%nat) by by rewrite Hperm.
  apply (Sorted_StronglySorted Z.le) in Hsorted.
  rewrite <- (take_drop_middle L 5 m H5) in Hsorted |- *.
  apply StronglySorted_app in Hsorted as (Hcross & _ & H2).
  apply StronglySorted_cons in H2 as (Hge & _).
  assert (Ht : length (take 5 L) = 5%nat) by (rewrite length_take; lia).
  rewrite filter_app, length_app. split.
  - intros Hlt. rewrite (filter_none _ (m :: drop 6 L)).
    + pose proof (length_filter (fun x => x <= t) (take 5 L)). simpl. lia.
    + constructor; [lia |]. eapply Forall_impl; [exact Hge |].
      intros x Hx. simpl in Hx. lia.
  - intros Hcnt. destruct (decide (t < m)) as [|Hge']; [done |]. exfalso.
    rewrite filter_all in Hcnt.
    + rewrite filter_cons_True in Hcnt by lia. simpl in Hcnt. lia.
    + apply Forall_forall. intros x Hx.
      specialize (Hcross x m Hx (list_elem_of_here _ _)). lia.
Qed.

(** X7. The earliest child timestamp of a node with 11 recent timestamps is
    one of them, and a timestamp [t] lies below it exactly when fewer than
    6 of the 11 are at most [t]: a child is on time as soon as it is not
    older than a majority of the window. *)
Theorem earliestChildTimestamp_majority (bn : BlockNode) (t : Z) :
  length (RecentTimestamps bn) = 11%nat ->
  exists m,
    earliestChildTimestamp bn = Some m /\
    m ∈ RecentTimestamps bn /\
    (t < m <->
     (length (filter (fun x : Z => (x <= t)%Z) (RecentTimestamps bn)) < 6)%nat).
Proof.
  intros Hlen.
  destruct (earliestChildTimestamp_median bn Hlen) as (m & Hm & Hmed).
  exists m. split; [done |]. split; [| by apply median_count].
  destruct Hmed as (L & Hperm & _ & H5).
  rewrite <- Hperm. by eapply list_elem_of_lookup_2.
Qed.

(** *** childDepth and childTarget *)

Lemma Z2Qc_pos (z : Z) : 0 < z -> (0 < Qc_of_Z z)%Qc.
Proof. intros H. rewrite <- Z2Qc_inj_0. by apply (proj1 (Z2Qc_inj_lt 0 z)). Qed.

Lemma Qcinv_inv (x : Qc) : x <> 0%Qc -> (/ / x = x)%Qc.
Proof. intros H. field. split; [exact H | apply Q_apart_0_1]. Qed.

(** X8. For a parent of positive target and depth, [childDepth] hands to
    [RatToTarget] the rational [q] with [1/q = 1/target + 1/depth]: the work
    of the parent block is added to the cumulated work.  This [q] is
    positive and strictly below both the depth and the target of the
    parent, and the state is not written. *)
Theorem childDepth_work (s : State) (pn : BlockNode) :
  0 < Target pn -> 0 < Depth pn ->
  exists q : Qc,
    childDepth pn s = Ok (RatToTarget q, s) /\
    (/ q = / Qc_of_Z (Target pn) + / Qc_of_Z (Depth pn))%Qc /\
    (0 < q)%Qc /\
    (q < Qc_of_Z (Depth pn))%Qc /\ (q < Qc_of_Z (Target pn))%Qc.
Proof.
  intros Ht Hd.
  pose proof (Z2Qc_pos _ Ht) as Ha. pose proof (Z2Qc_pos _ Hd) as Hb.
  set (a := Qc_of_Z (Target pn)) in *. set (b := Qc_of_Z (Depth pn)) in *.
  assert (Hw : (0 < / a + / b)%Qc) by (apply Qcplus_pos_pos; by apply Qcinv_pos).
  assert (Hw0 : (/ a + / b)%Qc <> 0%Qc) by (symmetry; by apply Qclt_not_eq).
  assert (Ha0 : a <> 0%Qc) by (symmetry; by apply Qclt_not_eq).
  assert (Hb0 : b <> 0%Qc) by (symmetry; by apply Qclt_not_eq).
  exists (/ (/ a + / b))%Qc. split; [| split; [| split; [| split]]].
  - unfold childDepth. unfold_M.
    rewrite (Target_Inverse_ok (Target pn)) by lia.
    rewrite (Target_Inverse_ok (Depth pn)) by lia.
    unfold Rat_Inv. by rewrite decide_False.
  - by apply Qcinv_inv.
  - by apply Qcinv_pos.
  - apply (Qcmult_lt_mono_pos_r _ _ (/ a + / b)%Qc); [done |].
    rewrite Qcmult_inv_l by done.
    rewrite Qcmult_plus_distr_r, (Qcmult_inv_r b) by done.
    rewrite <- (Qcplus_0_l 1) at 1. apply Qcplus_lt_mono_r.
    apply Qcmult_pos_pos; [done | by apply Qcinv_pos].
  - apply (Qcmult_lt_mono_pos_r _ _ (/ a + / b)%Qc); [done |].
    rewrite Qcmult_inv_l by done.
    rewrite Qcmult_plus_distr_r, (Qcmult_inv_r a) by done.
    rewrite <- (Qcplus_0_r 1) at 1. apply Qcplus_lt_mono_l.
    apply Qcmult_pos_pos; [done | by apply Qcinv_pos].
Qed.

Lemma clamp_adjustment_bounds (adj : Qc) :
  (MaxAdjustmentDown <= MaxAdjustmentUp)%Qc ->
  (MaxAdjustmentDown <= clamp_adjustment adj)%Qc /\
  (clamp_adjustment adj <= MaxAdjustmentUp)%Qc.
Proof.
  intros Hle. unfold clamp_adjustment.
  destruct (decide (MaxAdjustmentUp < adj)%Qc) as [Hup|Hup].
  { split; [done | apply Qcle_refl]. }
  destruct (decide (adj < MaxAdjustmentDown)%Qc) as [Hdown|Hdown].
  { split; [apply Qcle_refl | done]. }
  split; by apply Qcnot_lt_le.
Qed.

(** X9. Whatever the timestamps and the height are, a target computed by
    [childTarget] is the parent's target times a factor between
    [MaxAdjustmentDown] and [MaxAdjustmentUp], converted by [RatToTarget];
    the state is not written. *)
Theorem childTarget_clamped (s s' : State) (parent child : BlockNode) (t : Z) :
  (MaxAdjustmentDown <= MaxAdjustmentUp)%Qc ->
  childTarget parent child s = Ok (t, s') ->
  s' = s /\
  exists adj : Qc,
    (MaxAdjustmentDown <= adj)%Qc /\ (adj <= MaxAdjustmentUp)%Qc /\
    t = RatToTarget (Qc_of_Z (Target parent) * adj)%Qc.
Proof.
  intros Hle. unfold childTarget. rewrite bind_get. intros H.
  apply bind_Ok_inv in H as (times & s1 & Htimes & H).
  assert (s1 = s) as ->.
  { destruct (decide (Height child < TargetWindow)) as [Hlt|Hge].
    - apply bind_Ok_inv in Htimes as (root & s2 & Hroot & Htimes).
      unfold load in Hroot. rewrite bind_get in Hroot.
      destruct (heap s !! blockRoot s); [| done].
      inversion Hroot; subst. by inversion Htimes.
    - apply bind_Ok_inv in Htimes as (ab & s2 & Hab & Htimes).
      unfold BlockAtHeight in Hab. rewrite bind_get in Hab.
      assert (s2 = s) as ->.
      { destruct (blockMap s !! _) as [p|]; [| by inversion Hab].
        apply bind_Ok_inv in Hab as (n & s3 & Hn & Hab).
        unfold load in Hn. rewrite bind_get in Hn.
        destruct (heap s !! p); [| done].
        inversion Hn; subst. by inversion Hab. }
      destruct ab; [| done]. by inversion Htimes. }
  apply bind_Ok_inv in H as (adj & s2 & Hadj & H).
  unfold NewRat in Hadj. destruct (decide (times.2 = 0)) as [|Hne]; [done |].
  inversion Hadj; subst. rewrite clamp_adjustment_Cmp in H.
  inversion H; subst. split; [done |].
  eexists. split; [| split; [| done]]; by apply clamp_adjustment_bounds.
Qed.

(** *** A child of the current block *)

Lemma Qcinv_le_inv (a b : Qc) : (0 < a)%Qc -> (a <= b)%Qc -> (/ b <= / a)%Qc.
Proof.
  intros Ha Hab.
  assert (Hb : (0 < b)%Qc) by (by eapply Qclt_le_trans).
  assert (Ha0 : a <> 0%Qc) by (symmetry; by apply Qclt_not_eq).
  assert (Hb0 : b <> 0%Qc) by (symmetry; by apply Qclt_not_eq).
  rewrite <- (Qcmult_1_l (/ b)), <- (Qcmult_1_r (/ a)).
  rewrite <- (Qcmult_inv_l a Ha0) at 1. rewrite <- (Qcmult_inv_r b Hb0).
  rewrite <- !Qcmult_assoc.
  apply Qcmult_le_mono_nonneg_l; [by apply Qclt_le_weak, Qcinv_pos |].
  apply Qcmult_le_mono_nonneg_r; [by apply Qclt_le_weak, Qcinv_pos | done].
Qed.

(** X10. A node whose depth was computed by [childDepth] from the current
    block wins [heavierFork], provided the conversion of that one depth did
    not round up: [RatToTarget q <= q] for the rational [q] with
    [1/q = 1/target + 1/depth] that [childDepth] hands to it.  The work the
    block adds is then the whole work of one block at the target of the
    current block, and the threshold is 5% of that.  A truncating
    conversion meets the condition unless [q] falls below its lower clamp;
    there the depth is rounded up and the condition fails.  The target and
    the depth of the current block are positive, and so is the depth
    computed for the child. *)
Theorem heavierFork_child_of_tip (s : State) (tipPtr newNode : nat)
    (tip node : BlockNode) :
  blockMap s !! currentBlockID s = Some tipPtr ->
  heap s !! tipPtr = Some tip ->
  heap s !! newNode = Some node ->
  0 < Target tip -> 0 < Depth tip ->
  childDepth tip s = Ok (Depth node, s) ->
  0 < Depth node ->
  (Qc_of_Z (RatToTarget (/ (/ Qc_of_Z (Target tip) + / Qc_of_Z (Depth tip))))
   <= / (/ Qc_of_Z (Target tip) + / Qc_of_Z (Depth tip)))%Qc ->
  heavierFork newNode s = Ok (true, s).
Proof.
  intros Htip Hheap Hnode Ht Hd Hchild Hn Hfloor.
  pose proof (Z2Qc_pos _ Ht) as Ha. pose proof (Z2Qc_pos _ Hd) as Hb.
  pose proof (Z2Qc_pos _ Hn) as Hc.
  set (a := Qc_of_Z (Target tip)) in *. set (b := Qc_of_Z (Depth tip)) in *.
  set (c := Qc_of_Z (Depth node)) in *.
  assert (Hw : (0 < / a + / b)%Qc) by (apply Qcplus_pos_pos; by apply Qcinv_pos).
  assert (Hw0 : (/ a + / b)%Qc <> 0%Qc) by (symmetry; by apply Qclt_not_eq).
  assert (Hc_le : (c <= / (/ a + / b))%Qc).
  { revert Hchild. unfold childDepth. unfold_M.
    rewrite (Target_Inverse_ok (Target tip)) by lia.
    rewrite (Target_Inverse_ok (Depth tip)) by lia.
    unfold Rat_Inv. rewrite decide_False by done. unfold_M.
    intros [= Heq]. unfold c. rewrite <- Heq. exact Hfloor. }
  assert (Hwork : (/ a + / b <= / c)%Qc).
  { rewrite <- (Qcinv_inv (/ a + / b)%Qc) at 1 by done.
    by apply Qcinv_le_inv. }
  unfold heavierFork, CurrentBlockWeight, State_Depth, currentBlockNode.
  unfold_M. rewrite Htip, Hheap.
  rewrite (Target_Inverse_ok (Target tip)) by lia. rewrite Htip, Hheap.
  rewrite (Target_Inverse_ok (Depth tip)) by lia. rewrite Hnode.
  rewrite (Target_Inverse_ok (Depth node)) by lia.
  f_equal. f_equal. apply Rat_Cmp_gt. fold a b c.
  eapply Qclt_le_trans; [| exact Hwork].
  rewrite (Qcplus_comm (/ a)). apply Qcplus_lt_mono_l.
  rewrite <- (Qcmult_1_r (/ a)) at 2.
  apply Qcmult_lt_mono_pos_l; [by apply Qcinv_pos |].
  unfold SurpassThreshold. done.
Qed.

(** *** addBlockToTree *)

Lemma childTarget_pure (pn child : BlockNode) :
  preserves (fun s => s) (childTarget pn child).
Proof. unfold childTarget, BlockAtHeight. frame. Qed.

Lemma childDepth_pure (pn : BlockNode) : preserves (fun s => s) (childDepth pn).
Proof. unfold childDepth, Target_Inverse. frame. Qed.

Lemma heavierFork_pure (p : nat) : preserves (fun s => s) (heavierFork p).
Proof.
  unfold heavierFork, CurrentBlockWeight, State_Depth, currentBlockNode,
    Target_Inverse. frame.
Qed.

Lemma addBlockToTree_inv (s s' : State) (parent p : nat) (b : Block) :
  addBlockToTree parent b s = Ok (p, s') ->
  exists pn target depth,
    heap s !! parent = Some pn /\
    childTarget pn (child_node pn b 0 0) s = Ok (target, s) /\
    childDepth pn s = Ok (depth, s) /\
    p = length (heap s) /\
    s' = tree_with s parent pn b (child_node pn b target depth).
Proof.
  unfold addBlockToTree. intros H.
  apply bind_Ok_inv in H as (pn & s1 & Hpn & H).
  unfold load in Hpn. rewrite bind_get in Hpn.
  destruct (heap s !! parent) as [pn'|] eqn:Hparent; [| done].
  inversion Hpn; subst pn' s1. clear Hpn.
  apply bind_Ok_inv in H as (target & s1 & Ht & H).
  pose proof (childTarget_pure _ _ _ _ _ Ht) as Hs. simpl in Hs. subst s1.
  apply bind_Ok_inv in H as (depth & s1 & Hd & H).
  pose proof (childDepth_pure _ _ _ _ Hd) as Hs. simpl in Hs. subst s1.
  exists pn, target, depth. split; [done |]. split; [exact Ht |].
  split; [done |].
  revert H. unfold_M. simpl.
  rewrite lookup_app_l by (by eapply lookup_lt_Some).
  rewrite Hparent. intros H. by inversion H.
Qed.

Lemma addBlockToTree_ok (s : State) (parent : nat) (pn : BlockNode)
    (b : Block) (target depth : Z) :
  heap s !! parent = Some pn ->
  childTarget pn (child_node pn b 0 0) s = Ok (target, s) ->
  childDepth pn s = Ok (depth, s) ->
  addBlockToTree parent b s =
    Ok (length (heap s), tree_with s parent pn b (child_node pn b target depth)).
Proof.
  intros Hparent Ht Hd. unfold addBlockToTree.
  rewrite (bind_Ok _ _ _ _ _ (load_ok _ _ _ Hparent)).
  unfold child_node in Ht. rewrite (bind_Ok _ _ _ _ _ Ht).
  rewrite (bind_Ok _ _ _ _ _ Hd).
  unfold_M. simpl.
  rewrite lookup_app_l by (by eapply lookup_lt_Some).
  by rewrite Hparent.
Qed.

Lemma window_shift (w : list Z) (t : Z) :
  length w = 11%nat ->
  <[10%nat := t]> (copy (replicate 11 0) (drop 1 w)) = drop 1 w ++ [t].
Proof.
  intros Hw. do 12 (destruct w as [|? w]; [done |]); done.
Qed.

Lemma window_length (w : list Z) (t : Z) :
  length (<[10%nat := t]> (copy (replicate 11 0) (drop 1 w))) = 11%nat.
Proof.
  rewrite length_insert. unfold copy. rewrite length_take, length_app.
  rewrite !length_drop, !length_replicate. lia.
Qed.

(** X11. When [addBlockToTree] returns, the new node sits at a fresh
    address, is registered in the block map under the id of the block, and
    is the last child of its parent.  It holds the block, has no children,
    is one higher than the parent (in 64-bit arithmetic), and its window of
    timestamps is the parent's window without its oldest entry, followed by
    the timestamp of the block.  Every other node, the consensus state, the
    bad blocks, the orphan pool and the subscribers' log are as before: no
    validation is done and nothing is published. *)
Theorem addBlockToTree_node (s s' : State) (parent p : nat) (b : Block) :
  addBlockToTree parent b s = Ok (p, s') ->
  exists pn node,
    heap s !! parent = Some pn /\
    p = length (heap s) /\
    blockMap s' = <[ID b := p]> (blockMap s) /\
    heap s' !! p = Some node /\
    heap s' !! parent = Some (set_Children (Children pn ++ [p]) pn) /\
    (forall q, q <> parent -> q <> p -> heap s' !! q = heap s !! q) /\
    NodeBlock node = b /\ Children node = [] /\
    Height node = uint64 (Height pn + 1) /\
    childTarget pn (child_node pn b 0 0) s = Ok (Target node, s) /\
    childDepth pn s = Ok (Depth node, s) /\
    length (RecentTimestamps node) = 11%nat /\
    (length (RecentTimestamps pn) = 11%nat ->
     RecentTimestamps node = drop 1 (RecentTimestamps pn) ++ [Timestamp b]) /\
    consensus_view s' = consensus_view s /\
    badBlocks s' = badBlocks s /\
    missingParents s' = missingParents s /\
    notifications s' = notifications s.
Proof.
  intros H.
  apply addBlockToTree_inv in H as (pn & target & depth & Hp & Ht & Hd & -> & ->).
  pose proof (lookup_lt_Some _ _ _ Hp) as Hlt.
  exists pn, (child_node pn b target depth). simpl.
  split_and!; try done.
  - rewrite list_lookup_insert_ne by lia.
    by rewrite lookup_app_r, Nat.sub_diag by lia.
  - rewrite list_lookup_insert_eq; [done |]. rewrite length_app. lia.
  - intros q Hq1 Hq2. rewrite list_lookup_insert_ne by done.
    destruct (decide (q < length (heap s))%nat) as [Hq|Hq].
    + by rewrite lookup_app_l.
    + rewrite lookup_app_r by lia.
      rewrite (lookup_ge_None_2 (heap s)) by lia.
      apply lookup_ge_None_2. simpl. lia.
  - apply window_length.
  - apply window_shift.
Qed.

(** *** The window of timestamps along a chain *)

(** X12. The earliest child timestamp never decreases from a node to a
    child that passed the timestamp check: when the timestamp of the block
    is not below the earliest child timestamp of the parent, the earliest
    child timestamp of the node that [addBlockToTree] builds for the block
    is at least that of the parent. *)
Theorem earliestChildTimestamp_monotone (pn : BlockNode) (b : Block)
    (target depth m : Z) :
  length (RecentTimestamps pn) = 11%nat ->
  earliestChildTimestamp pn = Some m ->
  m <= Timestamp b ->
  exists m',
    earliestChildTimestamp (child_node pn b target depth) = Some m' /\
    m <= m'.
Proof.
  intros Hlen Hm Hb.
  destruct (earliestChildTimestamp_median pn Hlen) as (m0 & Hm0 & Hmed).
  assert (m0 = m) as -> by congruence.
  set (node := child_node pn b target depth).
  assert (Hw : RecentTimestamps node = drop 1 (RecentTimestamps pn) ++ [Timestamp b])
    by (by apply window_shift).
  assert (Hlen' : length (RecentTimestamps node) = 11%nat)
    by apply window_length.
  destruct (earliestChildTimestamp_median node Hlen') as (m' & Hm' & Hmed').
  exists m'. split; [done |].
  destruct (decide (m <= m')) as [|Hlt]; [done |]. exfalso.
  assert (H6 : ~ (length (filter (fun x : Z => (x <= m')%Z)
                            (RecentTimestamps node)) < 6)%nat).
  { rewrite <- (median_count _ m' m' Hmed' Hlen'). lia. }
  assert (H5 : (length (filter (fun x : Z => (x <= m')%Z)
                          (RecentTimestamps pn)) < 6)%nat).
  { apply (median_count _ m m' Hmed Hlen). lia. }
  apply H6. rewrite Hw, filter_app, length_app.
  rewrite (filter_none _ [Timestamp b])
    by (constructor; [lia | constructor]).
  destruct (RecentTimestamps pn) as [|x w]; [done |].
  simpl in *. rewrite drop_0.
  destruct (decide (x <= m')).
  - rewrite filter_cons_True in H5 by done. simpl in H5. lia.
  - rewrite filter_cons_False in H5 by done. lia.
Qed.

(** *** invalidateNode *)

(** X13. On a tree whose children are one higher than their parents,
    [invalidateNode] returns for every large enough fuel.  It records as bad
    exactly the ids of the blocks in the subtree of the node, deletes these
    ids and no other from the block map, and writes nothing else: the nodes
    stay where they are, and the invalidated node is still a child of its
    parent. *)
Theorem invalidateNode_exact (X : State) (p : nat) (n : BlockNode) :
  child_links (heap X) -> heap X !! p = Some n ->
  exists fuel0, forall fuel, (fuel0 <= fuel)%nat ->
    exists X',
      invalidateNode fuel p X = Ok (tt, X') /\
      invalidated (in_subtree (heap X) p) X X' /\
      heap X' = heap X /\ consensus_view X' = consensus_view X /\
      ID (NodeBlock n) ∈ badBlocks X' /\
      blockMap X' !! ID (NodeBlock n) = None.
Proof.
  intros Hl Hp. destruct (heights_bounded (heap X)) as (Hmax & Hb).
  exists (S (Z.to_nat (Hmax - Height n))). intros fuel Hfuel.
  destruct (invalidateNode_subtree Hmax fuel X p n Hl Hb Hp ltac:(lia))
    as (M & B & Hrun & _).
  eexists. split; [exact Hrun |].
  pose proof (invalidateNode_post _ _ _ _ Hrun) as Hinv.
  split; [exact Hinv |]. split; [done |]. split; [done |].
  assert (Hself : in_subtree (heap X) p (ID (NodeBlock n))).
  { exists p, n. split; [apply reach_refl | done]. }
  destruct Hinv as (_ & Hbad & Hd & _). split.
  - apply Hbad. by right.
  - by apply Hd.
Qed.

(** *** Integration and inversion of a block *)

Lemma invertTransactions_diffs (txns : list Transaction) (l : Ledger)
    (diffs : list OutputDiff) :
  exists more, (invertTransactions txns l diffs).2 = diffs ++ more.
Proof.
  revert l diffs. induction txns as [|t txns IH]; intros l diffs; simpl.
  - exists []. by rewrite app_nil_r.
  - destruct (IH (invertTransaction l t).1 (diffs ++ (invertTransaction l t).2))
      as (more & ->).
    eexists. by rewrite <- app_assoc.
Qed.

Lemma invertRecentBlock_undoes `{!CollaboratorLaws} (X : State)
    (v : Ledger * gmap Z Z * Z) (b : Block) (h : Z) :
  has_block X b h ->
  integrable v b h ->
  exists more,
    invertRecentBlock (with_view (view_integrate v b h) X) =
      Ok ({| New := false; DiffID := SubsidyID b;
             DiffOutput := subsidy_output v.1.1 b h |} :: more,
          with_view v X).
Proof.
  intros (p & n & Hmap & Hheap & Hb & Hh) (Hparent & Hv & Hfresh & Hfree).
  unfold invertRecentBlock, CurrentBlock, State_Output, State_Height,
    currentBlockNode.
  unfold_M. simpl. rewrite Hmap. simpl. rewrite Hheap. simpl. rewrite Hb.
  rewrite lookup_insert_eq. simpl.
  rewrite Hmap. simpl. rewrite Hheap. simpl. rewrite Hb.
  rewrite Hmap. simpl. rewrite Hheap. simpl.
  rewrite Hmap. simpl. rewrite Hheap. simpl. rewrite Hb, Hh.
  match goal with
  | |- context [(invertTransactions ?t ?l ?d).2] =>
      destruct (invertTransactions_diffs t l d) as (more & ->)
  end.
  eexists. f_equal. f_equal.
  unfold with_view. simpl.
  rewrite invertTransactions_ledger.
  rewrite (delete_insert_id _ _ _ Hfresh), ledger_eta.
  unfold maintained_ledger. rewrite invert_apply_maintenance.
  rewrite ledger_inverted_after by done.
  rewrite (delete_insert_id _ _ _ Hfree). rewrite Hparent.
  destruct v as [[l path] cur]. done.
Qed.

(** X14. A block that extends the current block, whose transactions are
    valid in order, whose height is free in the current path and whose
    subsidy id is not in use, is integrated by [integrateBlock] with the nil
    error: it becomes the current block, the current path holds its id at
    its height, and its subsidy output is unspent and is the last output
    diff.  [invertRecentBlock] then restores the state exactly, and its
    first output diff removes that subsidy output. *)
Theorem integrate_invert_round_trip `{!CollaboratorLaws} (s : State)
    (b : Block) (h : Z) :
  has_block s b h ->
  integrable (consensus_view s) b h ->
  exists diffs bd s1 undone subsidy,
    integrateBlock b zeroBlockDiff s = Ok ((diffs, None, bd), s1) /\
    currentBlockID s1 = ID b /\
    currentPath s1 !! h = Some (ID b) /\
    unspentOutputs (ledger s1) !! SubsidyID b = Some subsidy /\
    List.last diffs {| New := false; DiffID := 0; DiffOutput := subsidy |} =
      {| New := true; DiffID := SubsidyID b; DiffOutput := subsidy |} /\
    invertRecentBlock s1 =
      Ok ({| New := false; DiffID := SubsidyID b; DiffOutput := subsidy |}
            :: undone, s).
Proof.
  intros Hb Hi.
  pose proof (integrateBlock_with_view s (consensus_view s) b h Hb
                (proj1 (proj2 Hi))) as Hrun.
  rewrite with_view_view in Hrun.
  destruct (invertRecentBlock_undoes s (consensus_view s) b h Hb Hi)
    as (more & Hundo).
  rewrite with_view_view in Hundo.
  eexists _, _, _, more, _. split; [exact Hrun |].
  split; [done |]. split; [apply lookup_insert_eq |].
  split; [apply lookup_insert_eq |]. split; [| exact Hundo].
  unfold integrate_diffs. rewrite app_assoc. apply last_last.
Qed.

(** *** Rejected blocks *)

Lemma core_checkDestiny (b : Block) : preserves core (checkDestiny b).
Proof. unfold checkDestiny, handleOrphanBlock. frame. Qed.

Lemma core_validateHeader (now : Z) (parent : nat) (b : Block) :
  preserves core (validateHeader now parent b).
Proof. unfold validateHeader. frame. Qed.

(** X15. A call of [AcceptBlock] that returns an error returns it with three
    empty lists, and has left the block tree, the consensus state, the
    transaction pool and the subscribers' log as they were: the block was
    stopped by the destiny check, the header check or the size check, and
    nothing was added, integrated or published. *)
Theorem AcceptBlock_rejected (fuel : nat) (now : Z) (b : Block) (s s' : State)
    (r : list Block * list Block * list OutputDiff * option error) (e : error) :
  AcceptBlock fuel now b s = Ok (r, s') ->
  r.2 = Some e ->
  r = ([], [], [], Some e) /\
  heap s' = heap s /\ blockMap s' = blockMap s /\
  consensus_view s' = consensus_view s /\
  transactionPool s' = transactionPool s /\
  notifications s' = notifications s /\
  ~ passes_checks now b s.
Proof.
  intros H He. unfold AcceptBlock in H.
  assert (Hcore : forall s1, core s1 = core s ->
    heap s1 = heap s /\ blockMap s1 = blockMap s /\
    consensus_view s1 = consensus_view s /\
    transactionPool s1 = transactionPool s /\
    notifications s1 = notifications s).
  { intros s1 Hc. unfold core, consensus_view in *. inversion Hc.
    split_and!; congruence. }
  inv_bind H err s1 Hd. pose proof (core_checkDestiny _ _ _ _ Hd) as H1.
  destruct err as [e1|].
  { injection H as <- <-. simpl in He. injection He as ->.
    split; [done |]. repeat (split; [by apply Hcore |]).
    intros (s1' & parent & s2 & Hd' & _). congruence. }
  inv_bind H parent s2 Hp.
  unfold blockMap_at in Hp. rewrite bind_get in Hp.
  destruct (blockMap s1 !! ParentBlockID b) as [parent'|] eqn:Hparent; [| done].
  injection Hp as <- <-.
  inv_bind H err s2 Hv. pose proof (core_validateHeader _ _ _ _ _ _ Hv) as H2.
  destruct err as [e2|].
  { injection H as <- <-. simpl in He. injection He as ->.
    split; [done |]. repeat (split; [apply Hcore; congruence |]).
    intros (s1' & parent & s2' & Hd' & Hp' & Hv' & _).
    rewrite Hd in Hd'. injection Hd' as <-. congruence. }
  destruct (decide (Z.of_nat (length (Marshal b)) > BlockSizeLimit))
    as [Hbig|Hsmall].
  { injection H as <- <-. simpl in He. injection He as <-.
    split; [done |]. repeat (split; [apply Hcore; congruence |]).
    intros (_ & _ & _ & _ & _ & _ & Hsize). done. }
  exfalso.
  inv_bind H newNode s3 Hadd. inv_bind H hv s4 Hheavy.
  inv_bind H r' s5 Hfork.
  assert (Hr' : r'.2 = None).
  { destruct hv.
    - by apply forkBlockchain_published in Hfork as [Hnil _].
    - by injection Hfork as <- <-. }
  rewrite Hr' in H.
  inv_bind H u s6 Hnotify. inv_bind H u' s7 Hcheck. injection H as <- <-.
  congruence.
Qed.

(** *** What a reorganisation does to the block tree *)

Lemma erased_integrateBlock (v0 : Ledger * gmap Z Z * Z) (b : Block)
    (bd : BlockDiff) :
  preserves (with_view v0) (integrateBlock b bd).
Proof. unfold integrateBlock. frame. Qed.

Lemma erased_invertRecentBlock (v0 : Ledger * gmap Z Z * Z) :
  preserves (with_view v0) invertRecentBlock.
Proof. unfold invertRecentBlock. frame. Qed.

Lemma erased_reintegrate (v0 : Ledger * gmap Z Z * Z) (blocks : list Block) :
  preserves (with_view v0) (reintegrate blocks).
Proof.
  induction blocks as [|b blocks IH]; simpl; [frame |].
  apply preserves_bind; [apply erased_integrateBlock | intros r; frame].
Qed.

Lemma erased_rewind (v0 : Ledger * gmap Z Z * Z) (fuel : nat) (id : Z)
    (v : forkVars) :
  preserves (with_view v0) (rewind fuel id v).
Proof.
  revert v. induction fuel as [|fuel IH]; intros v; simpl; [frame |].
  apply preserves_bind; [frame | intros s0].
  destruct (decide (currentBlockID s0 ≠ id)) as [Hne|Heq]; [| frame].
  apply preserves_bind; [frame | intros cb].
  apply preserves_bind; [frame | intros p].
  apply preserves_bind; [frame | intros n].
  apply preserves_bind; [apply erased_invertRecentBlock | intros d].
  apply IH.
Qed.

Lemma commonParent_pure (fuel : nat) (n : BlockNode) (h : list Z) :
  preserves (fun s => s) (commonParent fuel n h).
Proof.
  revert n h. induction fuel as [|fuel IH]; intros n h; simpl; frame; apply IH.
Qed.

Lemma pathCheck_pure (n : nat) (i : Z) (node : BlockNode) :
  preserves (fun s => s) (pathCheck n i node).
Proof.
  revert i node. induction n as [|n IH]; intros i node; simpl; frame; apply IH.
Qed.

Lemma CurrentPathCheck_pure : preserves (fun s => s) CurrentPathCheck.
Proof. unfold CurrentPathCheck. frame. apply pathCheck_pure. Qed.

Lemma view_only_intro {A} (m : M A) :
  (forall v0, preserves (with_view v0) m) -> view_only m.
Proof.
  intros Hm s a s' Hrun.
  rewrite <- (Hm (consensus_view s') s a s' Hrun). by rewrite with_view_view.
Qed.

Lemma pruned_refl (s : State) : pruned s s.
Proof. split_and!; try done. intros id. by left. Qed.

Lemma pruned_trans (s s1 s2 : State) : pruned s s1 -> pruned s1 s2 -> pruned s s2.
Proof.
  intros (Hh1 & Hb1 & Hm1 & Ho1 & Hf1 & Hr1) (Hh2 & Hb2 & Hm2 & Ho2 & Hf2 & Hr2).
  split_and!; try congruence.
  - set_solver.
  - intros id. destruct (Hm2 id) as [->|[-> Hbad]]; [| by right].
    destruct (Hm1 id) as [->|[-> Hbad]]; [by left | right].
    split; [done | set_solver].
Qed.

Lemma pruned_with_view (v : Ledger * gmap Z Z * Z) (s : State) :
  pruned s (with_view v s).
Proof. split_and!; try done. intros id. by left. Qed.

Lemma pruned_view_only {A} (m : M A) (s s' : State) (a : A) :
  view_only m -> m s = Ok (a, s') -> pruned s s'.
Proof. intros Hm Hrun. rewrite (Hm s a s' Hrun). apply pruned_with_view. Qed.

Lemma pruned_invalidated (P : Z -> Prop) (s s' : State) :
  invalidated P s s' -> pruned s s'.
Proof.
  intros (Hs & Hb & Hd & Hk).
  assert (Hmap : forall id, blockMap s' !! id = blockMap s !! id \/
                            blockMap s' !! id = None /\ id ∈ badBlocks s').
  { intros id.
    destruct (decide (blockMap s' !! id = blockMap s !! id)) as [|Hne];
      [by left | right].
    assert (HnP : ~ ~ P id) by (intros HnP; apply Hne; by apply Hk).
    split.
    - destruct (blockMap s' !! id) as [p|] eqn:Hp; [| done].
      exfalso. apply HnP. intros HP. rewrite (Hd id HP) in Hp. done.
    - destruct (decide (id ∈ badBlocks s')) as [|Hnb]; [done |].
      exfalso. apply HnP. intros HP. apply Hnb, Hb. by right. }
  assert (Hbad : badBlocks s ⊆ badBlocks s').
  { intros id Hid. apply Hb. by left. }
  rewrite Hs in *. simpl in *. by split_and!.
Qed.

Lemma pruned_store (s : State) (p : nat) (n : BlockNode) (bd : BlockDiff) :
  heap s !! p = Some n ->
  pruned s (set_heap (<[p := set_NodeBlockDiff bd n]> (heap s)) s).
Proof.
  intros Hp. split_and!; try done.
  - simpl. by apply (same_shape_insert _ _ n).
  - intros id. by left.
Qed.

(** [pure H]: the run [H : m s = Ok (b, s')] of a computation that does not
    write leaves [s' = s]. *)
Ltac pure H :=
  let E := fresh "E" in
  framed H (fun s : State => s) E; cbv beta in E;
  match type of E with ?x = _ => subst x end.

Lemma validate_pruned (fuel : nat) (sh : Z) (ids : list Z) (v v' : forkVars)
    (s s' : State) :
  validate fuel sh ids v s = Ok (v', s') -> pruned s s'.
Proof.
  revert v s. induction ids as [|id ids IH]; intros v s H; simpl in H.
  { injection H as <- <-. apply pruned_refl. }
  inv_bind H p s1 Hp. inv_bind H n s2 Hn. inv_bind H r s3 Hr.
  pure Hp. pure Hn.
  apply (pruned_view_only _ _ _ _
           (view_only_intro _ (fun v0 => erased_integrateBlock v0 _ _))) in Hr.
  eapply pruned_trans; [exact Hr |].
  destruct (r.1.2) as [e|].
  - inv_bind H p' s4 Hp'. inv_bind H u5 s5 H5. inv_bind H u6 s6 H6.
    inv_bind H u7 s7 H7. inv_bind H u8 s8 H8. injection H as <- <-.
    pure Hp'. destruct u5.
    apply invalidateNode_post, pruned_invalidated in H5.
    eapply pruned_trans; [exact H5 |].
    apply (pruned_view_only _ _ _ _
             (view_only_intro _ (fun v0 =>
                preserves_repeatM _ _ _ (erased_invertRecentBlock v0)))) in H6.
    eapply pruned_trans; [exact H6 |].
    apply (pruned_view_only _ _ _ _
             (view_only_intro _ (fun v0 => erased_reintegrate v0 _))) in H7.
    eapply pruned_trans; [exact H7 |].
    pure H8. apply pruned_refl.
  - inv_bind H p' s4 Hp'. inv_bind H n' s5 Hn'. inv_bind H u s6 Hst.
    pure Hp'.
    unfold load in Hn'. rewrite bind_get in Hn'.
    destruct (heap s3 !! p') as [n''|] eqn:Hheap; [| done].
    injection Hn' as <- <-. injection Hst as _ <-.
    eapply pruned_trans; [by apply pruned_store |]. by eapply IH.
Qed.

Lemma forkBlockchain_pruned (fuel : nat) (p : nat) (s s' : State)
    (r : list Block * list Block * list OutputDiff * option error) :
  forkBlockchain fuel p s = Ok (r, s') -> pruned s s'.
Proof.
  intros H. unfold forkBlockchain in H.
  inv_bind H n s1 Hn. inv_bind H cp s2 Hcp. inv_bind H h s3 Hh.
  inv_bind H v s4 Hv. inv_bind H v' s5 Hv'. inv_bind H u s6 Hu.
  inv_bind H u' s7 Hu'. injection H as <- <-.
  pure Hn.
  pose proof (commonParent_pure _ _ _ _ _ _ Hcp) as H2. simpl in H2. subst s2.
  assert (s3 = s) as ->.
  { destruct DEBUG; [| by injection Hh as _ <-].
    by pure Hh. }
  apply (pruned_view_only _ _ _ _
           (view_only_intro _ (fun v0 => erased_rewind v0 _ _ _))) in Hv.
  apply validate_pruned in Hv'.
  injection Hu as _ <-.
  assert (Hs7 : pruned s5 s7).
  { destruct (bool_decide _); injection Hu' as _ <-; by split_and!; try done;
      intros id; left. }
  eapply pruned_trans; [exact Hv |]. eapply pruned_trans; [exact Hv' |].
  exact Hs7.
Qed.

Lemma settled_pruned (s s' : State) (id : Z) :
  pruned s s' -> settled s id -> settled s' id.
Proof.
  intros (_ & Hb & Hm & _) [Hbad|Hmap]; [left; by apply Hb |].
  destruct (Hm id) as [Heq|[_ Hbad]]; [right; by rewrite Heq | by left].
Qed.

(** *** A block that passed the checks *)

Lemma AcceptBlock_passes_inv (fuel : nat) (now : Z) (b : Block) (s s' : State)
    (r : list Block * list Block * list OutputDiff * option error) :
  passes_checks now b s ->
  AcceptBlock fuel now b s = Ok (r, s') ->
  exists parent newNode s3 hv s5,
    (ID b ∉ badBlocks s) /\ blockMap s !! ID b = None /\
    blockMap s !! ParentBlockID b = Some parent /\
    addBlockToTree parent b s = Ok (newNode, s3) /\
    heavierFork newNode s3 = Ok (hv, s3) /\
    (if hv : bool then forkBlockchain fuel newNode
     else ret ([], [], [], None)) s3 = Ok (r, s5) /\
    r.2 = None /\
    s' = set_notifications (notifications s5 ++ [zeroConsensusChange]) s5.
Proof.
  intros (s1 & parent & s2 & Hdestiny & Hparent & Hheader & Hsize) H.
  unfold AcceptBlock in H.
  rewrite (bind_Ok _ _ _ _ _ Hdestiny) in H.
  apply checkDestiny_nil_inv in Hdestiny as (-> & Hbad & Hid & _).
  rewrite (bind_Ok _ _ _ _ _ (blockMap_at_ok _ _ _ Hparent)) in H.
  rewrite (bind_Ok _ _ _ _ _ Hheader) in H.
  apply validateHeader_nil_inv in Hheader as ->.
  rewrite decide_False in H by done.
  inv_bind H newNode s3 Hadd. inv_bind H hv s4 Hheavy.
  pose proof (heavierFork_pure _ _ _ _ Hheavy) as E. simpl in E. subst s4.
  inv_bind H r' s5 Hfork.
  assert (Hr' : r'.2 = None).
  { destruct hv.
    - by apply forkBlockchain_published in Hfork as [Hnil _].
    - by injection Hfork as <- <-. }
  rewrite Hr' in H.
  inv_bind H u s6 Hnotify. inv_bind H u' s7 Hcheck. injection H as <- <-.
  injection Hnotify as _ <-.
  assert (s7 = set_notifications (notifications s5 ++ [zeroConsensusChange]) s5)
    as ->.
  { destruct DEBUG; [| by injection Hcheck as _ <-].
    pose proof (CurrentPathCheck_pure _ _ _ Hcheck) as E. by simpl in E. }
  exists parent, newNode, s3, hv, s5. by split_and!.
Qed.

Lemma pruned_fork_or_not (fuel : nat) (newNode : nat) (hv : bool)
    (s s' : State)
    (r : list Block * list Block * list OutputDiff * option error) :
  (if hv then forkBlockchain fuel newNode
   else ret ([], [], [], None)) s = Ok (r, s') ->
  pruned s s'.
Proof.
  destruct hv; intros H.
  - by eapply forkBlockchain_pruned.
  - injection H as _ <-. apply pruned_refl.
Qed.

(** X16. A block that passed the checks of [AcceptBlock] has its destiny
    settled by the call: afterwards its id is in the block map, or, when the
    reorganisation it triggered found it or an ancestor invalid, recorded as
    bad.  Submitting the block again, at any time and with any fuel, is
    answered with [BlockKnownErr] or with the invalid-block error, and
    changes nothing. *)
Theorem AcceptBlock_settles (fuel : nat) (now : Z) (b : Block) (s s' : State)
    (r : list Block * list Block * list OutputDiff * option error) :
  passes_checks now b s ->
  AcceptBlock fuel now b s = Ok (r, s') ->
  ~ settled s (ID b) /\
  settled s' (ID b) /\
  forall fuel' now',
    exists e,
      AcceptBlock fuel' now' b s' = Ok (([], [], [], Some e), s') /\
      (e = BlockKnownErr \/ e = invalidError).
Proof.
  intros Hchecks H.
  destruct (AcceptBlock_passes_inv _ _ _ _ _ _ Hchecks H)
    as (parent & newNode & s3 & hv & s5 & Hbad & Hid & Hparent & Hadd & _ &
        Hfork & _ & ->).
  split.
  { intros [Hb|[x Hx]]; [done | congruence]. }
  assert (Hs : settled (set_notifications
                          (notifications s5 ++ [zeroConsensusChange]) s5) (ID b)).
  { apply (settled_pruned s3).
    - apply pruned_fork_or_not in Hfork. exact Hfork.
    - apply addBlockToTree_inv in Hadd
        as (pn & target & depth & _ & _ & _ & _ & ->).
      right. simpl. rewrite lookup_insert_eq. by eexists. }
  split; [exact Hs |]. intros fuel' now'.
  unfold AcceptBlock. unfold bind at 1. unfold checkDestiny.
  rewrite bind_get.
  destruct (decide (ID b ∈ badBlocks _)) as [Hb|Hb].
  { eexists. split; [done | by right]. }
  destruct Hs as [Hs|[p Hp]]; [done |]. rewrite Hp.
  eexists. split; [done | by left].
Qed.

(** *** The well-formed block tree *)

Lemma well_formed_kept (s s' : State) :
  shape <$> heap s' = shape <$> heap s ->
  badBlocks s ⊆ badBlocks s' ->
  (forall id, blockMap s' !! id = blockMap s !! id \/
              blockMap s' !! id = None /\ id ∈ badBlocks s') ->
  well_formed s -> well_formed s'.
Proof.
  intros Hh Hb Hm (Hc & Ha & Hu & Hl). split_and!.
  - intros id p Hp. destruct (Hm id) as [Heq|[Hn _]]; [| congruence].
    rewrite Heq in Hp. destruct (Hc id p Hp) as (n & Hn & Hid).
    destruct (same_shape_lookup _ _ _ _ (eq_sym Hh) Hn) as (n' & Hn' & Hs).
    exists n'. split; [done |]. unfold shape in Hs. inversion Hs. congruence.
  - intros p n' Hn'.
    destruct (same_shape_lookup _ _ _ _ Hh Hn') as (n & Hn & Hs).
    assert (Hid : ID (NodeBlock n') = ID (NodeBlock n))
      by (unfold shape in Hs; inversion Hs; congruence).
    rewrite Hid.
    destruct (Ha p n Hn) as [Hp|Hbad]; [| right; by apply Hb].
    destruct (Hm (ID (NodeBlock n))) as [Heq|[_ Hbad]];
      [left; congruence | by right].
  - by apply (unique_ids_same_shape (heap s)).
  - by apply (child_links_same_shape (heap s)).
Qed.

Lemma well_formed_pruned (s s' : State) :
  pruned s s' -> well_formed s -> well_formed s'.
Proof. intros (Hh & Hb & Hm & _). by apply well_formed_kept. Qed.

Lemma well_formed_tree_with (s : State) (parent : nat) (pn : BlockNode)
    (b : Block) (target depth : Z) :
  well_formed s ->
  blockMap s !! ParentBlockID b = Some parent ->
  heap s !! parent = Some pn ->
  ~ settled s (ID b) ->
  0 <= Height pn + 1 < 2 ^ 64 ->
  well_formed (tree_with s parent pn b (child_node pn b target depth)).
Proof.
  intros (Hc & Ha & Hu & Hl) Hparent Hpn Hnew Hheight.
  pose proof (lookup_lt_Some _ _ _ Hpn) as Hlt.
  set (node := child_node pn b target depth).
  set (pn' := set_Children (Children pn ++ [length (heap s)]) pn).
  assert (Hat : forall q,
    heap (tree_with s parent pn b node) !! q =
      if decide (q = parent) then Some pn'
      else if decide (q = length (heap s)) then Some node
      else heap s !! q).
  { intros q. simpl. destruct (decide (q = parent)) as [->|Hq].
    - rewrite list_lookup_insert_eq; [done |]. rewrite length_app. lia.
    - rewrite list_lookup_insert_ne by done.
      destruct (decide (q = length (heap s))) as [->|Hq'].
      + by rewrite lookup_app_r, Nat.sub_diag by lia.
      + destruct (decide (q < length (heap s))%nat).
        * by rewrite lookup_app_l.
        * rewrite lookup_app_r by lia. rewrite (lookup_ge_None_2 (heap s)) by lia.
          apply lookup_ge_None_2. simpl. lia. }
  assert (Hfresh : forall q n, heap s !! q = Some n -> ID (NodeBlock n) <> ID b).
  { intros q n Hq Hid. apply Hnew. destruct (Ha q n Hq) as [Hm|Hb].
    - right. rewrite <- Hid. by eexists.
    - left. by rewrite <- Hid. }
  assert (Hold : forall q n,
    heap (tree_with s parent pn b node) !! q = Some n ->
    q <> length (heap s) ->
    exists n0, heap s !! q = Some n0 /\ NodeBlock n = NodeBlock n0 /\
               Height n = Height n0 /\
               (q <> parent -> n = n0)).
  { intros q n Hq Hne. rewrite Hat in Hq.
    destruct (decide (q = parent)) as [->|Hqp].
    - injection Hq as <-. exists pn. by split_and!.
    - rewrite decide_False in Hq by done. exists n. by split_and!. }
  assert (Hparent_id : ID (NodeBlock pn) = ParentBlockID b).
  { destruct (Hc _ _ Hparent) as (n & Hn & Hid). congruence. }
  split_and!.
  - intros id p Hp. simpl in Hp.
    destruct (decide (id = ID b)) as [->|Hne].
    + rewrite lookup_insert_eq in Hp. injection Hp as <-.
      exists node. split; [| done]. rewrite Hat.
      rewrite decide_False by lia. by rewrite decide_True.
    + rewrite lookup_insert_ne in Hp by done.
      destruct (Hc id p Hp) as (n & Hn & Hid). rewrite Hat.
      destruct (decide (p = parent)) as [->|Hpp].
      * exists pn'. split; [done |]. simpl. congruence.
      * rewrite decide_False by (apply lookup_lt_Some in Hn; lia). eauto.
  - intros p n Hn.
    destruct (decide (p = length (heap s))) as [->|Hp].
    + rewrite Hat in Hn. rewrite decide_False in Hn by lia.
      rewrite decide_True in Hn by done. injection Hn as <-.
      left. simpl. apply lookup_insert_eq.
    + destruct (Hold p n Hn Hp) as (n0 & Hn0 & Hblock & _).
      rewrite Hblock. simpl.
      rewrite lookup_insert_ne by (intros Heq; by apply (Hfresh p n0)).
      by apply Ha.
  - unfold unique_ids. simpl. rewrite list_fmap_insert.
    rewrite list_insert_id.
    + rewrite fmap_app. simpl. apply NoDup_app. split; [done |].
      split; [| apply NoDup_singleton].
      intros id Hid Hin. apply list_elem_of_singleton in Hin as ->.
      apply list_elem_of_fmap in Hid as (n & Hid & Hn).
      apply list_elem_of_lookup_1 in Hn as (q & Hq).
      by apply (Hfresh q n).
    + rewrite list_lookup_fmap, lookup_app_l by done. by rewrite Hpn.
  - intros p n q Hn Hq.
    destruct (decide (p = length (heap s))) as [->|Hp].
    { rewrite Hat in Hn. rewrite decide_False in Hn by lia.
      rewrite decide_True in Hn by done. injection Hn as <-.
      simpl in Hq. by apply elem_of_nil in Hq. }
    destruct (Hold p n Hn Hp) as (n0 & Hn0 & Hblock & Hh & Hsame).
    assert (Hchild : forall q', q' ∈ Children n0 ->
      exists c, heap (tree_with s parent pn b node) !! q' = Some c /\
                ParentBlockID (NodeBlock c) = ID (NodeBlock n) /\
                Height c = Height n + 1).
    { intros q' Hq'. destruct (Hl p n0 q' Hn0 Hq') as (c & Hc' & Hpar & Hhc).
      rewrite Hat. destruct (decide (q' = parent)) as [->|Hqp].
      - exists pn'. split; [done |]. assert (c = pn) as -> by congruence.
        simpl. split; congruence.
      - rewrite decide_False by (apply lookup_lt_Some in Hc'; lia).
        exists c. split; [done |]. split; congruence. }
    destruct (decide (p = parent)) as [->|Hpp].
    + rewrite Hat, decide_True in Hn by done. injection Hn as <-.
      assert (n0 = pn) as -> by congruence.
      simpl in Hq. apply elem_of_app in Hq as [Hq|Hq]; [by apply Hchild |].
      apply list_elem_of_singleton in Hq as ->.
      exists node. rewrite Hat, decide_False by lia.
      rewrite decide_True by done. split; [done |]. simpl.
      split; [done |]. by apply uint64_id.
    + rewrite (Hsame Hpp) in *. by apply Hchild.
Qed.

(** X17. [AcceptBlock] keeps the block tree well formed, whatever it
    answers: the block map leads to nodes that hold the block of that id,
    every node is in the block map or has its id recorded as bad, no two
    nodes hold blocks of the same id, and every child is one higher than
    its parent and names it as parent.  The height of the parent of the
    block has to leave room for a child in 64 bits. *)
Theorem AcceptBlock_well_formed (fuel : nat) (now : Z) (b : Block) (s s' : State)
    (r : list Block * list Block * list OutputDiff * option error) :
  well_formed s ->
  (forall p n, blockMap s !! ParentBlockID b = Some p -> heap s !! p = Some n ->
               0 <= Height n + 1 < 2 ^ 64) ->
  AcceptBlock fuel now b s = Ok (r, s') ->
  well_formed s'.
Proof.
  intros Hwf Hroom H. unfold AcceptBlock in H.
  inv_bind H err s1 Hd.
  pose proof (core_checkDestiny _ _ _ _ Hd) as H1.
  framed Hd badBlocks Hb1.
  assert (Hwf1 : well_formed s1).
  { unfold core in H1. inversion H1 as [[Hh Hm Hv Hp Hn]].
    apply (well_formed_kept s); try done.
    - by rewrite Hh.
    - by rewrite Hb1.
    - intros id. left. by rewrite Hm. }
  destruct err as [e1|]; [by injection H as _ <- |].
  apply checkDestiny_nil_inv in Hd as (-> & Hbad & Hid & _).
  inv_bind H parent s2 Hp.
  unfold blockMap_at in Hp. rewrite bind_get in Hp.
  destruct (blockMap s !! ParentBlockID b) as [parent'|] eqn:Hparent; [| done].
  injection Hp as <- <-.
  inv_bind H err s2 Hv.
  pose proof (core_validateHeader _ _ _ _ _ _ Hv) as H2.
  pose proof (validateHeader_bad_mono _ _ _ _ _ _ Hv) as Hb2.
  assert (Hwf2 : well_formed s2).
  { unfold core in H2. inversion H2 as [[Hh Hm Hv' Hp Hn]].
    apply (well_formed_kept s); try done.
    - by rewrite Hh.
    - intros id. left. by rewrite Hm. }
  destruct err as [e2|]; [by injection H as _ <- |].
  apply validateHeader_nil_inv in Hv as ->.
  destruct (decide (Z.of_nat (length (Marshal b)) > BlockSizeLimit));
    [by injection H as _ <- |].
  inv_bind H newNode s3 Hadd. inv_bind H hv s4 Hheavy.
  pose proof (heavierFork_pure _ _ _ _ Hheavy) as E. simpl in E. subst s4.
  inv_bind H r' s5 Hfork.
  apply pruned_fork_or_not in Hfork.
  apply addBlockToTree_inv in Hadd
    as (pn & target & depth & Hpn & _ & _ & _ & ->).
  assert (Hwf5 : well_formed s5).
  { apply (well_formed_pruned _ _ Hfork).
    apply well_formed_tree_with; try done.
    - intros [Hx|[x Hx]]; [done | congruence].
    - by apply (Hroom parent' pn). }
  destruct (r'.2).
  { by injection H as _ <-. }
  inv_bind H u s6 Hnotify. inv_bind H u' s7 Hcheck. injection H as _ <-.
  injection Hnotify as _ <-.
  assert (s7 = set_notifications (notifications s5 ++ [zeroConsensusChange]) s5)
    as ->.
  { destruct DEBUG; [| by injection Hcheck as _ <-].
    pose proof (CurrentPathCheck_pure _ _ _ Hcheck) as E. by simpl in E. }
  apply (well_formed_kept s5); try done. intros id. by left.
Qed.

(** *** A successful reorganisation *)

Lemma cached_has_block (X : State) (b : Block) (p : nat) (n : BlockNode) :
  blockMap X !! ID b = Some p -> heap X !! p = Some n ->
  cached X b = NodeBlockDiff n.
Proof. intros Hp Hn. unfold cached. by rewrite Hp, Hn. Qed.

(** The rewinding loop on the blocks of the current path above the common
    parent, with everything it accumulates. *)
Lemma rewind_chain_full `{!CollaboratorLaws} (fuel : nat) (X : State)
    (v : Ledger * gmap Z Z * Z) (h : Z) (blocks : list Block) (vars : forkVars) :
  (length blocks < fuel)%nat ->
  in_tree X h blocks -> integrable_chain v h blocks ->
  Forall (fun b => ID b <> v.2) blocks ->
  exists vars' diffs,
    rewind fuel v.2 vars (with_view (view_after v h blocks) X) =
      Ok (vars', with_view v X) /\
    rewoundBlocks vars' = rewoundBlocks vars ++ rev blocks /\
    appliedBlocks vars' = appliedBlocks vars /\
    validatedBlocks vars' = validatedBlocks vars /\
    outputDiffs vars' = outputDiffs vars ++ diffs /\
    InvertedBlocks (cc vars') =
      InvertedBlocks (cc vars) ++ (cached X <$> rev blocks) /\
    AppliedBlocks (cc vars') = AppliedBlocks (cc vars) /\
    (blocks = [] -> diffs = []).
Proof.
  revert fuel vars.
  induction blocks as [|b blocks IH] using rev_ind; intros fuel vars Hfuel Ht Hc Hne.
  - destruct fuel as [|fuel]; [simpl in Hfuel; lia |]. simpl.
    rewrite bind_get. rewrite decide_False by (intros Hx; by apply Hx).
    exists vars, []. by rewrite !app_nil_r.
  - destruct fuel as [|fuel]; [simpl in Hfuel; lia |].
    rewrite length_app in Hfuel. simpl in Hfuel.
    apply in_tree_app in Ht as [Ht [Hb _]].
    apply integrable_chain_app in Hc as [Hc [Hi _]].
    apply Forall_app in Hne as [Hne Hb'].
    rewrite Forall_singleton in Hb'.
    rewrite view_after_app. simpl.
    destruct (invertRecentBlock_with_view X _ b _ Hb Hi) as [diffs Hinv].
    destruct Hb as (p & n & Hmap & Hheap & Hnb & Hh).
    set (S1 := with_view (view_integrate _ b _) X) in *.
    rewrite bind_get. rewrite decide_True by done.
    rewrite (bind_Ok _ _ _ _ _ (CurrentBlock_ok S1 p n Hmap Hheap)).
    rewrite (bind_Ok _ _ _ _ _ (currentBlockNode_ok S1 p Hmap)).
    rewrite (bind_Ok _ _ _ _ _ (load_ok S1 p n Hheap)).
    rewrite (bind_Ok _ _ _ _ _ Hinv).
    match goal with
    | |- exists _ _, rewind _ _ ?V _ = _ /\ _ =>
        destruct (IH fuel V ltac:(lia) Ht Hc Hne)
          as (vars' & diffs' & Hrun & Hr & Ha & Hval & Hd & Hinvd & Happ & _)
    end.
    exists vars', (diffs ++ diffs'). split; [done |].
    rewrite Hr, Ha, Hval, Hd, Hinvd, Happ. simpl.
    rewrite Hnb, rev_app_distr, <- !app_assoc. simpl.
    rewrite (cached_has_block X b p n) by done. split_and!; try done.
    intros Hnil. by destruct blocks.
Qed.

(** The validation loop on blocks that integrate, with everything it
    accumulates: the block diff of each block is published in the change
    and cached on the node of the block. *)
Lemma validate_good_full (fuel : nat) (sh : Z) (X : State)
    (v : Ledger * gmap Z Z * Z) (h : Z) (good : list Block) (ids : list Z)
    (vars : forkVars) :
  in_tree X h good -> integrable_chain v h good ->
  exists hp' vars',
    shape <$> hp' = shape <$> heap X /\
    validate fuel sh ((ID <$> good) ++ ids) vars (with_view v X) =
      validate fuel sh ids vars'
        (with_view (view_after v h good) (set_heap hp' X)) /\
    rewoundBlocks vars' = rewoundBlocks vars /\
    validatedBlocks vars' = (validatedBlocks vars + length good)%nat /\
    appliedBlocks vars' = appliedBlocks vars ++ good /\
    outputDiffs vars' = outputDiffs vars ++ chain_diffs v h good /\
    InvertedBlocks (cc vars') = InvertedBlocks (cc vars) /\
    AppliedBlocks (cc vars') =
      AppliedBlocks (cc vars) ++ chain_block_diffs v h good /\
    (forall q, (forall b, b ∈ good -> blockMap X !! ID b <> Some q) ->
               hp' !! q = heap X !! q) /\
    (forall i b, good !! i = Some b ->
       chain_block_diffs v h good !! i = Some (cached (set_heap hp' X) b)).
Proof.
  revert X v h vars. induction good as [|b good IH]; intros X v h vars Ht Hc.
  - exists (heap X), vars. simpl. rewrite !app_nil_r.
    split_and!; try done; lia.
  - destruct Ht as [Hb Ht]. destruct Hc as [Hi Hc].
    pose proof Hi as (Hp & Hv & Hf & Hn).
    pose proof Hb as (p & n & Hmap & Hheap & Hnb & Hh).
    simpl.
    rewrite (bind_Ok _ _ _ _ _ (blockMap_at_ok (with_view v X) _ p Hmap)).
    rewrite (bind_Ok _ _ _ _ _ (load_ok (with_view v X) p n Hheap)).
    rewrite Hnb.
    rewrite (bind_Ok _ _ _ _ _ (integrateBlock_with_view X v b (h + 1) Hb Hv)).
    simpl.
    set (v1 := view_integrate v b (h + 1)).
    rewrite (bind_Ok _ _ _ _ _ (blockMap_at_ok (with_view v1 X) _ p Hmap)).
    rewrite (bind_Ok _ _ _ _ _ (load_ok (with_view v1 X) p n Hheap)).
    rewrite (bind_Ok _ _ _ _ _ (store_with_view v1 X p _)).
    set (bd := integrate_diff v.1.1 b zeroBlockDiff (h + 1)).
    set (X1 := set_heap (<[p := set_NodeBlockDiff bd n]> (heap X)) X).
    assert (Hs1 : shape <$> heap X = shape <$> heap X1).
    { symmetry. by apply (same_shape_insert _ _ n). }
    assert (Ht1 : in_tree X1 (h + 1) good)
      by (by apply (in_tree_same_shape X X1)).
    match goal with
    | |- exists _ _, _ /\ validate _ _ _ ?V _ = _ /\ _ =>
        destruct (IH X1 v1 (h + 1) V Ht1 Hc)
          as (hp' & vars' & Hs & Hrun & Hr & Hval & Happ & Hd & Hinv & Hcc &
              Hkeep & Hcache)
    end.
    assert (Hp_kept : hp' !! p = Some (set_NodeBlockDiff bd n)).
    { rewrite Hkeep.
      - simpl. apply list_lookup_insert_eq. by eapply lookup_lt_Some.
      - intros b' Hb' Hq. simpl in Hq.
        apply list_elem_of_lookup_1 in Hb' as (j & Hj).
        destruct (in_tree_lookup X (h + 1) good j b' Ht Hj)
          as (p' & n' & Hmap' & Hheap' & _ & Hh').
        assert (p' = p) by congruence. subst p'.
        assert (n' = n) by congruence. subst n'. lia. }
    exists hp', vars'. split; [by rewrite Hs |].
    split; [exact Hrun |]. rewrite Hr, Hval, Happ, Hd, Hinv, Hcc. simpl.
    rewrite <- !app_assoc. simpl.
    split_and!; try done.
    + intros q Hq. rewrite Hkeep.
      * simpl. apply list_lookup_insert_ne. intros <-.
        by apply (Hq b (list_elem_of_here _ _)).
      * intros b' Hb'. apply (Hq b'). by right.
    + intros [|i] b' Hi'; simpl in Hi' |- *.
      * injection Hi' as <-.
        f_equal. symmetry.
        exact (cached_has_block (set_heap hp' X) b p _ Hmap Hp_kept).
      * by apply Hcache.
Qed.


(** The run of [forkBlockchain] in the situation of a successful fork
    attempt. *)
Lemma forkBlockchain_switch_run `{!CollaboratorLaws} (s : State)
    (newNode : nat) (v0 : Ledger * gmap Z Z * Z) (a : Block) (ha : Z)
    (rs branch : list Block) (fuel : nat) :
  winning_fork s newNode v0 a ha rs branch ->
  (length branch + length rs < fuel)%nat ->
  exists hp' undone,
    shape <$> hp' = shape <$> heap s /\
    forkBlockchain fuel newNode s =
      Ok ((rev rs, branch, undone ++ chain_diffs v0 ha branch, None),
          set_notifications
            (notifications s ++
               [ {| InvertedBlocks := cached s <$> rev rs;
                    AppliedBlocks := chain_block_diffs v0 ha branch |} ])
            (set_transactionPool
               (cleanTransactionPool (view_after v0 ha branch).1.1
                  (transactionPool s))
               (with_view (view_after v0 ha branch) (set_heap hp' s)))) /\
    (forall i b, branch !! i = Some b ->
       chain_block_diffs v0 ha branch !! i = Some (cached (set_heap hp' s) b)) /\
    (rs = [] -> undone = []).
Proof.
  intros [Ha Hpath Hv0 Hrt Hview Hrc Hne Hbt Hbo Htip Hbc] Hfuel.
  assert (Hbl : linked (ID a) branch).
  { rewrite <- Hv0. by apply (integrable_chain_linked v0 ha). }
  pose proof (in_tree_last s a ha _ Ha Hbt) as (pt & nt & Htmap & Htheap & Htb & Hth).
  assert (pt = newNode) by congruence. subst pt.
  destruct (commonParent_chain fuel s a ha branch nt []
              Ha Hpath Hbt Hbl Hbo ltac:(lia) Htb Hth) as (an & Hwalk & Han).
  unfold forkBlockchain.
  rewrite (bind_Ok _ _ _ _ _ (load_ok s newNode nt Htheap)).
  rewrite (bind_Ok _ _ _ _ _ Hwalk). simpl.
  set (sh := if DEBUG
             then StateHash (ledger s) (currentPath s) (currentBlockID s)
             else 0).
  assert (Hsh : (if DEBUG then State_StateHash else ret 0) s = Ok (sh, s))
    by (unfold sh; by destruct DEBUG).
  rewrite (bind_Ok _ _ _ _ _ Hsh).
  rewrite Han, <- Hv0.
  assert (Hrs_ne : Forall (fun b => ID b <> v0.2) rs)
    by (rewrite Hv0; by apply (in_tree_ids_differ s a ha)).
  match goal with
  | |- exists _ _, _ /\ bind (rewind _ _ ?V) _ _ = _ /\ _ =>
      destruct (rewind_chain_full fuel s v0 ha rs V ltac:(lia) Hrt Hrc Hrs_ne)
        as (vars1 & undone & Hrew & Hr1 & Ha1 & Hval1 & Hd1 & Hi1 & Hc1 & Hnone)
  end.
  rewrite <- Hview, with_view_view in Hrew.
  rewrite (bind_Ok _ _ _ _ _ Hrew).
  simpl in Hr1, Ha1, Hval1, Hd1, Hi1, Hc1.
  rewrite rev_involutive.
  destruct (validate_good_full fuel sh s v0 ha branch [] vars1 Hbt Hbc)
    as (hp' & vars2 & Hs & Hrun & Hr2 & Hval2 & Ha2 & Hd2 & Hi2 & Hc2 &
        _ & Hcache).
  rewrite app_nil_r in Hrun.
  unfold bind at 1. rewrite Hrun. clear Hrun. simpl.
  exists hp', undone. split; [done |]. split; [| done].
  rewrite Hr2, Hr1, Ha2, Ha1, Hd2, Hd1. simpl.
  unfold_M. rewrite bool_decide_eq_true_2 by done. simpl.
  destruct (cc vars2) as [inv app]. simpl in Hi2, Hc2.
  by rewrite Hi2, Hi1, Hc2, Hc1.
Qed.

(** X18. In the situation of a successful fork attempt, [forkBlockchain]
    returns for every large enough fuel, with the nil error.  It returns the
    blocks of the old branch, tip first, as rewound and the blocks of the
    new branch, in order, as applied; the output diffs end with those of
    the integrations.  The consensus state is then the result of
    integrating the new branch on the state at the common parent: the tip
    of the branch is the current block and the current path holds the
    branch.  One [ConsensusChange] is published, with one inverted block
    diff per rewound block and one applied block diff per applied block.
    The block map and the bad blocks are as before, the nodes keep their
    blocks, children and heights, and the transaction pool has been
    cleaned against the new ledger. *)
Theorem forkBlockchain_switches `{!CollaboratorLaws} (s : State)
    (newNode : nat) (v0 : Ledger * gmap Z Z * Z) (a : Block) (ha : Z)
    (rs branch : list Block) :
  winning_fork s newNode v0 a ha rs branch ->
  exists fuel0, forall fuel, (fuel0 <= fuel)%nat ->
    exists undone c s',
      forkBlockchain fuel newNode s =
        Ok ((rev rs, branch, undone ++ chain_diffs v0 ha branch, None), s') /\
      consensus_view s' = view_after v0 ha branch /\
      currentBlockID s' = ID (List.last branch a) /\
      (forall i b, branch !! i = Some b ->
         currentPath s' !! (ha + 1 + Z.of_nat i) = Some (ID b)) /\
      (forall k, k <= ha -> currentPath s' !! k = currentPath s !! k) /\
      notifications s' = notifications s ++ [c] /\
      length (InvertedBlocks c) = length rs /\
      AppliedBlocks c = chain_block_diffs v0 ha branch /\
      CatalystBlock <$> AppliedBlocks c = ID <$> branch /\
      blockMap s' = blockMap s /\ badBlocks s' = badBlocks s /\
      shape <$> heap s' = shape <$> heap s /\
      transactionPool s' = cleanTransactionPool (ledger s') (transactionPool s).
Proof.
  intros Hfork. exists (S (length branch + length rs)). intros fuel Hfuel.
  destruct (forkBlockchain_switch_run s newNode v0 a ha rs branch fuel Hfork
              ltac:(lia)) as (hp' & undone & Hs & Hrun & _ & _).
  destruct Hfork as [Ha Hpath Hv0 Hrt Hview Hrc Hne Hbt Hbo Htip Hbc].
  eexists undone, _, _. split; [exact Hrun |]. simpl.
  split; [by destruct (view_after v0 ha branch) as [[? ?] ?] |].
  split.
  { destruct branch as [|b0 branch _] using rev_ind; [done |].
    rewrite view_after_tip. by rewrite last_last. }
  split; [intros i b Hi; by apply view_after_path |].
  split.
  { intros k Hk. rewrite view_after_path_low by done.
    assert (Hp : currentPath s = (view_after v0 ha rs).1.2)
      by (by rewrite <- Hview).
    rewrite Hp. by rewrite view_after_path_low. }
  split; [done |].
  split; [simpl; by rewrite length_fmap, length_rev |].
  split; [done |].
  split; [| done].
  change (CatalystBlock <$> chain_block_diffs v0 ha branch = ID <$> branch).
  clear. revert v0 ha. induction branch as [|b branch IH]; intros v0 ha; [done |].
  simpl. by rewrite IH.
Qed.

(** X19. The block diffs published by a successful fork attempt are those
    cached on the nodes: the inverted block diffs are the diffs cached on
    the nodes of the rewound blocks, tip first, and the applied block diff
    of each block of the new branch is cached on its node, where a later
    rewinding of the block will find it. *)
Theorem forkBlockchain_caches_diffs `{!CollaboratorLaws} (s : State)
    (newNode : nat) (v0 : Ledger * gmap Z Z * Z) (a : Block) (ha : Z)
    (rs branch : list Block) :
  winning_fork s newNode v0 a ha rs branch ->
  exists fuel0, forall fuel, (fuel0 <= fuel)%nat ->
    exists r c s',
      forkBlockchain fuel newNode s = Ok (r, s') /\
      notifications s' = notifications s ++ [c] /\
      InvertedBlocks c = cached s <$> rev rs /\
      (forall i b, branch !! i = Some b ->
         AppliedBlocks c !! i = Some (cached s' b)).
Proof.
  intros Hfork. exists (S (length branch + length rs)). intros fuel Hfuel.
  destruct (forkBlockchain_switch_run s newNode v0 a ha rs branch fuel Hfork
              ltac:(lia)) as (hp' & undone & Hs & Hrun & Hcache & _).
  eexists _, _, _. split; [exact Hrun |]. simpl.
  split; [done |]. split; [done |]. exact Hcache.
Qed.

(** *** Orphans and remembered headers in AcceptBlock *)

(** X20. [AcceptBlock] never removes a block from the orphan pool: a block
    staged before the call is staged after it, also when the call accepts
    the parent the block was waiting for.  Unless the call answers
    [UnknownOrphanErr], the orphan pool is as it was. *)
Theorem AcceptBlock_keeps_orphans (fuel : nat) (now : Z) (b : Block)
    (s s' : State)
    (r : list Block * list Block * list OutputDiff * option error) :
  AcceptBlock fuel now b s = Ok (r, s') ->
  (forall parent id b0, staged s parent id b0 -> staged s' parent id b0) /\
  (r.2 <> Some UnknownOrphanErr -> missingParents s' = missingParents s).
Proof.
  intros H. unfold AcceptBlock in H.
  inv_bind H err s1 Hd.
  assert (Hd' : (forall parent id b0,
                   staged s parent id b0 -> staged s1 parent id b0) /\
                (err <> Some UnknownOrphanErr ->
                 missingParents s1 = missingParents s)).
  { revert Hd. unfold checkDestiny. rewrite bind_get.
    destruct (decide (ID b ∈ badBlocks s)); [by intros [= <- <-] |].
    destruct (blockMap s !! ID b); [by intros [= <- <-] |].
    destruct (blockMap s !! ParentBlockID b) eqn:Hpar; [by intros [= <- <-] |].
    intros Hd. split; [intros parent id b0; by eapply handleOrphanBlock_staged |].
    destruct (handleOrphanBlock_cases s b Hpar) as [[_ Hc]|[_ Hc]];
      rewrite Hc in Hd; injection Hd as <- <-; done. }
  destruct Hd' as [Hkeep Hsame].
  destruct err as [e1|]; [by injection H as <- <- |].
  assert (Hm1 : missingParents s1 = missingParents s) by (by apply Hsame).
  assert (Hall : missingParents s' = missingParents s1 ->
    (forall parent id b0, staged s parent id b0 -> staged s' parent id b0) /\
    (r.2 <> Some UnknownOrphanErr -> missingParents s' = missingParents s)).
  { intros Heq. split; [| intros _; congruence].
    intros parent id b0 Hst. apply Hkeep in Hst. unfold staged in *.
    by rewrite Heq. }
  apply Hall. clear Hall Hkeep Hsame Hm1 Hd.
  inv_bind H parent s2 Hp. pure Hp.
  inv_bind H err s2 Hv. framed Hv missingParents Hm2.
  destruct err as [e2|]; [by injection H as _ <- |].
  destruct (decide (Z.of_nat (length (Marshal b)) > BlockSizeLimit));
    [by injection H as _ <- |].
  inv_bind H newNode s3 Hadd. inv_bind H hv s4 Hheavy.
  pose proof (heavierFork_pure _ _ _ _ Hheavy) as E. simpl in E. subst s4.
  inv_bind H r' s5 Hfork.
  apply pruned_fork_or_not in Hfork. destruct Hfork as (_ & _ & _ & Hm5 & _).
  apply addBlockToTree_inv in Hadd
    as (pn & target & depth & Hpn & _ & _ & _ & ->).
  simpl in Hm5.
  destruct (r'.2); [injection H as _ <-; congruence |].
  inv_bind H u s6 Hnotify. inv_bind H u' s7 Hcheck. injection H as _ <-.
  injection Hnotify as _ <-.
  assert (s7 = set_notifications (notifications s5 ++ [zeroConsensusChange]) s5)
    as ->.
  { destruct DEBUG; [| by injection Hcheck as _ <-].
    pose proof (CurrentPathCheck_pure _ _ _ Hcheck) as E. by simpl in E. }
  simpl. congruence.
Qed.

(** X21. A block whose id is neither bad nor in the block map and whose
    parent is not in the block map is answered by [AcceptBlock] with an
    orphan error and three empty lists: [KnownOrphanErr] exactly when it
    was recorded already.  The call writes the orphan pool only, the block
    is recorded afterwards, and submitting it again is answered with
    [KnownOrphanErr] and changes nothing. *)
Theorem AcceptBlock_orphan (fuel : nat) (now : Z) (b : Block) (s : State) :
  (ID b ∉ badBlocks s) ->
  blockMap s !! ID b = None ->
  blockMap s !! ParentBlockID b = None ->
  exists e s1,
    AcceptBlock fuel now b s = Ok (([], [], [], Some e), s1) /\
    (e = KnownOrphanErr \/ e = UnknownOrphanErr) /\
    (e = KnownOrphanErr <-> orphan_recorded s b) /\
    s1 = set_missingParents (missingParents s1) s /\
    orphan_recorded s1 b /\
    forall fuel' now',
      AcceptBlock fuel' now' b s1 = Ok (([], [], [], Some KnownOrphanErr), s1).
Proof.
  intros Hbad Hid Hpar.
  assert (Hcheck : forall s0 : State,
    badBlocks s0 = badBlocks s -> blockMap s0 = blockMap s ->
    checkDestiny b s0 = handleOrphanBlock b s0).
  { intros s0 Hb Hm. unfold checkDestiny. rewrite bind_get.
    rewrite Hb, Hm, decide_False by done. by rewrite Hid, Hpar. }
  assert (Hknown : forall s0 : State,
    badBlocks s0 = badBlocks s -> blockMap s0 = blockMap s ->
    orphan_recorded s0 b ->
    forall fuel' now',
      AcceptBlock fuel' now' b s0 = Ok (([], [], [], Some KnownOrphanErr), s0)).
  { intros s0 Hb Hm Hrec fuel' now'. unfold AcceptBlock. unfold bind at 1.
    rewrite (Hcheck s0 Hb Hm).
    destruct (handleOrphanBlock_cases s0 b) as [[_ Hc]|[Hn _]];
      [by rewrite Hm | by rewrite Hc | done]. }
  unfold AcceptBlock. unfold bind at 1. rewrite (Hcheck s eq_refl eq_refl).
  destruct (handleOrphanBlock_cases s b Hpar) as [[Hrec Hc]|[Hrec Hc]];
    rewrite Hc.
  - exists KnownOrphanErr, s. split; [done |]. split; [by left |].
    split; [done |]. split; [by destruct s |]. split; [done |].
    by apply Hknown.
  - exists UnknownOrphanErr, (stage s b). split; [done |]. split; [by right |].
    split; [split; [done | intros Hx; by destruct Hrec] |].
    split; [done |]. split; [apply orphan_recorded_stage |].
    apply Hknown; [done | done | apply orphan_recorded_stage].
Qed.

(** X22. A block that [AcceptBlock] rejects with the past-timestamp error
    or with the merkle root error is remembered: its id is recorded as
    bad, and submitting it again, at any time, is answered with the
    invalid-block error and changes nothing. *)
Theorem AcceptBlock_bad_header_remembered (fuel : nat) (now : Z) (b : Block)
    (s s' : State)
    (r : list Block * list Block * list OutputDiff * option error) :
  AcceptBlock fuel now b s = Ok (r, s') ->
  r.2 = Some timestampError \/ r.2 = Some merkleError ->
  ID b ∈ badBlocks s' /\
  (ID b ∉ badBlocks s) /\
  forall fuel' now',
    AcceptBlock fuel' now' b s' = Ok (([], [], [], Some invalidError), s').
Proof.
  intros H He. unfold AcceptBlock in H.
  inv_bind H err s1 Hd.
  assert (Hnone : err = None).
  { destruct err as [e1|]; [| done]. injection H as <- <-. simpl in He.
    revert Hd. unfold checkDestiny. rewrite bind_get.
    destruct (decide (ID b ∈ badBlocks s));
      [intros [= <- <-]; by destruct He |].
    destruct (blockMap s !! ID b); [intros [= <- <-]; by destruct He |].
    destruct (blockMap s !! ParentBlockID b) eqn:Hpar; [done |].
    intros Hd.
    destruct (handleOrphanBlock_cases s b Hpar) as [[_ Hc]|[_ Hc]];
      rewrite Hc in Hd; injection Hd as <- <-; by destruct He. }
  subst err. apply checkDestiny_nil_inv in Hd as (-> & Hbad & Hid & _).
  inv_bind H parent s2 Hp. pure Hp.
  inv_bind H err s2 Hv.
  assert (Hin : ID b ∈ badBlocks s').
  { destruct err as [e2|].
    - injection H as <- <-. simpl in He. revert Hv.
      unfold validateHeader. unfold_M.
      destruct (heap s !! parent) as [pn|]; [| done].
      destruct (CheckTarget b (Target pn)); simpl;
        [| intros [= <- <-]; by destruct He].
      destruct (decide (int64 (Timestamp b - now) > FutureThreshold));
        [intros [= <- <-]; by destruct He |].
      destruct (earliestChildTimestamp pn) as [m|]; [| done]. simpl.
      destruct (decide (m > Timestamp b));
        [intros [= _ <-]; simpl; apply elem_of_union_l; by apply elem_of_singleton |].
      destruct (decide (MerkleRoot b ≠ TransactionMerkleRoot b));
        [intros [= _ <-]; simpl; apply elem_of_union_l; by apply elem_of_singleton
        | intros [= <- <-]; by destruct He].
    - exfalso. apply validateHeader_nil_inv in Hv as ->.
      destruct (decide (Z.of_nat (length (Marshal b)) > BlockSizeLimit)).
      { injection H as <- <-. by destruct He. }
      inv_bind H newNode s3 Hadd. inv_bind H hv s4 Hheavy.
      inv_bind H r' s5 Hfork.
      assert (Hr' : r'.2 = None).
      { destruct hv.
        - by apply forkBlockchain_published in Hfork as [Hnil _].
        - by injection Hfork as <- <-. }
      rewrite Hr' in H.
      inv_bind H u s6 Hnotify. inv_bind H u' s7 Hcheck. injection H as <- <-.
      rewrite Hr' in He. by destruct He. }
  split; [done |]. split; [done |]. intros fuel' now'.
  unfold AcceptBlock. unfold bind at 1. unfold checkDestiny. rewrite bind_get.
  by rewrite decide_True.
Qed.

(** *** The miner subsidy *)

(** X23. A block whose transactions are valid in order, and whose node is
    in the tree, is integrated with the nil error.  The block becomes the
    current block, the current path holds its id at the height of its
    node, and its subsidy output is written over whatever the unspent
    outputs held under the subsidy id: it pays to the miner address of the
    block the miner fees of the transactions, summed in order from zero,
    plus the coinbase of the height of the block.  The block tree is not
    written. *)
Theorem integrateBlock_subsidy (s : State) (b : Block) (bd : BlockDiff)
    (p : nat) (n : BlockNode) :
  all_valid (Transactions b) (ledger s) ->
  blockMap s !! ID b = Some p ->
  heap s !! p = Some n ->
  exists diffs bd' s',
    integrateBlock b bd s = Ok ((diffs, None, bd'), s') /\
    unspentOutputs (ledger s') !! SubsidyID b =
      Some {| Value := CurrencyAdd (fees_after (Transactions b) CurrencyZero)
                         (CalculateCoinbase (Height n));
              SpendHash := MinerAddress b |} /\
    currentBlockID s' = ID b /\
    currentPath s' = <[Height n := ID b]> (currentPath s) /\
    CatalystBlock bd' = ID b /\
    heap s' = heap s /\ blockMap s' = blockMap s /\
    badBlocks s' = badBlocks s /\ notifications s' = notifications s.
Proof.
  intros Hv Hp Hn. eexists _, _, _.
  split; [by apply (integrateBlock_success s b bd p n) |].
  simpl. split_and!; try done. apply lookup_insert_eq.
Qed.

(** *** What the writers of the consensus state leave alone *)

(** X24. Whatever they return, [integrateBlock] and [invertRecentBlock]
    write the consensus state only: the unspent outputs and the contract
    state, the current path and the current block id.  The block tree, the
    bad blocks, the orphan pool, the transaction pool and the subscribers'
    log are as before. *)
Theorem consensus_writers :
  (forall (b : Block) (bd : BlockDiff) (s s' : State)
          (r : list OutputDiff * option error * BlockDiff),
     integrateBlock b bd s = Ok (r, s') ->
     s' = with_view (consensus_view s') s) /\
  (forall (s s' : State) (r : list OutputDiff),
     invertRecentBlock s = Ok (r, s') ->
     s' = with_view (consensus_view s') s).
Proof.
  split.
  - intros b bd s s' r.
    apply (view_only_intro _ (fun v0 => erased_integrateBlock v0 b bd)).
  - intros s s' r.
    apply (view_only_intro _ erased_invertRecentBlock).
Qed.

(** X25. Whatever [forkBlockchain] does, the error it returns is nil, and
    it prunes the block tree at most: the nodes keep their blocks, children
    and heights, no id is added to the block map, an id leaves the block
    map only by being recorded as bad, and no bad block is forgotten; the
    orphan pool is not written.  It publishes one [ConsensusChange] when it
    returns applied blocks, with one applied block diff per block, and none
    otherwise. *)
Theorem forkBlockchain_writes (fuel : nat) (p : nat) (s s' : State)
    (r : list Block * list Block * list OutputDiff * option error) :
  forkBlockchain fuel p s = Ok (r, s') ->
  r.2 = None /\
  pruned s s' /\
  (r.1.1.2 = [] /\ notifications s' = notifications s \/
   r.1.1.2 <> [] /\
   exists c, notifications s' = notifications s ++ [c] /\
             length (AppliedBlocks c) = length r.1.1.2).
Proof.
  intros H. pose proof (forkBlockchain_published _ _ _ _ _ H) as [Hnil Hpub].
  split; [done |]. split; [by eapply forkBlockchain_pruned | done].
Qed.

(** *** A block that passes the checks, from submission to publication *)

Lemma checkDestiny_passes (s : State) (b : Block) (parent : nat) :
  (ID b ∉ badBlocks s) -> blockMap s !! ID b = None ->
  blockMap s !! ParentBlockID b = Some parent ->
  checkDestiny b s = Ok (None, s).
Proof.
  intros Hbad Hid Hparent. unfold checkDestiny. rewrite bind_get.
  rewrite decide_False by done. by rewrite Hid, Hparent.
Qed.

Lemma heavierFork_eval (s : State) (newNode tipPtr : nat) (node tip : BlockNode) :
  blockMap s !! currentBlockID s = Some tipPtr ->
  heap s !! tipPtr = Some tip ->
  heap s !! newNode = Some node ->
  0 < Target tip -> 0 < Depth tip -> 0 < Depth node ->
  heavierFork newNode s =
    Ok (Rat_Cmp (/ Qc_of_Z (Depth node))
          (/ Qc_of_Z (Depth tip) + / Qc_of_Z (Target tip) * SurpassThreshold)
        =? 1, s).
Proof.
  intros Htip Hheap Hnode Ht Hd Hn.
  unfold heavierFork, CurrentBlockWeight, State_Depth, currentBlockNode.
  unfold_M. rewrite Htip, Hheap.
  rewrite (Target_Inverse_ok (Target tip)) by lia. rewrite Htip, Hheap.
  rewrite (Target_Inverse_ok (Depth tip)) by lia. rewrite Hnode.
  by rewrite (Target_Inverse_ok (Depth node)) by lia.
Qed.

Lemma tree_with_lookup (s : State) (parent : nat) (pn : BlockNode) (b : Block)
    (node : BlockNode) (q : nat) :
  heap s !! parent = Some pn ->
  heap (tree_with s parent pn b node) !! q =
    if decide (q = parent)
    then Some (set_Children (Children pn ++ [length (heap s)]) pn)
    else if decide (q = length (heap s)) then Some node
    else heap s !! q.
Proof.
  intros Hpn. pose proof (lookup_lt_Some _ _ _ Hpn) as Hlt. simpl.
  destruct (decide (q = parent)) as [->|Hq].
  - rewrite list_lookup_insert_eq; [done |]. rewrite length_app. lia.
  - rewrite list_lookup_insert_ne by done.
    destruct (decide (q = length (heap s))) as [->|Hq'].
    + by rewrite lookup_app_r, Nat.sub_diag by lia.
    + destruct (decide (q < length (heap s))%nat).
      * by rewrite lookup_app_l.
      * rewrite lookup_app_r by lia. rewrite (lookup_ge_None_2 (heap s)) by lia.
        apply lookup_ge_None_2. simpl. lia.
Qed.

Lemma tree_with_old (s : State) (parent : nat) (pn : BlockNode) (b : Block)
    (node : BlockNode) (q : nat) (m : BlockNode) :
  heap s !! parent = Some pn -> heap s !! q = Some m ->
  exists m', heap (tree_with s parent pn b node) !! q = Some m' /\
             NodeBlock m' = NodeBlock m /\ Height m' = Height m /\
             Depth m' = Depth m /\ Target m' = Target m.
Proof.
  intros Hpn Hq. rewrite (tree_with_lookup _ _ _ _ _ _ Hpn).
  destruct (decide (q = parent)) as [->|Hne].
  - assert (m = pn) as -> by congruence. eexists. by split_and!.
  - rewrite decide_False by (apply lookup_lt_Some in Hq; lia).
    exists m. by split_and!.
Qed.

(** The walk of the DEBUG check reads the current path at and below its
    height, the block map, and the blocks of the nodes. *)
Lemma pathCheck_ext (n : nat) (i : Z) (node node' : BlockNode) (s s' : State) :
  NodeBlock node' = NodeBlock node ->
  (forall j, j <= i -> currentPath s' !! j = currentPath s !! j) ->
  (forall id p, blockMap s !! id = Some p -> blockMap s' !! id = Some p) ->
  (forall p m, heap s !! p = Some m ->
     exists m', heap s' !! p = Some m' /\ NodeBlock m' = NodeBlock m) ->
  pathCheck n i node s = Ok (tt, s) ->
  pathCheck n i node' s' = Ok (tt, s').
Proof.
  intros Hb Hpath Hmap Hheap. revert i node node' Hb Hpath.
  induction n as [|n IH]; intros i node node' Hb Hpath H; [done |].
  simpl in *. rewrite bind_get in *. rewrite Hpath by lia.
  destruct (currentPath s !! i) as [id|]; [| done]. rewrite Hb.
  destruct (decide (ID (NodeBlock node) ≠ id)); [done |].
  destruct (blockMap s !! ParentBlockID (NodeBlock node)) as [p|] eqn:Hp;
    [| done].
  rewrite (Hmap _ _ Hp).
  apply bind_Ok_inv in H as (m & s1 & Hm & H).
  unfold load in Hm. rewrite bind_get in Hm.
  destruct (heap s !! p) as [m0|] eqn:Hm0; [| done].
  injection Hm as <- <-.
  destruct (Hheap p m0 Hm0) as (m' & Hm' & Hbm).
  rewrite (bind_Ok _ _ _ _ _ (load_ok s' p m' Hm')).
  apply (IH (i - 1) m0 m' Hbm); [| done].
  intros j Hj. apply Hpath. lia.
Qed.

Lemma CurrentPathCheck_inv (s : State) (tipPtr : nat) (tip : BlockNode) :
  blockMap s !! currentBlockID s = Some tipPtr ->
  heap s !! tipPtr = Some tip ->
  CurrentPathCheck s = Ok (tt, s) ->
  pathCheck (Z.to_nat (Height tip)) (Height tip) tip s = Ok (tt, s).
Proof.
  intros Hp Hn. unfold CurrentPathCheck.
  rewrite (bind_Ok _ _ _ _ _ (currentBlockNode_ok s tipPtr Hp)).
  rewrite (bind_Ok _ _ _ _ _ (load_ok s tipPtr tip Hn)).
  by rewrite (bind_Ok _ _ _ _ _ (State_Height_ok s tipPtr tip Hp Hn)).
Qed.

Lemma CurrentPathCheck_intro (s : State) (tipPtr : nat) (tip : BlockNode) :
  blockMap s !! currentBlockID s = Some tipPtr ->
  heap s !! tipPtr = Some tip ->
  pathCheck (Z.to_nat (Height tip)) (Height tip) tip s = Ok (tt, s) ->
  CurrentPathCheck s = Ok (tt, s).
Proof.
  intros Hp Hn. unfold CurrentPathCheck.
  rewrite (bind_Ok _ _ _ _ _ (currentBlockNode_ok s tipPtr Hp)).
  rewrite (bind_Ok _ _ _ _ _ (load_ok s tipPtr tip Hn)).
  by rewrite (bind_Ok _ _ _ _ _ (State_Height_ok s tipPtr tip Hp Hn)).
Qed.

(** The DEBUG check of [AcceptBlock] passes again when the current block
    and the current path at and below its height are the same, the block
    map has only grown and the nodes hold the same blocks. *)
Lemma sanity_kept (s s' : State) (tipPtr : nat) (tip : BlockNode) :
  blockMap s !! currentBlockID s = Some tipPtr ->
  heap s !! tipPtr = Some tip ->
  currentBlockID s' = currentBlockID s ->
  (forall j, j <= Height tip -> currentPath s' !! j = currentPath s !! j) ->
  (forall id p, blockMap s !! id = Some p -> blockMap s' !! id = Some p) ->
  (forall p m, heap s !! p = Some m ->
     exists m', heap s' !! p = Some m' /\ NodeBlock m' = NodeBlock m /\
                Height m' = Height m) ->
  (if DEBUG then CurrentPathCheck else ret tt) s = Ok (tt, s) ->
  (if DEBUG then CurrentPathCheck else ret tt) s' = Ok (tt, s').
Proof.
  intros Hp Hn Hcur Hpath Hmap Hheap H. destruct DEBUG; [| done].
  destruct (Hheap _ _ Hn) as (tip' & Hn' & Hb' & Hh').
  apply (CurrentPathCheck_intro s' tipPtr tip').
  - rewrite Hcur. by apply Hmap.
  - done.
  - rewrite Hh'.
    apply (pathCheck_ext _ _ tip tip' s s'); try done.
    + intros p m Hm. destruct (Hheap p m Hm) as (m' & ? & ? & _). eauto.
    + by apply (CurrentPathCheck_inv s tipPtr).
Qed.

Lemma AcceptBlock_added (fuel : nat) (now : Z) (b : Block) (s : State)
    (parent : nat) (pn : BlockNode) (target depth : Z) :
  acceptable now s b parent pn target depth ->
  AcceptBlock fuel now b s =
    (heavier <- heavierFork (length (heap s)) ;;
     r <- (if heavier : bool then forkBlockchain fuel (length (heap s))
           else ret ([], [], [], None)) ;;
     match r.2 with
     | Some e => ret r
     | None =>
         notifySubscribers zeroConsensusChange ;;;
         (if DEBUG then CurrentPathCheck else ret tt) ;;;
         ret r
     end)
      (tree_with s parent pn b (child_node pn b target depth)).
Proof.
  intros [Hbad Hnew Hparent Hpn Hheader Hsize Ht Hd _]. unfold AcceptBlock.
  rewrite (bind_Ok _ _ _ _ _ (checkDestiny_passes s b parent Hbad Hnew Hparent)).
  rewrite (bind_Ok _ _ _ _ _ (blockMap_at_ok s _ parent Hparent)).
  rewrite (bind_Ok _ _ _ _ _ Hheader).
  rewrite decide_False by done.
  by rewrite (bind_Ok _ _ _ _ _ (addBlockToTree_ok s parent pn b target depth
                                   Hpn Ht Hd)).
Qed.

Lemma heavierFork_added (s : State) (b : Block) (parent tipPtr : nat)
    (pn tip : BlockNode) (target depth : Z) :
  blockMap s !! ID b = None ->
  heap s !! parent = Some pn ->
  at_tip s tipPtr tip -> 0 < depth ->
  heavierFork (length (heap s))
    (tree_with s parent pn b (child_node pn b target depth)) =
    Ok (Rat_Cmp (/ Qc_of_Z depth)
          (/ Qc_of_Z (Depth tip) + / Qc_of_Z (Target tip) * SurpassThreshold)
        =? 1,
        tree_with s parent pn b (child_node pn b target depth)).
Proof.
  intros Hnew Hpn [Htip Hnode Ht Hd _] Hdepth.
  destruct (tree_with_old s parent pn b (child_node pn b target depth)
              tipPtr tip Hpn Hnode) as (tip' & Htip' & _ & _ & Hd' & Ht').
  rewrite <- Hd', <- Ht'.
  apply (heavierFork_eval _ _ tipPtr (child_node pn b target depth) tip').
  - simpl. rewrite lookup_insert_ne; [done |]. intros Heq. congruence.
  - done.
  - rewrite (tree_with_lookup _ _ _ _ _ _ Hpn).
    rewrite decide_False by (apply lookup_lt_Some in Hpn; lia).
    by rewrite decide_True.
  - lia.
  - lia.
  - done.
Qed.

(** X26. A block that passes the checks and whose node does not win
    [heavierFork] is put on a side branch, whatever the fuel: [AcceptBlock]
    returns three empty lists and the nil error, the node of the block is
    added to the tree below its parent, the consensus state is not written,
    and the empty [ConsensusChange] is the one change published. *)
Theorem AcceptBlock_side_branch (fuel : nat) (now : Z) (b : Block) (s : State)
    (parent tipPtr : nat) (pn tip : BlockNode) (target depth : Z) :
  acceptable now s b parent pn target depth ->
  at_tip s tipPtr tip ->
  ~ heavier depth (Depth tip) (Target tip) ->
  AcceptBlock fuel now b s =
    Ok (([], [], [], None),
        set_notifications (notifications s ++ [zeroConsensusChange])
          (tree_with s parent pn b (child_node pn b target depth))).
Proof.
  intros Hok Htip Hlight.
  rewrite (AcceptBlock_added fuel now b s parent pn target depth Hok).
  destruct Hok as [Hbad Hnew Hparent Hpn Hheader Hsize Ht Hd Hpos].
  rewrite (bind_Ok _ _ _ _ _
             (heavierFork_added s b parent tipPtr pn tip target depth
                Hnew Hpn Htip Hpos)).
  replace (Rat_Cmp _ _ =? 1) with false.
  2: { symmetry. apply not_true_is_false. by rewrite Rat_Cmp_gt. }
  unfold bind at 1. unfold ret at 1. simpl.
  unfold notifySubscribers. unfold bind at 1. unfold modify at 1.
  destruct Htip as [Htm Htn _ _ Hsane].
  set (s3 := tree_with s parent pn b (child_node pn b target depth)).
  assert (Hcheck : (if DEBUG then CurrentPathCheck else ret tt)
                     (set_notifications
                        (notifications s3 ++ [zeroConsensusChange]) s3) =
                   Ok (tt, set_notifications
                             (notifications s3 ++ [zeroConsensusChange]) s3)).
  { apply (sanity_kept s _ tipPtr tip); try done.
    - intros id p Hp. simpl. rewrite lookup_insert_ne; [done |]. congruence.
    - intros p m Hm.
      destruct (tree_with_old s parent pn b (child_node pn b target depth)
                  p m Hpn Hm) as (m' & Hm' & Hb' & Hh' & _).
      exists m'. by split_and!. }
  by rewrite (bind_Ok _ _ _ _ _ Hcheck).
Qed.

(** X27. A block that passes the checks, extends the current block, wins
    [heavierFork] and integrates on the consensus state becomes the current
    block.  [AcceptBlock] returns no rewound block, the block as the one
    applied block, the output diffs of its integration and the nil error.
    The consensus state is the result of integrating the block one above
    the old current block; the block diff of the integration is cached on
    the node of the block and published in a [ConsensusChange] with no
    inverted block, followed by the empty change.  The id of the block is
    not the zero id, which the walk to the common parent reads from the
    current path for a height that is not on it. *)
Theorem AcceptBlock_extends_tip `{!CollaboratorLaws} (fuel : nat) (now : Z)
    (b : Block) (s : State) (tipPtr : nat) (tip : BlockNode)
    (target depth : Z) :
  acceptable now s b tipPtr tip target depth ->
  at_tip s tipPtr tip ->
  ID (NodeBlock tip) = currentBlockID s ->
  currentPath s !! Height tip = Some (currentBlockID s) ->
  0 <= Height tip -> Height tip + 1 < 2 ^ 64 ->
  ID b <> 0 ->
  heavier depth (Depth tip) (Target tip) ->
  integrable (consensus_view s) b (Height tip + 1) ->
  (1 < fuel)%nat ->
  exists s',
    AcceptBlock fuel now b s =
      Ok (([], [b],
           integrate_diffs (ledger s) b zeroTransactionDiff (Height tip + 1),
           None), s') /\
    consensus_view s' = view_integrate (consensus_view s) b (Height tip + 1) /\
    notifications s' =
      notifications s ++
      [ {| InvertedBlocks := [];
           AppliedBlocks :=
             [integrate_diff (ledger s) b zeroBlockDiff (Height tip + 1)] |};
        zeroConsensusChange ] /\
    cached s' b = integrate_diff (ledger s) b zeroBlockDiff (Height tip + 1) /\
    blockMap s' = <[ID b := length (heap s)]> (blockMap s) /\
    badBlocks s' = badBlocks s /\
    missingParents s' = missingParents s.
Proof.
  intros Hok Htip Htid Hpath Hh0 Hh1 Hnz Hheavy Hint Hfuel.
  rewrite (AcceptBlock_added fuel now b s tipPtr tip target depth Hok).
  destruct Hok as [Hbad Hnew Hparent Hpn Hheader Hsize Ht Hd Hpos].
  rewrite (bind_Ok _ _ _ _ _
             (heavierFork_added s b tipPtr tipPtr tip tip target depth
                Hnew Hpn Htip Hpos)).
  replace (Rat_Cmp _ _ =? 1) with true
    by (symmetry; by rewrite Rat_Cmp_gt).
  destruct Htip as [Htm Htn _ _ Hsane].
  set (node := child_node tip b target depth).
  set (s3 := tree_with s tipPtr tip b node).
  set (ha := Height tip) in *.
  assert (Hne : currentBlockID s <> ID b) by (intros Heq; congruence).
  assert (Hnode : heap s3 !! length (heap s) = Some node).
  { unfold s3. rewrite (tree_with_lookup _ _ _ _ _ _ Hpn).
    rewrite decide_False by (apply lookup_lt_Some in Hpn; lia).
    by rewrite decide_True. }
  assert (Hhn : Height node = ha + 1) by (apply uint64_id; lia).
  (* the situation of the fork attempt *)
  assert (Hwin : winning_fork s3 (length (heap s)) (consensus_view s)
                   (NodeBlock tip) ha [] [b]).
  { split; try done.
    - destruct (tree_with_old s tipPtr tip b node tipPtr tip Hpn Hpn)
        as (tip' & Htip' & Hb' & Hh' & _).
      exists tipPtr, tip'. split_and!; try done.
      simpl. rewrite lookup_insert_ne by congruence. by rewrite Htid.
    - simpl. by rewrite Htid.
    - split; [| done]. exists (length (heap s)), node.
      split_and!; try done. simpl. apply lookup_insert_eq.
    - split; [| done]. simpl. destruct Hint as (_ & _ & _ & Hfree).
      simpl in Hfree. fold ha in Hfree. rewrite Hfree. simpl. congruence.
    - simpl. apply lookup_insert_eq. }
  destruct (forkBlockchain_switch_run s3 (length (heap s)) (consensus_view s)
              (NodeBlock tip) ha [] [b] fuel Hwin ltac:(simpl; lia))
    as (hp' & undone & Hs & Hrun & Hcache & Hnone).
  rewrite (Hnone eq_refl) in Hrun. simpl in Hrun.
  rewrite app_nil_r in Hrun.
  rewrite (bind_Ok _ _ _ _ _ Hrun). simpl.
  unfold notifySubscribers. unfold bind at 1. unfold modify at 1. simpl.
  match goal with
  | |- exists _, bind _ _ ?S = _ /\ _ => set (sG := S)
  end.
  (* the nodes of the final state *)
  assert (Hold : forall p m, heap s !! p = Some m ->
            exists m', heap sG !! p = Some m' /\ NodeBlock m' = NodeBlock m /\
                       Height m' = Height m).
  { intros p m Hm.
    destruct (tree_with_old s tipPtr tip b node p m Hpn Hm)
      as (m1 & Hm1 & Hb1 & Hh1' & _).
    destruct (same_shape_lookup (heap s3) hp' p m1 (eq_sym Hs) Hm1)
      as (m2 & Hm2 & Hsh).
    exists m2. unfold shape in Hsh. injection Hsh as Hx1 _ Hx3.
    split_and!; [done | congruence | congruence]. }
  destruct (same_shape_lookup (heap s3) hp' _ node (eq_sym Hs) Hnode)
    as (node' & Hnode' & Hsh').
  unfold shape in Hsh'. injection Hsh' as Hnb' _ Hnh'.
  assert (Hh' : Height node' = ha + 1)
    by (transitivity (Height node); [exact Hnh' | exact Hhn]).
  assert (Hb' : NodeBlock node' = b) by exact Hnb'.
  clear Hnb' Hnh'.
  (* the sanity check *)
  assert (Hcheck : (if DEBUG then CurrentPathCheck else ret tt) sG = Ok (tt, sG)).
  { destruct DEBUG eqn:Hdebug; [| done].
    apply (CurrentPathCheck_intro sG (length (heap s)) node').
    - simpl. apply lookup_insert_eq.
    - done.
    - rewrite Hh'.
      replace (Z.to_nat (ha + 1)) with (S (Z.to_nat ha)) by lia.
      simpl. rewrite bind_get. simpl. rewrite lookup_insert_eq.
      rewrite Hb'. simpl.
      rewrite decide_False by (intros Hx; by apply Hx).
      destruct Hint as (Hpar & _). simpl in Hpar. rewrite Hpar.
      rewrite lookup_insert_ne by congruence. rewrite Htm.
      destruct (Hold tipPtr tip Hpn) as (tip2 & Htip2 & Hb2 & Hh2).
      rewrite (bind_Ok _ _ _ _ _ (load_ok sG tipPtr tip2 Htip2)).
      replace (ha + 1 - 1) with ha by lia.
      apply (pathCheck_ext _ _ tip tip2 s sG); try done.
      + intros j Hj. simpl. rewrite lookup_insert_ne by lia. done.
      + intros id p Hp. simpl. rewrite lookup_insert_ne by congruence. done.
      + intros p m Hm. destruct (Hold p m Hm) as (m' & ? & ? & _). eauto.
      + by apply (CurrentPathCheck_inv s tipPtr). }
  exists sG. rewrite (bind_Ok _ _ _ _ _ Hcheck).
  split; [done |]. split; [done |]. split.
  { simpl. by rewrite <- app_assoc. }
  split.
  { specialize (Hcache 0%nat b eq_refl). simpl in Hcache.
    injection Hcache as Hcache. symmetry. exact Hcache. }
  done.
Qed.

(** *** The DEBUG check along a chain *)

Lemma pathCheck_node (k : nat) (i : Z) (n n' : BlockNode) (s : State) :
  NodeBlock n = NodeBlock n' -> pathCheck k i n s = pathCheck k i n' s.
Proof. intros H. destruct k as [|k]; [done |]. simpl. by rewrite H. Qed.

(** On a chain [cs] above the block [a] whose blocks are the blocks of the
    current path at their heights, the walk of the check from the tip of
    the chain passes exactly when the walk from the node of [a] does. *)
Lemma pathCheck_chain (s : State) (a : Block) (ha : Z) (cs : list Block)
    (n an : BlockNode) :
  0 <= ha -> has_block s a ha -> NodeBlock an = a ->
  in_tree s ha cs -> linked (ID a) cs ->
  (forall i b, cs !! i = Some b ->
     currentPath s !! (ha + 1 + Z.of_nat i) = Some (ID b)) ->
  NodeBlock n = List.last cs a ->
  pathCheck (Z.to_nat (ha + Z.of_nat (length cs)))
    (ha + Z.of_nat (length cs)) n s = Ok (tt, s) <->
  pathCheck (Z.to_nat ha) ha an s = Ok (tt, s).
Proof.
  intros Hha Ha Han. revert n.
  induction cs as [|c cs IH] using rev_ind; intros n Ht Hl Hpath Hn.
  - simpl in *. rewrite Z.add_0_r.
    rewrite (pathCheck_node _ _ n an) by congruence. done.
  - rewrite last_last in Hn.
    apply in_tree_app in Ht as [Ht _].
    apply linked_snoc in Hl as [Hl Hparent]. rewrite last_id_last in Hparent.
    pose proof (in_tree_last s a ha cs Ha Ht)
      as (p & pn & Hmap & Hheap & Hpb & Hph).
    assert (Hc : currentPath s !! (ha + 1 + Z.of_nat (length cs)) = Some (ID c)).
    { apply Hpath. by rewrite lookup_app_r, Nat.sub_diag by lia. }
    rewrite length_app. simpl.
    replace (ha + Z.of_nat (length cs + 1))
      with (ha + 1 + Z.of_nat (length cs)) by lia.
    replace (Z.to_nat (ha + 1 + Z.of_nat (length cs)))
      with (S (Z.to_nat (ha + Z.of_nat (length cs)))) by lia.
    simpl. rewrite bind_get. rewrite Hc, Hn.
    rewrite decide_False by (intros Hx; by apply Hx).
    rewrite Hparent, Hmap.
    rewrite (bind_Ok _ _ _ _ _ (load_ok s p pn Hheap)).
    replace (ha + 1 + Z.of_nat (length cs) - 1)
      with (ha + Z.of_nat (length cs)) by lia.
    apply IH; try done.
    intros i b' Hi. apply Hpath. by apply lookup_app_l_Some.
Qed.

Lemma view_after_tip_last (v : Ledger * gmap Z Z * Z) (h : Z)
    (blocks : list Block) (a : Block) :
  v.2 = ID a -> (view_after v h blocks).2 = ID (List.last blocks a).
Proof.
  intros Hv. destruct blocks as [|x xs] using rev_ind; [done |].
  by rewrite view_after_tip, last_last.
Qed.

(** A node that is lower than the node at [pbad] holds a block whose id is
    not in the subtree of [pbad]. *)
Lemma low_not_in_subtree (hp : list BlockNode) (pbad p : nat)
    (nb m : BlockNode) :
  unique_ids hp -> child_links hp ->
  hp !! pbad = Some nb -> hp !! p = Some m -> Height m < Height nb ->
  ~ in_subtree hp pbad (ID (NodeBlock m)).
Proof.
  intros Hu Hl Hbad Hp Hlow (q & d & Hr & Hq & Hid).
  assert (q = p) by (by apply (unique_ids_ptr hp q p d m)). subst q.
  assert (d = m) by congruence. subst d.
  pose proof (reach_height hp pbad p nb m Hl Hbad Hr Hp). lia.
Qed.

(** The walk of the check from a node that is lower than the node at
    [pbad] passes again when the ids of the subtree of [pbad] have been
    deleted from the block map. *)
Lemma pathCheck_pruned (k : nat) (i : Z) (node node' : BlockNode)
    (p pbad : nat) (nb : BlockNode) (s s' : State) :
  coherent s -> parent_links s -> unique_ids (heap s) -> child_links (heap s) ->
  heap s !! pbad = Some nb ->
  blockMap s !! ID (NodeBlock node) = Some p -> heap s !! p = Some node ->
  Height node < Height nb ->
  NodeBlock node' = NodeBlock node ->
  (forall j, j <= i -> currentPath s' !! j = currentPath s !! j) ->
  (forall id, ~ in_subtree (heap s) pbad id ->
              blockMap s' !! id = blockMap s !! id) ->
  (forall q m, heap s !! q = Some m ->
     exists m', heap s' !! q = Some m' /\ NodeBlock m' = NodeBlock m) ->
  pathCheck k i node s = Ok (tt, s) ->
  pathCheck k i node' s' = Ok (tt, s').
Proof.
  intros Hco Hpl Hu Hl Hbad. revert i node node' p.
  induction k as [|k IH];
    intros i node node' p Hreg Hnode Hlow Hb Hpath Hmap Hheap H; [done |].
  simpl in *. rewrite bind_get in *. rewrite Hpath by lia.
  destruct (currentPath s !! i) as [id|]; [| done]. rewrite Hb.
  destruct (decide (ID (NodeBlock node) ≠ id)); [done |].
  destruct (blockMap s !! ParentBlockID (NodeBlock node)) as [p0|] eqn:Hp0;
    [| done].
  apply bind_Ok_inv in H as (m & s1 & Hm & H).
  unfold load in Hm. rewrite bind_get in Hm.
  destruct (heap s !! p0) as [m0|] eqn:Hm0; [| done].
  injection Hm as <- <-.
  destruct (Hco _ _ Hp0) as (m1 & Hm1 & Hid).
  assert (m1 = m0) by congruence. subst m1.
  pose proof (Hpl p node p0 m0 Hreg Hnode Hp0 Hm0) as Hh.
  assert (Hout : ~ in_subtree (heap s) pbad (ParentBlockID (NodeBlock node))).
  { rewrite <- Hid.
    apply (low_not_in_subtree (heap s) pbad p0 nb m0); try done. lia. }
  rewrite (Hmap _ Hout), Hp0.
  destruct (Hheap p0 m0 Hm0) as (m' & Hm' & Hbm).
  rewrite (bind_Ok _ _ _ _ _ (load_ok s' p0 m' Hm')).
  apply (IH (i - 1) m0 m' p0); try done.
  - by rewrite Hid.
  - lia.
  - intros j Hj. apply Hpath. lia.
Qed.

(** The walk of the check from the common parent of a fork, in a state that
    passes the check. *)
Lemma pathCheck_common_parent (s : State) (tipPtr : nat) (tip an : BlockNode)
    (v0 : Ledger * gmap Z Z * Z) (a : Block) (ha : Z) (rs : list Block) :
  0 <= ha -> has_block s a ha -> v0.2 = ID a -> NodeBlock an = a ->
  in_tree s ha rs -> consensus_view s = view_after v0 ha rs ->
  integrable_chain v0 ha rs ->
  blockMap s !! currentBlockID s = Some tipPtr -> heap s !! tipPtr = Some tip ->
  CurrentPathCheck s = Ok (tt, s) ->
  pathCheck (Z.to_nat ha) ha an s = Ok (tt, s).
Proof.
  intros Hha Ha Hv0 Han Hrt Hview Hrc Htm Htn Hsane.
  pose proof (in_tree_last s a ha rs Ha Hrt)
    as (p & n & Hmap & Hheap & Hnb & Hh).
  assert (Hcur : currentBlockID s = ID (List.last rs a)).
  { change (currentBlockID s) with (consensus_view s).2.
    rewrite Hview. by apply view_after_tip_last. }
  assert (p = tipPtr) by congruence. subst p.
  assert (n = tip) by congruence. subst n.
  apply (CurrentPathCheck_inv s tipPtr tip Htm Htn) in Hsane.
  rewrite Hh in Hsane.
  apply (pathCheck_chain s a ha rs tip an); try done.
  - rewrite <- Hv0. by apply (integrable_chain_linked v0 ha).
  - intros i b Hi. change (currentPath s) with (consensus_view s).1.2.
    rewrite Hview. by apply view_after_path.
Qed.

(** The check from the tip of a chain that has become the current path
    above the block [a]. *)
Lemma CurrentPathCheck_chain (s : State) (v0 : Ledger * gmap Z Z * Z)
    (a : Block) (ha : Z) (cs : list Block) (an : BlockNode) :
  0 <= ha -> has_block s a ha -> v0.2 = ID a -> NodeBlock an = a ->
  in_tree s ha cs -> consensus_view s = view_after v0 ha cs ->
  linked (ID a) cs ->
  pathCheck (Z.to_nat ha) ha an s = Ok (tt, s) ->
  CurrentPathCheck s = Ok (tt, s).
Proof.
  intros Hha Ha Hv0 Han Hct Hview Hl Hlow.
  pose proof (in_tree_last s a ha cs Ha Hct)
    as (p & n & Hmap & Hheap & Hnb & Hh).
  assert (Hcur : currentBlockID s = ID (List.last cs a)).
  { change (currentBlockID s) with (consensus_view s).2.
    rewrite Hview. by apply view_after_tip_last. }
  apply (CurrentPathCheck_intro s p n); [by rewrite Hcur | done |].
  rewrite Hh. apply (pathCheck_chain s a ha cs n an); try done.
  intros i b Hi. change (currentPath s) with (consensus_view s).1.2.
  rewrite Hview. by apply view_after_path.
Qed.

(** The DEBUG check passes after a successful reorganisation. *)
Lemma sanity_switched (s sG : State) (newNode tipPtr : nat) (tip : BlockNode)
    (v0 : Ledger * gmap Z Z * Z) (a : Block) (ha : Z) (rs branch : list Block) :
  0 <= ha -> winning_fork s newNode v0 a ha rs branch ->
  blockMap s !! currentBlockID s = Some tipPtr -> heap s !! tipPtr = Some tip ->
  (if DEBUG then CurrentPathCheck else ret tt) s = Ok (tt, s) ->
  shape <$> heap s = shape <$> heap sG -> blockMap sG = blockMap s ->
  consensus_view sG = view_after v0 ha branch ->
  (if DEBUG then CurrentPathCheck else ret tt) sG = Ok (tt, sG).
Proof.
  intros Hha [Ha Hpath Hv0 Hrt Hview Hrc Hne Hbt Hbo Htip Hbc] Htm Htn Hsane
    Hsh Hmap HviewG.
  destruct DEBUG; [| done].
  pose proof Ha as (pa & an & Hamap & Haheap & Hanb & Hah).
  pose proof (pathCheck_common_parent s tipPtr tip an v0 a ha rs Hha Ha Hv0
                Hanb Hrt Hview Hrc Htm Htn Hsane) as Hlow.
  destruct (same_shape_lookup _ _ _ _ Hsh Haheap) as (an' & Han' & Hsha).
  assert (Hbn' : NodeBlock an' = NodeBlock an) by (by injection Hsha).
  apply (CurrentPathCheck_chain sG v0 a ha branch an'); try done.
  - by apply (has_block_same_shape s sG).
  - congruence.
  - by apply (in_tree_same_shape s sG).
  - rewrite <- Hv0. by apply (integrable_chain_linked v0 ha).
  - apply (pathCheck_ext _ _ an an' s sG); try done.
    + intros j Hj.
      change (currentPath sG) with (consensus_view sG).1.2.
      change (currentPath s) with (consensus_view s).1.2.
      rewrite HviewG, Hview. by rewrite !view_after_path_low.
    + intros id p Hp. by rewrite Hmap.
    + intros p m Hm.
      destruct (same_shape_lookup _ _ _ _ Hsh Hm) as (m' & Hm' & Hshm).
      exists m'. split; [done | by injection Hshm].
Qed.

(** The DEBUG check passes after a reorganisation that was rolled back. *)
Lemma sanity_rolled_back (s sG : State) (newNode tipPtr pbad : nat)
    (tip : BlockNode) (v0 : Ledger * gmap Z Z * Z) (a : Block) (ha : Z)
    (rs good : list Block) (bad : Block) (tail : list Block) :
  0 <= ha -> failing_fork s newNode v0 a ha rs good bad tail ->
  coherent s -> parent_links s ->
  blockMap s !! currentBlockID s = Some tipPtr -> heap s !! tipPtr = Some tip ->
  (if DEBUG then CurrentPathCheck else ret tt) s = Ok (tt, s) ->
  blockMap s !! ID bad = Some pbad ->
  shape <$> heap s = shape <$> heap sG ->
  (forall id, ~ in_subtree (heap s) pbad id ->
              blockMap sG !! id = blockMap s !! id) ->
  consensus_view sG = consensus_view s ->
  in_tree sG ha rs ->
  (if DEBUG then CurrentPathCheck else ret tt) sG = Ok (tt, sG).
Proof.
  intros Hha [Hu Hl Ha Hpath Hv0 Hrt Hview Hrc Hbt Hbl Hbo Htip Hgc Hbad]
    Hco Hpl Htm Htn Hsane Hpbad Hsh Hmap HviewG HrtG.
  destruct DEBUG; [| done].
  pose proof Ha as (pa & an & Hamap & Haheap & Hanb & Hah).
  pose proof (pathCheck_common_parent s tipPtr tip an v0 a ha rs Hha Ha Hv0
                Hanb Hrt Hview Hrc Htm Htn Hsane) as Hlow.
  apply in_tree_app in Hbt as [_ [(pb & nb & Hbmap & Hbheap & Hbnb & Hbh) _]].
  assert (pb = pbad) by congruence. subst pb.
  assert (Hhigh : Height an < Height nb) by lia.
  destruct (same_shape_lookup _ _ _ _ Hsh Haheap) as (an' & Han' & Hsha).
  injection Hsha as Hbn' _ Hhn'.
  assert (Hakeep : blockMap sG !! ID a = Some pa).
  { rewrite Hmap; [done |]. rewrite <- Hanb.
    by apply (low_not_in_subtree (heap s) pbad pa nb an). }
  apply (CurrentPathCheck_chain sG v0 a ha rs an'); try done.
  - exists pa, an'. split_and!; congruence.
  - congruence.
  - by rewrite HviewG.
  - rewrite <- Hv0. by apply (integrable_chain_linked v0 ha).
  - apply (pathCheck_pruned _ _ an an' pa pbad nb s sG); try done.
    + by rewrite Hanb.
    + intros j Hj.
      change (currentPath sG) with (consensus_view sG).1.2.
      by rewrite HviewG.
    + intros p m Hm.
      destruct (same_shape_lookup _ _ _ _ Hsh Hm) as (m' & Hm' & Hshm).
      exists m'. split; [done | by injection Hshm].
Qed.

(** *** What AcceptBlock publishes *)

Lemma chain_block_diffs_length (v : Ledger * gmap Z Z * Z) (h : Z)
    (blocks : list Block) :
  length (chain_block_diffs v h blocks) = length blocks.
Proof.
  revert v h. induction blocks as [|b l IH]; intros v h; simpl; [done |].
  by rewrite IH.
Qed.

(** A fork attempt is not in the situation of a successful and of an
    unsuccessful attempt at once. *)
Lemma fork_outcomes_differ `{!CollaboratorLaws} (s : State) (newNode : nat)
    (v0 v0' : Ledger * gmap Z Z * Z) (a a' : Block) (ha ha' : Z)
    (rs rs' branch good : list Block) (bad : Block) (tail : list Block) :
  winning_fork s newNode v0 a ha rs branch ->
  failing_fork s newNode v0' a' ha' rs' good bad tail -> False.
Proof.
  intros Hw Hf.
  destruct (forkBlockchain_rollback_run s newNode v0' a' ha' rs' good bad tail Hf)
    as (f1 & Hrun1).
  set (f := (f1 + S (length branch + length rs))%nat).
  destruct (Hrun1 f ltac:(lia))
    as (pbad & X & Xf & _ & _ & _ & _ & _ & _ & _ & Hfork & _).
  destruct (forkBlockchain_switch_run s newNode v0 a ha rs branch f Hw
              ltac:(lia)) as (hp' & undone & _ & Hrun & _).
  rewrite Hrun in Hfork.
  destruct Hw as [_ _ _ _ _ _ Hne _ _ _ _]. apply Hne. congruence.
Qed.

(** The call of [AcceptBlock] on an acceptable block, once the outcome of
    the fork attempt is known. *)
Lemma AcceptBlock_after_fork (fuel : nat) (now : Z) (b : Block) (s sF : State)
    (parent tipPtr : nat) (pn tip : BlockNode) (target depth : Z)
    (r : list Block * list Block * list OutputDiff * option error) :
  acceptable now s b parent pn target depth ->
  at_tip s tipPtr tip ->
  (if Rat_Cmp (/ Qc_of_Z depth)
        (/ Qc_of_Z (Depth tip) + / Qc_of_Z (Target tip) * SurpassThreshold)
      =? 1
   then forkBlockchain fuel (length (heap s))
   else ret ([], [], [], None)) (grown s parent pn b target depth) =
    Ok (r, sF) ->
  r.2 = None ->
  (if DEBUG then CurrentPathCheck else ret tt)
    (set_notifications (notifications sF ++ [zeroConsensusChange]) sF) =
    Ok (tt, set_notifications (notifications sF ++ [zeroConsensusChange]) sF) ->
  AcceptBlock fuel now b s =
    Ok (r, set_notifications (notifications sF ++ [zeroConsensusChange]) sF).
Proof.
  intros Hok Htip Hrun Hnil Hcheck.
  rewrite (AcceptBlock_added fuel now b s parent pn target depth Hok).
  destruct Hok as [Hbad Hnew Hparent Hpn Hheader Hsize Ht Hd Hpos].
  rewrite (bind_Ok _ _ _ _ _
             (heavierFork_added s b parent tipPtr pn tip target depth
                Hnew Hpn Htip Hpos)).
  unfold grown in Hrun. rewrite (bind_Ok _ _ _ _ _ Hrun). rewrite Hnil.
  unfold notifySubscribers. unfold bind at 1. unfold modify at 1.
  by rewrite (bind_Ok _ _ _ _ _ Hcheck).
Qed.

Lemma coherent_b_sound (s : State) : coherent_b s = true -> coherent s.
Proof.
  intros H id p Hp. apply bool_decide_eq_true in H.
  specialize (H id p Hp). simpl in H.
  destruct (heap s !! p) as [n|]; [| done].
  exists n. split; [done |]. by injection H.
Qed.

Lemma parent_links_b_sound (s : State) :
  parent_links_b s = true -> parent_links s.
Proof.
  unfold parent_links_b. rewrite forallb_forall. intros H p n q m _ Hn Hq Hm.
  assert (Hin : In n (heap s))
    by (apply list_elem_of_In; by eapply list_elem_of_lookup_2).
  specialize (H n Hin). rewrite Hq, Hm in H. lia.
Qed.

(** C9. A call of [AcceptBlock] on a block that passes the destiny, header
    and size checks returns, for every large enough fuel, with the nil
    error, and ends by publishing one empty [ConsensusChange].  The state
    passes the DEBUG check before the call; when the node of the block wins
    [heavierFork], the reorganisation is in the situation of a successful
    or of an unsuccessful fork attempt.  A call that does not reorganise
    the chain, because the node does not win or because the replay of its
    branch fails and is rolled back, returns three empty lists and
    publishes exactly one change, the empty one, and the consensus state is
    as before.  A call that reorganises the chain returns the rewound
    blocks and the blocks of the new branch and publishes two changes in
    order: the populated change of [forkBlockchain], with the block diffs
    cached on the rewound blocks as inverted and one block diff per block
    of the branch as applied, and then the empty one. *)
Theorem AcceptBlock_publishes `{!CollaboratorLaws} (now : Z) (b : Block)
    (s : State) (parent tipPtr : nat) (pn tip : BlockNode) (target depth : Z)
    (v0 : Ledger * gmap Z Z * Z) (a : Block) (ha : Z)
    (rs branch good : list Block) (bad : Block) (tail : list Block) :
  acceptable now s b parent pn target depth ->
  at_tip s tipPtr tip ->
  (heavier depth (Depth tip) (Target tip) ->
   0 <= ha /\
   (winning_fork (grown s parent pn b target depth) (length (heap s)) v0 a ha rs branch \/
    failing_fork (grown s parent pn b target depth) (length (heap s)) v0 a ha rs good bad tail /\
    coherent (grown s parent pn b target depth) /\ parent_links (grown s parent pn b target depth))) ->
  exists fuel0 r s',
    (forall fuel, (fuel0 <= fuel)%nat ->
       AcceptBlock fuel now b s = Ok (r, s')) /\
    r.2 = None /\
    (exists published,
       notifications s' =
         notifications s ++ published ++ [zeroConsensusChange] /\
       (r.1.1.2 = [] -> published = []) /\
       (r.1.1.2 <> [] ->
        exists c, published = [c] /\ AppliedBlocks c <> [] /\
                  length (AppliedBlocks c) = length r.1.1.2)) /\
    (~ heavier depth (Depth tip) (Target tip) ->
     r = ([], [], [], None) /\
     notifications s' = notifications s ++ [zeroConsensusChange] /\
     consensus_view s' = consensus_view s) /\
    (heavier depth (Depth tip) (Target tip) ->
     winning_fork (grown s parent pn b target depth) (length (heap s)) v0 a ha rs branch ->
     r.1.1.1 = rev rs /\ r.1.1.2 = branch /\ branch <> [] /\
     notifications s' =
       notifications s ++
       [ {| InvertedBlocks := cached (grown s parent pn b target depth) <$> rev rs;
            AppliedBlocks := chain_block_diffs v0 ha branch |};
         zeroConsensusChange ] /\
     consensus_view s' = view_after v0 ha branch) /\
    (heavier depth (Depth tip) (Target tip) ->
     failing_fork (grown s parent pn b target depth) (length (heap s)) v0 a ha rs good bad tail ->
     r = ([], [], [], None) /\
     notifications s' = notifications s ++ [zeroConsensusChange] /\
     consensus_view s' = consensus_view s).
Proof.
  intros Hok Htip Hcase.
  set (s1 := (grown s parent pn b target depth)) in *.
  pose proof Hok as [Hbad Hnew Hparent Hpn Hheader Hsize Ht Hd Hpos].
  pose proof Htip as [Htm Htn Htt Htd Hsane].
  (* the state in which the fork attempt is decided *)
  destruct (tree_with_old s parent pn b (child_node pn b target depth)
              tipPtr tip Hpn Htn) as (tip1 & Htip1 & Hb1 & Hh1 & _).
  fold (grown s parent pn b target depth) in Htip1. fold s1 in Htip1.
  assert (Htm1 : blockMap s1 !! currentBlockID s1 = Some tipPtr).
  { simpl. rewrite lookup_insert_ne; [done |]. intros Heq. congruence. }
  assert (Hsane1 : (if DEBUG then CurrentPathCheck else ret tt) s1 = Ok (tt, s1)).
  { apply (sanity_kept s s1 tipPtr tip); try done.
    - intros id p Hp. simpl. rewrite lookup_insert_ne; [done |]. congruence.
    - intros p m Hm.
      destruct (tree_with_old s parent pn b (child_node pn b target depth)
                  p m Hpn Hm) as (m' & Hm' & Hb' & Hh' & _).
      exists m'. by split_and!. }
  pose proof (fun fuel sF r =>
                AcceptBlock_after_fork fuel now b s sF parent tipPtr pn tip
                  target depth r Hok Htip) as Hfinish.
  fold s1 in Hfinish.
  destruct (Rat_Cmp (/ Qc_of_Z depth)
              (/ Qc_of_Z (Depth tip) + / Qc_of_Z (Target tip) * SurpassThreshold)
            =? 1) eqn:Hcmp.
  - (* the node wins *)
    assert (Hheavy : heavier depth (Depth tip) (Target tip))
      by (by apply Rat_Cmp_gt).
    destruct (Hcase Hheavy) as [Hha [Hwin | (Hfail & Hco & Hpl)]].
    + (* the replay succeeds *)
      set (fuel0 := S (length branch + length rs)).
      destruct (forkBlockchain_switch_run s1 (length (heap s)) v0 a ha rs
                  branch fuel0 Hwin ltac:(lia))
        as (hp' & undone & Hs & Hrun & _ & _).
      match type of Hrun with _ = Ok (_, ?S) => set (sF := S) in * end.
      assert (Hne : branch <> []) by (by destruct Hwin).
      assert (Hcheck :
        (if DEBUG then CurrentPathCheck else ret tt)
          (set_notifications (notifications sF ++ [zeroConsensusChange]) sF) =
        Ok (tt, set_notifications (notifications sF ++ [zeroConsensusChange]) sF)).
      { apply (sanity_switched s1 _ (length (heap s)) tipPtr tip1 v0 a ha rs
                 branch); try done.
        by destruct (view_after v0 ha branch) as [[? ?] ?]. }
      specialize (Hfinish fuel0 sF _ Hrun eq_refl Hcheck).
      eexists fuel0, _, _. split.
      { intros fuel Hf. exact (AcceptBlock_mono now b fuel0 fuel s _ Hf Hfinish). }
      split; [done |]. split.
      { eexists [_]. split; [simpl; by rewrite <- app_assoc |].
        split; [done |]. intros _. eexists. split; [done |]. simpl. split.
        - intros Hc. apply (f_equal length) in Hc.
          rewrite chain_block_diffs_length in Hc. by destruct branch.
        - apply chain_block_diffs_length. }
      split; [intros Hn; by destruct (Hn Hheavy) |]. split.
      { intros _ _. split; [done |]. split; [done |]. split; [done |].
        split; [simpl; by rewrite <- app_assoc |].
        by destruct (view_after v0 ha branch) as [[? ?] ?]. }
      intros _ Hf.
      destruct (fork_outcomes_differ s1 (length (heap s)) v0 v0 a a ha ha rs rs
                  branch good bad tail Hwin Hf).
    + (* the replay fails *)
      destruct (forkBlockchain_rollback_run s1 (length (heap s)) v0 a ha rs
                  good bad tail Hfail) as (fuel0 & Hrun0).
      destruct (Hrun0 fuel0 (le_n _))
        as (pbad & X & Xf & Hpbad & HX & Hsh & _ & Hinval & _ & _ & Hfork & Hrt).
      pose proof (invalidateNode_post _ _ _ _ Hinval) as Hpost.
      assert (Hsub : forall id,
                in_subtree (heap X) pbad id <-> in_subtree (heap s1) pbad id).
      { intros id. split; apply in_subtree_same_shape; [by symmetry | done]. }
      apply (invalidated_iff _ _ _ _ Hsub) in Hpost.
      destruct Hpost as (Hsame & _ & _ & Hkeep).
      assert (HmX : blockMap X = blockMap s1) by (by rewrite HX).
      assert (HhXf : heap Xf = heap X) by (by rewrite Hsame).
      match type of Hfork with _ = Ok (_, ?S) => set (sF := S) in * end.
      assert (Hcheck :
        (if DEBUG then CurrentPathCheck else ret tt)
          (set_notifications (notifications sF ++ [zeroConsensusChange]) sF) =
        Ok (tt, set_notifications (notifications sF ++ [zeroConsensusChange]) sF)).
      { apply (sanity_rolled_back s1 _ (length (heap s)) tipPtr pbad tip1 v0 a
                 ha rs good bad tail); try done.
        - simpl. by rewrite HhXf.
        - intros id Hid. change (blockMap Xf !! id = blockMap s1 !! id).
          rewrite <- HmX. by apply Hkeep.
        - by apply (in_tree_same_shape Xf). }
      specialize (Hfinish fuel0 sF _ Hfork eq_refl Hcheck).
      assert (HnF : notifications sF = notifications s).
      { simpl. by rewrite Hsame, HX. }
      eexists fuel0, _, _. split.
      { intros fuel Hf. exact (AcceptBlock_mono now b fuel0 fuel s _ Hf Hfinish). }
      split; [done |]. split.
      { exists []. split; [simpl; by rewrite Hsame, HX |]. split; [done |].
        intros Hx. by destruct Hx. }
      split; [intros Hn; by destruct (Hn Hheavy) |]. split.
      { intros _ Hw.
        destruct (fork_outcomes_differ s1 (length (heap s)) v0 v0 a a ha ha rs
                    rs branch good bad tail Hw Hfail). }
      intros _ _. split; [done |]. split; [simpl; by rewrite Hsame, HX |].
      change (consensus_view (with_view (consensus_view s1) Xf) =
              consensus_view s1).
      apply consensus_view_with_view.
  - (* the node does not win *)
    assert (Hlight : ~ heavier depth (Depth tip) (Target tip)).
    { intros Hh.
      pose proof (proj2 (Rat_Cmp_gt (/ Qc_of_Z depth)
                    (/ Qc_of_Z (Depth tip) +
                     / Qc_of_Z (Target tip) * SurpassThreshold)) Hh) as Hx.
      rewrite Hcmp in Hx. done. }
    assert (Hcheck :
      (if DEBUG then CurrentPathCheck else ret tt)
        (set_notifications (notifications s1 ++ [zeroConsensusChange]) s1) =
      Ok (tt, set_notifications (notifications s1 ++ [zeroConsensusChange]) s1)).
    { apply (sanity_kept s1 _ tipPtr tip1); try done. intros p m Hm. eauto. }
    specialize (Hfinish O s1 ([], [], [], None) eq_refl eq_refl Hcheck).
    eexists O, _, _. split.
    { intros fuel Hf. exact (AcceptBlock_mono now b O fuel s _ Hf Hfinish). }
    split; [done |]. split.
    { exists []. split; [done |]. split; [done |]. intros Hx. by destruct Hx. }
    split; [done |]. split; intros Hh; by destruct (Hlight Hh).
Qed.

End Proofs.

(** ** The statements on the concrete instance *)

Section Instances.
#[local] Existing Instance Demo.types.
#[local] Existing Instance Demo.collaborators.

Lemma handleOrphanBlock_orphan_witness :
  exists e s',
    handleOrphanBlock (Demo.mkBlock 7 8 1600 []) Demo.s0 = Ok (Some e, s') /\
    (e = KnownOrphanErr \/ e = UnknownOrphanErr) /\
    (orphan_recorded Demo.s0 (Demo.mkBlock 7 8 1600 []) ->
       e = KnownOrphanErr /\ s' = Demo.s0) /\
    (~ orphan_recorded Demo.s0 (Demo.mkBlock 7 8 1600 []) ->
       e = UnknownOrphanErr /\
       s' = stage Demo.s0 (Demo.mkBlock 7 8 1600 []) /\
       orphan_recorded s' (Demo.mkBlock 7 8 1600 [])).
Proof.
  apply (handleOrphanBlock_orphan Demo.s0 (Demo.mkBlock 7 8 1600 [])).
  vm_compute. reflexivity.
Defined.

Lemma validateHeader_median_rule_witness :
  exists m,
    earliestChildTimestamp Demo.genesisNode = Some m /\
    median_of_11 m (RecentTimestamps Demo.genesisNode) /\
    (validateHeader 2000 0 (Demo.mkBlock 1 2 900 []) Demo.s0 =
       Ok (Some timestampError,
           set_badBlocks ({[ID (Demo.mkBlock 1 2 900 [])]} ∪ badBlocks Demo.s0)
             Demo.s0)
     <-> Timestamp (Demo.mkBlock 1 2 900 []) < m /\
         int64 (Timestamp (Demo.mkBlock 1 2 900 []) - 2000) <= FutureThreshold) /\
    (int64 (Timestamp (Demo.mkBlock 1 2 900 []) - 2000) <= FutureThreshold ->
     median_rule 2000 Demo.s0 0 (Demo.mkBlock 1 2 900 []) m) /\
    (int64 (Timestamp (Demo.mkBlock 1 2 900 []) - 2000) > FutureThreshold ->
     exists s',
       validateHeader 2000 0 (Demo.mkBlock 1 2 900 []) Demo.s0 =
         Ok (Some FutureBlockErr, s') /\
       badBlocks s' = badBlocks Demo.s0 /\
       length (futureBlocks s') = S (length (futureBlocks Demo.s0))) /\
    (in_int64 (Timestamp (Demo.mkBlock 1 2 900 []) - 2000) ->
     int64 (Timestamp (Demo.mkBlock 1 2 900 []) - 2000) =
       Timestamp (Demo.mkBlock 1 2 900 []) - 2000).
Proof.
  apply (validateHeader_median_rule 2000 Demo.s0 0 Demo.genesisNode
           (Demo.mkBlock 1 2 900 [])).
  - reflexivity.
  - reflexivity.
  - vm_compute. reflexivity.
Defined.

(** A timestamp so far behind the clock that the difference wraps: the
    block of timestamp [-2^63] meets the target and lies below the median
    1000, its skew at the time 2000 is [2^63 - 2000], and the header is
    answered as a future block, the id not being recorded as bad. *)
Lemma validateHeader_wrapped_skew :
  int64 (Timestamp (Demo.mkBlock 1 2 (- 2 ^ 63) []) - 2000) = 2 ^ 63 - 2000 /\
  exists s',
    validateHeader 2000 0 (Demo.mkBlock 1 2 (- 2 ^ 63) []) Demo.s0 =
      Ok (Some FutureBlockErr, s') /\
    badBlocks s' = badBlocks Demo.s0.
Proof.
  split; [vm_compute; reflexivity |].
  eexists. split; [vm_compute; reflexivity | reflexivity].
Qed.

(** The rule as C6 states it, for every block, fails on a block that misses
    the target: its timestamp 900 is below the median 1000, and the header
    is rejected for its work, the id not being recorded as bad. *)
Lemma median_rule_needs_target :
  earliestChildTimestamp Demo.genesisNode = Some 1000 /\
  validateHeader 2000 0 Demo.lateWork Demo.s0
    = Ok (Some (errors_New "block does not meet target"), Demo.s0) /\
  ~ median_rule 2000 Demo.s0 0 Demo.lateWork 1000.
Proof.
  assert (Hrun : validateHeader 2000 0 Demo.lateWork Demo.s0
    = Ok (Some (errors_New "block does not meet target"), Demo.s0))
    by (vm_compute; reflexivity).
  split; [vm_compute; reflexivity | split; [exact Hrun |]].
  unfold median_rule. rewrite Hrun. intros [_ H].
  assert (Hlt : Timestamp Demo.lateWork < 1000) by (vm_compute; reflexivity).
  specialize (H Hlt). inversion H.
Qed.

Lemma Demo_laws : CollaboratorLaws.
Proof.
  split.
  - intros [u c] t. simpl. unfold Demo.valid. simpl.
    repeat case_decide; try (intros H'; discriminate H'). intros _.
    f_equal. apply delete_insert_id.
    destruct (u !! t) eqn:E; [| done].
    match goal with H : ~ is_Some _ |- _ => exfalso; apply H; by eexists end.
  - by intros [u c] bc.
Qed.

Lemma heavierFork_rule_witness :
  exists r,
    heavierFork 1 (Demo.added Demo.validBlock Demo.s0)
      = Ok (r, Demo.added Demo.validBlock Demo.s0) /\
    (r = true <-> heavier 500 1000 1000) /\
    (500 = 1000 -> r = false).
Proof.
  apply (heavierFork_rule (Demo.added Demo.validBlock Demo.s0) 1 0
           (Demo.nodeAt (Demo.added Demo.validBlock Demo.s0) 1)
           (Demo.nodeAt (Demo.added Demo.validBlock Demo.s0) 0));
    vm_compute; reflexivity.
Defined.

Lemma childTarget_retarget_witness :
  childTarget Demo.genesisNode
      (Demo.nodeAt (Demo.added Demo.validBlock Demo.s0) 1) Demo.s0
    = Ok (child_target Demo.genesisNode
            (Demo.nodeAt (Demo.added Demo.validBlock Demo.s0) 1) Demo.genesis,
          Demo.s0).
Proof.
  apply (childTarget_retarget Demo.s0 Demo.genesisNode
           (Demo.nodeAt (Demo.added Demo.validBlock Demo.s0) 1) Demo.genesis).
  - vm_compute. reflexivity.
  - vm_compute. reflexivity.
  - vm_compute. reflexivity.
  - vm_compute. split; reflexivity.
  - exists Demo.genesisNode. split; reflexivity.
  - vm_compute. split; [discriminate | reflexivity].
Defined.

Lemma integrateBlock_failure_witness :
  integrateBlock Demo.invalidBlock zeroBlockDiff Demo.s0 =
    Ok ((output_diffs (transaction_diffs [5] (ledger Demo.s0)),
         Some (errors_New "transaction is invalid"),
         diff_after Demo.invalidBlock zeroBlockDiff [5] (ledger Demo.s0)),
        set_ledger (ledger_inverted (rev [5])
                      (ledger_after [5] (ledger Demo.s0))) Demo.s0) /\
  set_ledger (ledger_inverted (rev [5]) (ledger_after [5] (ledger Demo.s0)))
    Demo.s0 = Demo.s0.
Proof.
  apply (@integrateBlock_failure _ _ Demo_laws Demo.s0 Demo.invalidBlock
           zeroBlockDiff [5] (-7) []
           (errors_New "transaction is invalid")).
  - reflexivity.
  - split; [vm_compute; reflexivity | exact I].
  - vm_compute. reflexivity.
Defined.

(** The diff list returned with the error of a failing transaction is not
    empty: after the valid transaction 5 the transaction -7 fails, and the
    call returns the output diff of the transaction 5 with the error. *)
Lemma integrateBlock_failure_keeps_diffs :
  Transactions Demo.invalidBlock = [5; -7] /\
  ValidTransaction (ledger Demo.s0) 5 = None /\
  ValidTransaction (ledger_after [5] (ledger Demo.s0)) (-7)
    = Some (errors_New "transaction is invalid") /\
  exists bd,
    integrateBlock Demo.invalidBlock zeroBlockDiff Demo.s0 =
      Ok (([ {| New := true; DiffID := 5; DiffOutput := Demo.coin 5 |} ],
           Some (errors_New "transaction is invalid"), bd),
          Demo.s0).
Proof.
  split; [reflexivity |]. split; [vm_compute; reflexivity |].
  split; [vm_compute; reflexivity |].
  eexists. vm_compute. reflexivity.
Qed.

Lemma integrateBlock_diffs_twice_witness :
  exists diffs bd' s',
    integrateBlock Demo.validBlock zeroBlockDiff
      (Demo.added Demo.validBlock Demo.s0) = Ok ((diffs, None, bd'), s') /\
    let s := Demo.added Demo.validBlock Demo.s0 in
    let tds := transaction_diffs (Transactions Demo.validBlock) (ledger s) in
    let cm := applyContractMaintenance
                (ledger_after (Transactions Demo.validBlock) (ledger s))
                (BlockChanges zeroBlockDiff) in
    exists subsidy,
      diffs = output_diffs tds ++ cm.2 ++
              [ {| New := true; DiffID := SubsidyID Demo.validBlock;
                   DiffOutput := subsidy |} ] /\
      TransactionDiffs bd' = TransactionDiffs zeroBlockDiff ++ tds /\
      OutputDiffs (BlockChanges bd') = OutputDiffs cm.1.2 ++ diffs /\
      (forall td d, td ∈ tds -> d ∈ OutputDiffs td ->
         td ∈ TransactionDiffs bd' /\ d ∈ OutputDiffs (BlockChanges bd')).
Proof.
  eexists _, _, _. split; [vm_compute; reflexivity |].
  eapply (integrateBlock_diffs_twice (Demo.added Demo.validBlock Demo.s0) _
            Demo.validBlock zeroBlockDiff).
  vm_compute. reflexivity.
Defined.

(** C2 on the code. The block [invalidBlock] extends genesis, its node wins
    [heavierFork], and the replay in [forkBlockchain] fails on its second
    transaction; the subtree of the node is invalidated, and [AcceptBlock]
    returns the nil error. *)
Lemma AcceptBlock_failed_reorg_nil_error :
  heavierFork 1 (Demo.added Demo.invalidBlock Demo.s0)
    = Ok (true, Demo.added Demo.invalidBlock Demo.s0) /\
  (exists diffs bd s',
     integrateBlock Demo.invalidBlock zeroBlockDiff
       (Demo.added Demo.invalidBlock Demo.s0)
     = Ok ((diffs, Some (errors_New "transaction is invalid"), bd), s')) /\
  exists s',
    AcceptBlock 10 2000 Demo.invalidBlock Demo.s0 = Ok (([], [], [], None), s') /\
    ID Demo.invalidBlock ∈ badBlocks s' /\
    blockMap s' !! ID Demo.invalidBlock = None.
Proof.
  split; [vm_compute; reflexivity |].
  split; [eexists _, _, _; vm_compute; reflexivity |].
  eexists. split; [vm_compute; reflexivity |].
  split; [| vm_compute; reflexivity].
  apply (bool_decide_unpack _). vm_compute. exact I.
Qed.

(** C8 on the code. During the call of [AcceptBlock] whose reorganisation
    to [invalidBlock] fails and is rolled back, one [ConsensusChange], the
    empty one, is published to the subscribers. *)
Lemma AcceptBlock_failed_reorg_publishes :
  exists r s',
    AcceptBlock 10 2000 Demo.invalidBlock Demo.s0 = Ok (r, s') /\
    ID Demo.invalidBlock ∈ badBlocks s' /\
    consensus_view s' = consensus_view Demo.s0 /\
    notifications Demo.s0 = [] /\
    notifications s' = [zeroConsensusChange].
Proof.
  eexists _, _. split; [vm_compute; reflexivity |].
  split; [apply (bool_decide_unpack _); vm_compute; exact I |].
  split; [vm_compute; reflexivity |].
  split; reflexivity.
Qed.

Lemma Demo_failing_branch :
  failing_fork Demo.branched 4 Demo.genesisView Demo.genesis 0
    [Demo.validBlock] [Demo.sideBlock] Demo.sideInvalid [Demo.sideTail].
Proof.
  split.
  - apply (bool_decide_unpack _). vm_compute. exact I.
  - apply child_links_b_sound. vm_compute. reflexivity.
  - eexists 0%nat, _. split; [reflexivity |]. split; [reflexivity |].
    split; reflexivity.
  - vm_compute. reflexivity.
  - reflexivity.
  - split; [| exact I].
    eexists 1%nat, _. split; [reflexivity |]. split; [reflexivity |].
    split; reflexivity.
  - vm_compute. reflexivity.
  - split; [| exact I]. split; [reflexivity |].
    split; [split; [vm_compute; reflexivity | exact I] |].
    split; vm_compute; reflexivity.
  - split.
    + eexists 2%nat, _. split; [reflexivity |]. split; [reflexivity |].
      split; reflexivity.
    + split.
      * eexists 3%nat, _. split; [reflexivity |]. split; [reflexivity |].
        split; reflexivity.
      * split; [| exact I].
        eexists 4%nat, _. split; [reflexivity |]. split; [reflexivity |].
        split; reflexivity.
  - split; [reflexivity |]. split; [reflexivity |].
    split; [reflexivity | exact I].
  - split; [vm_compute; discriminate |].
    split; [vm_compute; discriminate |].
    split; [vm_compute; discriminate | exact I].
  - vm_compute. reflexivity.
  - split; [| exact I]. split; [reflexivity |].
    split; [split; [vm_compute; reflexivity | exact I] |].
    split; vm_compute; reflexivity.
  - intros (_ & Hbad & _). vm_compute in Hbad. discriminate Hbad.
Qed.

Lemma Demo_children_chain :
  children_chain Demo.branched [Demo.sideInvalid; Demo.sideTail].
Proof.
  split; [| exact I]. eexists 3%nat, _, 4%nat.
  split; [reflexivity |]. split; [reflexivity |]. split; [reflexivity |].
  apply (bool_decide_unpack _). vm_compute. exact I.
Qed.

Lemma forkBlockchain_atomic_witness :
  exists fuel0, forall fuel, (fuel0 <= fuel)%nat ->
    exists pbad X Xf s',
      forkBlockchain fuel 4 Demo.branched = Ok (([], [], [], None), s') /\
      blockMap Demo.branched !! ID Demo.sideInvalid = Some pbad /\
      X = with_view (view_after Demo.genesisView 0 [Demo.sideBlock])
            (set_heap (heap X) Demo.branched) /\
      shape <$> heap X = shape <$> heap Demo.branched /\
      consensus_view X = view_after Demo.genesisView 0 [Demo.sideBlock] /\
      (exists diffs e bd,
         integrateBlock Demo.sideInvalid zeroBlockDiff X =
           Ok ((diffs, Some e, bd), X)) /\
      invalidateNode fuel pbad X = Ok (tt, Xf) /\
      consensus_view Xf = view_after Demo.genesisView 0 [Demo.sideBlock] /\
      ID Demo.sideInvalid ∈ badBlocks Xf /\
      blockMap Xf !! ID Demo.sideInvalid = None /\
      repeatM (length [Demo.sideBlock]) invertRecentBlock Xf =
        Ok (tt, with_view Demo.genesisView Xf) /\
      reintegrate [Demo.validBlock] (with_view Demo.genesisView Xf) =
        Ok (tt, with_view (consensus_view Demo.branched) Xf) /\
      s' = set_transactionPool
             (cleanTransactionPool (ledger Demo.branched)
                (transactionPool Demo.branched))
             (with_view (consensus_view Demo.branched) Xf) /\
      consensus_view s' = consensus_view Demo.branched /\
      StateHash (ledger s') (currentPath s') (currentBlockID s') =
        StateHash (ledger Demo.branched) (currentPath Demo.branched)
          (currentBlockID Demo.branched) /\
      ID Demo.sideInvalid ∈ badBlocks s' /\
      blockMap s' !! ID Demo.sideInvalid = None /\
      in_tree s' 0 [Demo.validBlock] /\
      notifications s' = notifications Demo.branched /\
      (forall id, id ∈ badBlocks s' <->
                  id ∈ badBlocks Demo.branched \/
                  in_subtree (heap Demo.branched) pbad id) /\
      (forall id, in_subtree (heap Demo.branched) pbad id ->
                  blockMap s' !! id = None) /\
      (forall id, ~ in_subtree (heap Demo.branched) pbad id ->
                  blockMap s' !! id = blockMap Demo.branched !! id) /\
      Forall (fun b => in_subtree (heap Demo.branched) pbad (ID b) /\
                       ID b ∈ badBlocks s' /\ blockMap s' !! ID b = None)
             [Demo.sideInvalid; Demo.sideTail] /\
      shape <$> heap s' = shape <$> heap Demo.branched.
Proof.
  apply (@forkBlockchain_atomic _ _ Demo_laws Demo.branched 4 Demo.genesisView
           Demo.genesis 0 [Demo.validBlock] [Demo.sideBlock]
           Demo.sideInvalid [Demo.sideTail]).
  - exact Demo_failing_branch.
  - exact Demo_children_chain.
Defined.

(** The attempt on the concrete state, with fuel 10: the failing block 11
    and its child 13 are recorded as bad and are gone from the block map,
    the three other blocks are still in it. *)
Lemma forkBlockchain_atomic_run :
  exists s',
    forkBlockchain 10 4 Demo.branched = Ok (([], [], [], None), s') /\
    consensus_view s' = consensus_view Demo.branched /\
    elements (badBlocks Demo.branched) = [] /\
    elements (badBlocks s') = [11; 13] /\
    (fst <$> map_to_list (blockMap Demo.branched)) ≡ₚ [1; 2; 10; 11; 13] /\
    (fst <$> map_to_list (blockMap s')) ≡ₚ [1; 2; 10] /\
    notifications s' = notifications Demo.branched.
Proof.
  eexists. split; [vm_compute; reflexivity |].
  split; [vm_compute; reflexivity |].
  split; [vm_compute; reflexivity |].
  split; [vm_compute; reflexivity |].
  split; [apply (bool_decide_unpack _); vm_compute; exact I |].
  split; [apply (bool_decide_unpack _); vm_compute; exact I |].
  vm_compute. reflexivity.
Qed.

(** *** Instances of the further properties *)

Lemma handleOrphanBlock_keeps_witness :
  (forall parent id b0,
     staged Demo.waiting parent id b0 ->
     staged (Demo.after (handleOrphanBlock Demo.orphan2) Demo.waiting)
       parent id b0) /\
  orphan_recorded (Demo.after (handleOrphanBlock Demo.orphan2) Demo.waiting)
    Demo.orphan2 /\
  Demo.after (handleOrphanBlock Demo.orphan2) Demo.waiting =
    set_missingParents
      (missingParents (Demo.after (handleOrphanBlock Demo.orphan2) Demo.waiting))
      Demo.waiting.
Proof.
  apply (handleOrphanBlock_keeps Demo.waiting _ Demo.orphan2
           (Some UnknownOrphanErr)).
  vm_compute. reflexivity.
Defined.

Lemma validateHeader_nil_iff_witness :
  validateHeader 2000 0 Demo.validBlock Demo.s0 = Ok (None, Demo.s0) <->
  CheckTarget Demo.validBlock (Target Demo.genesisNode) = true /\
  int64 (Timestamp Demo.validBlock - 2000) <= FutureThreshold /\
  1000 <= Timestamp Demo.validBlock /\
  MerkleRoot Demo.validBlock = TransactionMerkleRoot Demo.validBlock /\
  Demo.s0 = Demo.s0.
Proof.
  apply (validateHeader_nil_iff 2000 Demo.s0 Demo.s0 0 Demo.genesisNode
           Demo.validBlock 1000).
  - reflexivity.
  - vm_compute. reflexivity.
Defined.

Lemma validateHeader_future_witness :
  exists delay,
    validateHeader 2000 0 Demo.futureBlock Demo.s0 =
      Ok (Some FutureBlockErr,
          set_futureBlocks
            (futureBlocks Demo.s0 ++ [(delay, Demo.futureBlock)]) Demo.s0) /\
    (in_int64 (Timestamp Demo.futureBlock - 2000) ->
     in_int64 ((Timestamp Demo.futureBlock - 2000 - FutureThreshold)
               * 1000000000) ->
     delay = (Timestamp Demo.futureBlock - 2000 - FutureThreshold)
             * 1000000000 /\
     0 < delay).
Proof.
  apply (validateHeader_future 2000 Demo.s0 0 Demo.genesisNode Demo.futureBlock).
  - reflexivity.
  - vm_compute. reflexivity.
  - vm_compute. reflexivity.
Defined.

Lemma validateHeader_writes_witness :
  heap (Demo.after (validateHeader 2000 0 Demo.earlyBlock) Demo.s0)
    = heap Demo.s0 /\
  blockMap (Demo.after (validateHeader 2000 0 Demo.earlyBlock) Demo.s0)
    = blockMap Demo.s0 /\
  missingParents (Demo.after (validateHeader 2000 0 Demo.earlyBlock) Demo.s0)
    = missingParents Demo.s0 /\
  consensus_view (Demo.after (validateHeader 2000 0 Demo.earlyBlock) Demo.s0)
    = consensus_view Demo.s0 /\
  notifications (Demo.after (validateHeader 2000 0 Demo.earlyBlock) Demo.s0)
    = notifications Demo.s0 /\
  (badBlocks (Demo.after (validateHeader 2000 0 Demo.earlyBlock) Demo.s0)
     = badBlocks Demo.s0 \/
   badBlocks (Demo.after (validateHeader 2000 0 Demo.earlyBlock) Demo.s0)
     = {[ID Demo.earlyBlock]} ∪ badBlocks Demo.s0 /\
   (Some timestampError = Some timestampError \/
    Some timestampError = Some merkleError)) /\
  (futureBlocks (Demo.after (validateHeader 2000 0 Demo.earlyBlock) Demo.s0)
     = futureBlocks Demo.s0 \/
   Some timestampError = Some FutureBlockErr).
Proof.
  apply (validateHeader_writes 2000 Demo.s0 _ 0 Demo.earlyBlock
           (Some timestampError)).
  vm_compute. reflexivity.
Defined.

Lemma earliestChildTimestamp_majority_witness :
  exists m,
    earliestChildTimestamp Demo.genesisNode = Some m /\
    m ∈ RecentTimestamps Demo.genesisNode /\
    (900 < m <->
     (length (filter (fun x : Z => (x <= 900)%Z)
                (RecentTimestamps Demo.genesisNode)) < 6)%nat).
Proof.
  apply (earliestChildTimestamp_majority Demo.genesisNode 900). reflexivity.
Defined.

Lemma childDepth_work_witness :
  exists q : Qc,
    childDepth Demo.genesisNode Demo.s0 = Ok (RatToTarget q, Demo.s0) /\
    (/ q = / Qc_of_Z (Target Demo.genesisNode)
           + / Qc_of_Z (Depth Demo.genesisNode))%Qc /\
    (0 < q)%Qc /\
    (q < Qc_of_Z (Depth Demo.genesisNode))%Qc /\
    (q < Qc_of_Z (Target Demo.genesisNode))%Qc.
Proof.
  apply (childDepth_work Demo.s0 Demo.genesisNode); vm_compute; reflexivity.
Defined.

Lemma childTarget_clamped_witness :
  Demo.s0 = Demo.s0 /\
  exists adj : Qc,
    (MaxAdjustmentDown <= adj)%Qc /\ (adj <= MaxAdjustmentUp)%Qc /\
    1001 = RatToTarget (Qc_of_Z (Target Demo.genesisNode) * adj)%Qc.
Proof.
  apply (childTarget_clamped Demo.s0 Demo.s0 Demo.genesisNode
           (child_node Demo.genesisNode Demo.futureBlock 0 0) 1001).
  - vm_compute. discriminate.
  - vm_compute. reflexivity.
Defined.

Lemma addBlockToTree_node_witness :
  exists pn node,
    heap Demo.s0 !! 0%nat = Some pn /\
    1%nat = length (heap Demo.s0) /\
    blockMap (Demo.added Demo.validBlock Demo.s0) =
      <[ID Demo.validBlock := 1%nat]> (blockMap Demo.s0) /\
    heap (Demo.added Demo.validBlock Demo.s0) !! 1%nat = Some node /\
    heap (Demo.added Demo.validBlock Demo.s0) !! 0%nat =
      Some (set_Children (Children pn ++ [1%nat]) pn) /\
    (forall q, q <> 0%nat -> q <> 1%nat ->
       heap (Demo.added Demo.validBlock Demo.s0) !! q = heap Demo.s0 !! q) /\
    NodeBlock node = Demo.validBlock /\ Children node = [] /\
    Height node = uint64 (Height pn + 1) /\
    childTarget pn (child_node pn Demo.validBlock 0 0) Demo.s0 =
      Ok (Target node, Demo.s0) /\
    childDepth pn Demo.s0 = Ok (Depth node, Demo.s0) /\
    length (RecentTimestamps node) = 11%nat /\
    (length (RecentTimestamps pn) = 11%nat ->
     RecentTimestamps node =
       drop 1 (RecentTimestamps pn) ++ [Timestamp Demo.validBlock]) /\
    consensus_view (Demo.added Demo.validBlock Demo.s0) =
      consensus_view Demo.s0 /\
    badBlocks (Demo.added Demo.validBlock Demo.s0) = badBlocks Demo.s0 /\
    missingParents (Demo.added Demo.validBlock Demo.s0) =
      missingParents Demo.s0 /\
    notifications (Demo.added Demo.validBlock Demo.s0) =
      notifications Demo.s0.
Proof.
  apply (addBlockToTree_node Demo.s0 (Demo.added Demo.validBlock Demo.s0)
           0 1 Demo.validBlock).
  vm_compute. reflexivity.
Defined.

Lemma invalidateNode_exact_witness :
  exists fuel0, forall fuel, (fuel0 <= fuel)%nat ->
    exists X',
      invalidateNode fuel 2 Demo.forked = Ok (tt, X') /\
      invalidated (in_subtree (heap Demo.forked) 2) Demo.forked X' /\
      heap X' = heap Demo.forked /\
      consensus_view X' = consensus_view Demo.forked /\
      ID (NodeBlock (Demo.nodeAt Demo.forked 2)) ∈ badBlocks X' /\
      blockMap X' !! ID (NodeBlock (Demo.nodeAt Demo.forked 2)) = None.
Proof.
  apply (invalidateNode_exact Demo.forked 2 (Demo.nodeAt Demo.forked 2)).
  - apply child_links_b_sound. vm_compute. reflexivity.
  - reflexivity.
Defined.

Lemma integrate_invert_round_trip_witness :
  exists diffs bd s1 undone subsidy,
    integrateBlock Demo.validBlock zeroBlockDiff
      (Demo.added Demo.validBlock Demo.s0) = Ok ((diffs, None, bd), s1) /\
    currentBlockID s1 = ID Demo.validBlock /\
    currentPath s1 !! 1 = Some (ID Demo.validBlock) /\
    unspentOutputs (ledger s1) !! SubsidyID Demo.validBlock = Some subsidy /\
    List.last diffs {| New := false; DiffID := 0; DiffOutput := subsidy |} =
      {| New := true; DiffID := SubsidyID Demo.validBlock;
         DiffOutput := subsidy |} /\
    invertRecentBlock s1 =
      Ok ({| New := false; DiffID := SubsidyID Demo.validBlock;
             DiffOutput := subsidy |} :: undone,
          Demo.added Demo.validBlock Demo.s0).
Proof.
  apply (@integrate_invert_round_trip _ _ Demo_laws
           (Demo.added Demo.validBlock Demo.s0) Demo.validBlock 1).
  - eexists 1%nat, _. split; [reflexivity |]. split; [reflexivity |].
    split; reflexivity.
  - split; [reflexivity |].
    split; [split; [vm_compute; reflexivity | exact I] |].
    split; vm_compute; reflexivity.
Defined.

Lemma AcceptBlock_rejected_witness :
  ([], [], [], Some (errors_New "block does not meet target")) =
    (@nil Block, @nil Block, @nil OutputDiff,
     Some (errors_New "block does not meet target")) /\
  heap Demo.s0 = heap Demo.s0 /\ blockMap Demo.s0 = blockMap Demo.s0 /\
  consensus_view Demo.s0 = consensus_view Demo.s0 /\
  transactionPool Demo.s0 = transactionPool Demo.s0 /\
  notifications Demo.s0 = notifications Demo.s0 /\
  ~ passes_checks 2000 Demo.lateWork Demo.s0.
Proof.
  apply (AcceptBlock_rejected 10 2000 Demo.lateWork Demo.s0 Demo.s0
           ([], [], [], Some (errors_New "block does not meet target"))
           (errors_New "block does not meet target")).
  - vm_compute. reflexivity.
  - reflexivity.
Defined.

Lemma Demo_passes_checks : passes_checks 2000 Demo.validBlock Demo.s0.
Proof.
  exists Demo.s0, 0%nat, Demo.s0.
  split; [vm_compute; reflexivity |].
  split; [vm_compute; reflexivity |].
  split; [vm_compute; reflexivity |].
  vm_compute. discriminate.
Qed.

Lemma AcceptBlock_settles_witness :
  ~ settled Demo.s0 (ID Demo.validBlock) /\
  settled (Demo.after (AcceptBlock 10 2000 Demo.validBlock) Demo.s0)
    (ID Demo.validBlock) /\
  forall fuel' now',
    exists e,
      AcceptBlock fuel' now' Demo.validBlock
        (Demo.after (AcceptBlock 10 2000 Demo.validBlock) Demo.s0) =
        Ok (([], [], [], Some e),
            Demo.after (AcceptBlock 10 2000 Demo.validBlock) Demo.s0) /\
      (e = BlockKnownErr \/ e = invalidError).
Proof.
  eapply (AcceptBlock_settles 10 2000 Demo.validBlock Demo.s0).
  - exact Demo_passes_checks.
  - vm_compute. reflexivity.
Defined.

Lemma Demo_well_formed : well_formed Demo.s0.
Proof.
  split_and!.
  - intros id p Hp.
    change (({[1 := 0%nat]} : gmap Z nat) !! id = Some p) in Hp.
    apply lookup_singleton_Some in Hp as [<- <-].
    by exists Demo.genesisNode.
  - intros [|p] n Hn; [| done]. injection Hn as <-. by left.
  - apply (bool_decide_unpack _). vm_compute. exact I.
  - apply child_links_b_sound. vm_compute. reflexivity.
Qed.

Lemma AcceptBlock_well_formed_witness :
  well_formed (Demo.after (AcceptBlock 10 2000 Demo.validBlock) Demo.s0).
Proof.
  eapply (AcceptBlock_well_formed 10 2000 Demo.validBlock Demo.s0).
  - exact Demo_well_formed.
  - intros p n Hp Hn.
    change (({[1 := 0%nat]} : gmap Z nat) !! 1 = Some p) in Hp.
    apply lookup_singleton_Some in Hp as [_ <-].
    injection Hn as <-. vm_compute. split; [discriminate | reflexivity].
  - vm_compute. reflexivity.
Defined.

Lemma Demo_winning_fork :
  winning_fork Demo.contested 3 Demo.genesisView Demo.genesis 0
    [Demo.validBlock] [Demo.sideBlock; Demo.sideValid].
Proof.
  split.
  - eexists 0%nat, _. split; [reflexivity |]. split; [reflexivity |].
    split; reflexivity.
  - vm_compute. reflexivity.
  - reflexivity.
  - split; [| exact I].
    eexists 1%nat, _. split; [reflexivity |]. split; [reflexivity |].
    split; reflexivity.
  - vm_compute. reflexivity.
  - split; [| exact I]. split; [reflexivity |].
    split; [split; [vm_compute; reflexivity | exact I] |].
    split; vm_compute; reflexivity.
  - discriminate.
  - split.
    + eexists 2%nat, _. split; [reflexivity |]. split; [reflexivity |].
      split; reflexivity.
    + split; [| exact I].
      eexists 3%nat, _. split; [reflexivity |]. split; [reflexivity |].
      split; reflexivity.
  - split; [vm_compute; discriminate |].
    split; [vm_compute; discriminate | exact I].
  - vm_compute. reflexivity.
  - split.
    + split; [reflexivity |].
      split; [split; [vm_compute; reflexivity | exact I] |].
      split; vm_compute; reflexivity.
    + split; [| exact I]. split; [reflexivity |].
      split; [split; [vm_compute; reflexivity | exact I] |].
      split; vm_compute; reflexivity.
Qed.

Lemma forkBlockchain_switches_witness :
  exists fuel0, forall fuel, (fuel0 <= fuel)%nat ->
    exists undone c s',
      forkBlockchain fuel 3 Demo.contested =
        Ok ((rev [Demo.validBlock], [Demo.sideBlock; Demo.sideValid],
             undone ++ chain_diffs Demo.genesisView 0
                         [Demo.sideBlock; Demo.sideValid], None), s') /\
      consensus_view s' =
        view_after Demo.genesisView 0 [Demo.sideBlock; Demo.sideValid] /\
      currentBlockID s' =
        ID (List.last [Demo.sideBlock; Demo.sideValid] Demo.genesis) /\
      (forall i b, [Demo.sideBlock; Demo.sideValid] !! i = Some b ->
         currentPath s' !! (0 + 1 + Z.of_nat i) = Some (ID b)) /\
      (forall k, k <= 0 -> currentPath s' !! k = currentPath Demo.contested !! k) /\
      notifications s' = notifications Demo.contested ++ [c] /\
      length (InvertedBlocks c) = length [Demo.validBlock] /\
      AppliedBlocks c =
        chain_block_diffs Demo.genesisView 0 [Demo.sideBlock; Demo.sideValid] /\
      CatalystBlock <$> AppliedBlocks c =
        ID <$> [Demo.sideBlock; Demo.sideValid] /\
      blockMap s' = blockMap Demo.contested /\
      badBlocks s' = badBlocks Demo.contested /\
      shape <$> heap s' = shape <$> heap Demo.contested /\
      transactionPool s' =
        cleanTransactionPool (ledger s') (transactionPool Demo.contested).
Proof.
  apply (@forkBlockchain_switches _ _ Demo_laws Demo.contested 3
           Demo.genesisView Demo.genesis 0 [Demo.validBlock]
           [Demo.sideBlock; Demo.sideValid]).
  exact Demo_winning_fork.
Defined.

Lemma forkBlockchain_caches_diffs_witness :
  exists fuel0, forall fuel, (fuel0 <= fuel)%nat ->
    exists r c s',
      forkBlockchain fuel 3 Demo.contested = Ok (r, s') /\
      notifications s' = notifications Demo.contested ++ [c] /\
      InvertedBlocks c = cached Demo.contested <$> rev [Demo.validBlock] /\
      (forall i b, [Demo.sideBlock; Demo.sideValid] !! i = Some b ->
         AppliedBlocks c !! i = Some (cached s' b)).
Proof.
  apply (@forkBlockchain_caches_diffs _ _ Demo_laws Demo.contested 3
           Demo.genesisView Demo.genesis 0 [Demo.validBlock]
           [Demo.sideBlock; Demo.sideValid]).
  exact Demo_winning_fork.
Defined.

Lemma AcceptBlock_keeps_orphans_witness :
  exists r s',
    AcceptBlock 10 2000 Demo.awaited Demo.waiting = Ok (r, s') /\
    (forall parent id b0,
       staged Demo.waiting parent id b0 -> staged s' parent id b0) /\
    (r.2 <> Some UnknownOrphanErr ->
     missingParents s' = missingParents Demo.waiting).
Proof.
  eexists _, _. split; [vm_compute; reflexivity |].
  apply (AcceptBlock_keeps_orphans 10 2000 Demo.awaited Demo.waiting).
  vm_compute. reflexivity.
Defined.

Lemma AcceptBlock_orphan_witness :
  exists e s1,
    AcceptBlock 10 2000 Demo.orphan Demo.s0 = Ok (([], [], [], Some e), s1) /\
    (e = KnownOrphanErr \/ e = UnknownOrphanErr) /\
    (e = KnownOrphanErr <-> orphan_recorded Demo.s0 Demo.orphan) /\
    s1 = set_missingParents (missingParents s1) Demo.s0 /\
    orphan_recorded s1 Demo.orphan /\
    forall fuel' now',
      AcceptBlock fuel' now' Demo.orphan s1 =
        Ok (([], [], [], Some KnownOrphanErr), s1).
Proof.
  apply (AcceptBlock_orphan 10 2000 Demo.orphan Demo.s0).
  - apply not_elem_of_empty.
  - vm_compute. reflexivity.
  - vm_compute. reflexivity.
Defined.

Lemma AcceptBlock_bad_header_remembered_witness :
  ID Demo.earlyBlock ∈
    badBlocks (Demo.after (AcceptBlock 10 2000 Demo.earlyBlock) Demo.s0) /\
  (ID Demo.earlyBlock ∉ badBlocks Demo.s0) /\
  forall fuel' now',
    AcceptBlock fuel' now' Demo.earlyBlock
      (Demo.after (AcceptBlock 10 2000 Demo.earlyBlock) Demo.s0) =
      Ok (([], [], [], Some invalidError),
          Demo.after (AcceptBlock 10 2000 Demo.earlyBlock) Demo.s0).
Proof.
  apply (AcceptBlock_bad_header_remembered 10 2000 Demo.earlyBlock Demo.s0 _
           ([], [], [], Some timestampError)).
  - vm_compute. reflexivity.
  - by left.
Defined.

Lemma integrateBlock_subsidy_witness :
  exists diffs bd' s',
    integrateBlock Demo.validBlock zeroBlockDiff
      (Demo.added Demo.validBlock Demo.s0) = Ok ((diffs, None, bd'), s') /\
    unspentOutputs (ledger s') !! SubsidyID Demo.validBlock =
      Some {| Value := CurrencyAdd
                         (fees_after (Transactions Demo.validBlock) CurrencyZero)
                         (CalculateCoinbase
                            (Height (Demo.nodeAt
                                       (Demo.added Demo.validBlock Demo.s0) 1)));
              SpendHash := MinerAddress Demo.validBlock |} /\
    currentBlockID s' = ID Demo.validBlock /\
    currentPath s' =
      <[Height (Demo.nodeAt (Demo.added Demo.validBlock Demo.s0) 1) :=
          ID Demo.validBlock]>
        (currentPath (Demo.added Demo.validBlock Demo.s0)) /\
    CatalystBlock bd' = ID Demo.validBlock /\
    heap s' = heap (Demo.added Demo.validBlock Demo.s0) /\
    blockMap s' = blockMap (Demo.added Demo.validBlock Demo.s0) /\
    badBlocks s' = badBlocks (Demo.added Demo.validBlock Demo.s0) /\
    notifications s' = notifications (Demo.added Demo.validBlock Demo.s0).
Proof.
  apply (integrateBlock_subsidy (Demo.added Demo.validBlock Demo.s0)
           Demo.validBlock zeroBlockDiff 1
           (Demo.nodeAt (Demo.added Demo.validBlock Demo.s0) 1)).
  - split; [vm_compute; reflexivity | exact I].
  - reflexivity.
  - reflexivity.
Defined.

Lemma earliestChildTimestamp_monotone_witness :
  exists m',
    earliestChildTimestamp (child_node Demo.genesisNode Demo.validBlock 1000 500)
      = Some m' /\
    1000 <= m'.
Proof.
  apply (earliestChildTimestamp_monotone Demo.genesisNode Demo.validBlock
           1000 500 1000).
  - reflexivity.
  - vm_compute. reflexivity.
  - vm_compute. discriminate.
Defined.

Lemma heavierFork_child_of_tip_witness :
  heavierFork 1 (Demo.added Demo.validBlock Demo.s0) =
    Ok (true, Demo.added Demo.validBlock Demo.s0).
Proof.
  apply (heavierFork_child_of_tip (Demo.added Demo.validBlock Demo.s0) 0 1
           (Demo.nodeAt (Demo.added Demo.validBlock Demo.s0) 0)
           (Demo.nodeAt (Demo.added Demo.validBlock Demo.s0) 1)).
  - reflexivity.
  - vm_compute. reflexivity.
  - reflexivity.
  - reflexivity.
  - reflexivity.
  - vm_compute. reflexivity.
  - reflexivity.
  - vm_compute. discriminate.
Defined.

Lemma forkBlockchain_writes_witness :
  exists r s',
    forkBlockchain 10 3 Demo.contested = Ok (r, s') /\
    r.2 = None /\
    pruned Demo.contested s' /\
    (r.1.1.2 = [] /\ notifications s' = notifications Demo.contested \/
     r.1.1.2 <> [] /\
     exists c, notifications s' = notifications Demo.contested ++ [c] /\
               length (AppliedBlocks c) = length r.1.1.2).
Proof.
  eexists _, _. split; [vm_compute; reflexivity |].
  apply (forkBlockchain_writes 10 3 Demo.contested).
  vm_compute. reflexivity.
Defined.

Lemma AcceptBlock_side_branch_witness :
  AcceptBlock 10 2300 Demo.sideBlock Demo.advanced =
    Ok (([], [], [], None),
        set_notifications
          (notifications Demo.advanced ++ [zeroConsensusChange])
          (tree_with Demo.advanced 0 (Demo.nodeAt Demo.advanced 0)
             Demo.sideBlock
             (child_node (Demo.nodeAt Demo.advanced 0) Demo.sideBlock
                1001 500))).
Proof.
  apply (AcceptBlock_side_branch 10 2300 Demo.sideBlock Demo.advanced 0 1
           (Demo.nodeAt Demo.advanced 0) (Demo.nodeAt Demo.advanced 1)
           1001 500).
  - split.
    + intros Hin. apply (bool_decide_pack _) in Hin. vm_compute in Hin.
      exact Hin.
    + vm_compute. reflexivity.
    + vm_compute. reflexivity.
    + reflexivity.
    + vm_compute. reflexivity.
    + vm_compute. discriminate.
    + vm_compute. reflexivity.
    + vm_compute. reflexivity.
    + reflexivity.
  - split.
    + vm_compute. reflexivity.
    + reflexivity.
    + reflexivity.
    + reflexivity.
    + vm_compute. reflexivity.
  - intros Hh. vm_compute in Hh. discriminate Hh.
Defined.

Lemma AcceptBlock_extends_tip_witness :
  exists s',
    AcceptBlock 10 2000 Demo.validBlock Demo.s0 =
      Ok (([], [Demo.validBlock],
           integrate_diffs (ledger Demo.s0) Demo.validBlock
             zeroTransactionDiff (Height Demo.genesisNode + 1),
           None), s') /\
    consensus_view s' =
      view_integrate (consensus_view Demo.s0) Demo.validBlock
        (Height Demo.genesisNode + 1) /\
    notifications s' =
      notifications Demo.s0 ++
      [ {| InvertedBlocks := [];
           AppliedBlocks :=
             [integrate_diff (ledger Demo.s0) Demo.validBlock zeroBlockDiff
                (Height Demo.genesisNode + 1)] |};
        zeroConsensusChange ] /\
    cached s' Demo.validBlock =
      integrate_diff (ledger Demo.s0) Demo.validBlock zeroBlockDiff
        (Height Demo.genesisNode + 1) /\
    blockMap s' =
      <[ID Demo.validBlock := length (heap Demo.s0)]> (blockMap Demo.s0) /\
    badBlocks s' = badBlocks Demo.s0 /\
    missingParents s' = missingParents Demo.s0.
Proof.
  apply (@AcceptBlock_extends_tip _ _ Demo_laws 10 2000 Demo.validBlock
           Demo.s0 0 Demo.genesisNode 1000 500).
  - split.
    + apply not_elem_of_empty.
    + vm_compute. reflexivity.
    + vm_compute. reflexivity.
    + reflexivity.
    + vm_compute. reflexivity.
    + vm_compute. discriminate.
    + vm_compute. reflexivity.
    + vm_compute. reflexivity.
    + reflexivity.
  - split.
    + vm_compute. reflexivity.
    + reflexivity.
    + reflexivity.
    + reflexivity.
    + vm_compute. reflexivity.
  - reflexivity.
  - vm_compute. reflexivity.
  - vm_compute. discriminate.
  - vm_compute. reflexivity.
  - vm_compute. discriminate.
  - vm_compute. reflexivity.
  - split; [reflexivity |].
    split; [split; [vm_compute; reflexivity | exact I] |].
    split; vm_compute; reflexivity.
  - lia.
Defined.

Lemma Demo_failing_fork :
  failing_fork Demo.forked 3 Demo.genesisView Demo.genesis 0
    [Demo.validBlock] [Demo.sideBlock] Demo.sideInvalid [].
Proof.
  split.
  - apply (bool_decide_unpack _). vm_compute. exact I.
  - apply child_links_b_sound. vm_compute. reflexivity.
  - eexists 0%nat, _. split; [reflexivity |]. split; [reflexivity |].
    split; reflexivity.
  - vm_compute. reflexivity.
  - reflexivity.
  - split; [| exact I].
    eexists 1%nat, _. split; [reflexivity |]. split; [reflexivity |].
    split; reflexivity.
  - vm_compute. reflexivity.
  - split; [| exact I]. split; [reflexivity |].
    split; [split; [vm_compute; reflexivity | exact I] |].
    split; vm_compute; reflexivity.
  - split.
    + eexists 2%nat, _. split; [reflexivity |]. split; [reflexivity |].
      split; reflexivity.
    + split; [| exact I].
      eexists 3%nat, _. split; [reflexivity |]. split; [reflexivity |].
      split; reflexivity.
  - split; [reflexivity |]. split; [reflexivity | exact I].
  - split; [vm_compute; discriminate |].
    split; [vm_compute; discriminate | exact I].
  - vm_compute. reflexivity.
  - split; [| exact I]. split; [reflexivity |].
    split; [split; [vm_compute; reflexivity | exact I] |].
    split; vm_compute; reflexivity.
  - intros (_ & Hbad & _). vm_compute in Hbad. discriminate Hbad.
Qed.

(** Three calls.  [sideValid] is submitted in the state [sided]: its node
    wins, the current block [validBlock] is rewound and the branch of
    [sideBlock] and [sideValid] is applied.  [sideInvalid] is submitted in
    the same state: its node wins, the replay fails on it and is rolled
    back.  [sideBlock] is submitted in the state [advanced]: its node does
    not win. *)
Lemma AcceptBlock_publishes_witness :
  (heavier 333 (Depth (Demo.nodeAt Demo.sided 1)) (Target (Demo.nodeAt Demo.sided 1)) /\
   winning_fork (grown Demo.sided 2 (Demo.nodeAt Demo.sided 2) Demo.sideValid 1002 333) (length (heap Demo.sided)) Demo.genesisView Demo.genesis
     0 [Demo.validBlock] [Demo.sideBlock; Demo.sideValid] /\
   exists fuel0 r s',
     (forall fuel, (fuel0 <= fuel)%nat ->
        AcceptBlock fuel 2300 Demo.sideValid Demo.sided = Ok (r, s')) /\
     r.2 = None /\
     r.1.1.1 = [Demo.validBlock] /\
     r.1.1.2 = [Demo.sideBlock; Demo.sideValid] /\
     notifications s' =
       notifications Demo.sided ++
       [ {| InvertedBlocks := cached (grown Demo.sided 2 (Demo.nodeAt Demo.sided 2) Demo.sideValid 1002 333) <$> [Demo.validBlock];
            AppliedBlocks :=
              chain_block_diffs Demo.genesisView 0
                [Demo.sideBlock; Demo.sideValid] |};
         zeroConsensusChange ] /\
     consensus_view s' =
       view_after Demo.genesisView 0 [Demo.sideBlock; Demo.sideValid]) /\
  (heavier 333 (Depth (Demo.nodeAt Demo.sided 1)) (Target (Demo.nodeAt Demo.sided 1)) /\
   failing_fork (grown Demo.sided 2 (Demo.nodeAt Demo.sided 2) Demo.sideInvalid 1002 333) (length (heap Demo.sided)) Demo.genesisView Demo.genesis
     0 [Demo.validBlock] [Demo.sideBlock] Demo.sideInvalid [] /\
   coherent (grown Demo.sided 2 (Demo.nodeAt Demo.sided 2) Demo.sideInvalid 1002 333) /\ parent_links (grown Demo.sided 2 (Demo.nodeAt Demo.sided 2) Demo.sideInvalid 1002 333) /\
   exists fuel0 r s',
     (forall fuel, (fuel0 <= fuel)%nat ->
        AcceptBlock fuel 2300 Demo.sideInvalid Demo.sided = Ok (r, s')) /\
     r = ([], [], [], None) /\
     notifications s' = notifications Demo.sided ++ [zeroConsensusChange] /\
     consensus_view s' = consensus_view Demo.sided) /\
  (~ heavier 500 (Depth (Demo.nodeAt Demo.advanced 1)) (Target (Demo.nodeAt Demo.advanced 1)) /\
   exists fuel0 r s',
     (forall fuel, (fuel0 <= fuel)%nat ->
        AcceptBlock fuel 2300 Demo.sideBlock Demo.advanced = Ok (r, s')) /\
     r = ([], [], [], None) /\
     notifications s' = notifications Demo.advanced ++ [zeroConsensusChange] /\
     consensus_view s' = consensus_view Demo.advanced).
Proof.
  assert (Hh : heavier 333 (Depth (Demo.nodeAt Demo.sided 1)) (Target (Demo.nodeAt Demo.sided 1))) by (vm_compute; reflexivity).
  assert (Hw : winning_fork (grown Demo.sided 2 (Demo.nodeAt Demo.sided 2) Demo.sideValid 1002 333) (length (heap Demo.sided)) Demo.genesisView
                 Demo.genesis 0 [Demo.validBlock]
                 [Demo.sideBlock; Demo.sideValid]).
  { assert (Hg : (grown Demo.sided 2 (Demo.nodeAt Demo.sided 2) Demo.sideValid 1002 333) = Demo.contested) by (vm_compute; reflexivity).
    rewrite Hg. exact Demo_winning_fork. }
  assert (Hf : failing_fork (grown Demo.sided 2 (Demo.nodeAt Demo.sided 2) Demo.sideInvalid 1002 333) (length (heap Demo.sided)) Demo.genesisView
                 Demo.genesis 0 [Demo.validBlock] [Demo.sideBlock]
                 Demo.sideInvalid []).
  { assert (Hg : (grown Demo.sided 2 (Demo.nodeAt Demo.sided 2) Demo.sideInvalid 1002 333) = Demo.forked) by (vm_compute; reflexivity).
    rewrite Hg. exact Demo_failing_fork. }
  assert (Hco : coherent (grown Demo.sided 2 (Demo.nodeAt Demo.sided 2) Demo.sideInvalid 1002 333))
    by (apply coherent_b_sound; vm_compute; reflexivity).
  assert (Hpl : parent_links (grown Demo.sided 2 (Demo.nodeAt Demo.sided 2) Demo.sideInvalid 1002 333))
    by (apply parent_links_b_sound; vm_compute; reflexivity).
  assert (Hl : ~ heavier 500 (Depth (Demo.nodeAt Demo.advanced 1)) (Target (Demo.nodeAt Demo.advanced 1))) by (intros Hx; vm_compute in Hx; discriminate Hx).
  assert (Htip : at_tip Demo.sided 1 (Demo.nodeAt Demo.sided 1)).
  { split.
    - vm_compute. reflexivity.
    - reflexivity.
    - reflexivity.
    - reflexivity.
    - vm_compute. reflexivity. }
  split; [| split].
  - split; [exact Hh |]. split; [exact Hw |].
    destruct (@AcceptBlock_publishes _ _ Demo_laws 2300 Demo.sideValid
                Demo.sided 2 1 (Demo.nodeAt Demo.sided 2)
                (Demo.nodeAt Demo.sided 1) 1002 333 Demo.genesisView
                Demo.genesis 0 [Demo.validBlock]
                [Demo.sideBlock; Demo.sideValid] [] Demo.sideInvalid [])
      as (fuel0 & r & s' & Hrun & Hnil & _ & _ & Hreorg & _).
    + split.
      * intros Hin. apply (bool_decide_pack _) in Hin. vm_compute in Hin.
        exact Hin.
      * vm_compute. reflexivity.
      * vm_compute. reflexivity.
      * reflexivity.
      * vm_compute. reflexivity.
      * vm_compute. discriminate.
      * vm_compute. reflexivity.
      * vm_compute. reflexivity.
      * reflexivity.
    + exact Htip.
    + intros _. split; [lia |]. left. exact Hw.
    + destruct (Hreorg Hh Hw) as (Hr1 & Hr2 & _ & Hnot & Hview).
      exists fuel0, r, s'. split; [exact Hrun |]. split; [exact Hnil |].
      split; [exact Hr1 |]. split; [exact Hr2 |]. split; [exact Hnot |].
      exact Hview.
  - split; [exact Hh |]. split; [exact Hf |]. split; [exact Hco |].
    split; [exact Hpl |].
    destruct (@AcceptBlock_publishes _ _ Demo_laws 2300 Demo.sideInvalid
                Demo.sided 2 1 (Demo.nodeAt Demo.sided 2)
                (Demo.nodeAt Demo.sided 1) 1002 333 Demo.genesisView
                Demo.genesis 0 [Demo.validBlock] [] [Demo.sideBlock]
                Demo.sideInvalid [])
      as (fuel0 & r & s' & Hrun & _ & _ & _ & _ & Hback).
    + split.
      * intros Hin. apply (bool_decide_pack _) in Hin. vm_compute in Hin.
        exact Hin.
      * vm_compute. reflexivity.
      * vm_compute. reflexivity.
      * reflexivity.
      * vm_compute. reflexivity.
      * vm_compute. discriminate.
      * vm_compute. reflexivity.
      * vm_compute. reflexivity.
      * reflexivity.
    + exact Htip.
    + intros _. split; [lia |]. right. split; [exact Hf |].
      split; [exact Hco | exact Hpl].
    + destruct (Hback Hh Hf) as (Hr & Hnot & Hview).
      exists fuel0, r, s'. split; [exact Hrun |]. split; [exact Hr |].
      split; [exact Hnot | exact Hview].
  - split; [exact Hl |].
    destruct (@AcceptBlock_publishes _ _ Demo_laws 2300 Demo.sideBlock
                Demo.advanced 0 1 (Demo.nodeAt Demo.advanced 0)
                (Demo.nodeAt Demo.advanced 1) 1001 500 Demo.genesisView
                Demo.genesis 0 [] [] [] Demo.sideInvalid [])
      as (fuel0 & r & s' & Hrun & _ & _ & Hside & _).
    + split.
      * intros Hin. apply (bool_decide_pack _) in Hin. vm_compute in Hin.
        exact Hin.
      * vm_compute. reflexivity.
      * vm_compute. reflexivity.
      * reflexivity.
      * vm_compute. reflexivity.
      * vm_compute. discriminate.
      * vm_compute. reflexivity.
      * vm_compute. reflexivity.
      * reflexivity.
    + split.
      * vm_compute. reflexivity.
      * reflexivity.
      * reflexivity.
      * reflexivity.
      * vm_compute. reflexivity.
    + intros Hx. destruct (Hl Hx).
    + destruct (Hside Hl) as (Hr & Hnot & Hview).
      exists fuel0, r, s'. split; [exact Hrun |]. split; [exact Hr |].
      split; [exact Hnot | exact Hview].
Defined.

(** The same call with fuel 10: the result and the two changes it
    publishes, after the change of the acceptance of [validBlock] and the
    empty changes of the two earlier calls. *)
Lemma AcceptBlock_publishes_run :
  exists diffs c s',
    AcceptBlock 10 2300 Demo.sideValid Demo.sided =
      Ok (([Demo.validBlock], [Demo.sideBlock; Demo.sideValid], diffs, None),
          s') /\
    notifications s' = notifications Demo.sided ++ [c; zeroConsensusChange] /\
    length (notifications Demo.sided) = 3%nat /\
    CatalystBlock <$> InvertedBlocks c = [2] /\
    CatalystBlock <$> AppliedBlocks c = [10; 12] /\
    currentBlockID s' = 12.
Proof.
  eexists _, _, _. split; [vm_compute; reflexivity |].
  split; [vm_compute; reflexivity |].
  split; [reflexivity |]. split; [reflexivity |]. split; reflexivity.
Qed.

End Instances.
